(** * Segmentation metrics of pyannote.metrics: a shallow embedding

    This file embeds [pyannote/metrics/segmentation.py] and proves
    properties of its two engines: the greedy boundary matcher behind
    [SegmentationPrecision] / [SegmentationRecall], and the gap filler and
    co-occurrence scorer behind [SegmentationCoverage] /
    [SegmentationPurity].

    Conventions of the embedding.
    - Python numbers (timestamps, durations, counts, rates) are rationals
      [Q]; they are only ever compared ([Qle_bool], [Qeq_bool]), so the
      embedding does not depend on the representative of a rational.
      Rounding of floating-point arithmetic is not modelled.
    - A numpy cell is a rational or [np.inf] (type [fl]).
    - Exceptions are values of [exn]; a computation that may raise has type
      [result A].
    - The module relies on Python 2 division ([from __future__ import
      division] is absent): [k / M] on integers is floor division. *)

From Stdlib Require Import QArith Qabs Qminmax Lqa ZArith Lia.
From stdpp Require Import base option list sorting gmap strings pretty.

Local Close Scope Q_scope.
Local Open Scope Z_scope.
Local Open Scope nat_scope.

(** ** Exceptions *)

Inductive exn : Set :=
| ValueError
| TypeError
| IndexError
| KeyError
| ZeroDivisionError.

Inductive result (A : Type) : Type :=
| Ok (a : A)
| Raise (e : exn).
Arguments Ok {A} a.
Arguments Raise {A} e.

Definition rbind {A B : Type} (r : result A) (k : A -> result B) : result B :=
  match r with
  | Ok a => k a
  | Raise e => Raise e
  end.

Notation "'do' x <- r ; k" := (rbind r (fun x => k))
  (at level 10, x name, r at level 100, k at level 200).

(** A Python [for] loop over the list [l], threading the state [s] through
    a body that may raise. *)
Fixpoint for_each {A S : Type} (body : A -> S -> result S) (l : list A) (s : S)
  : result S :=
  match l with
  | [] => Ok s
  | x :: l' => do s' <- body x s; for_each body l' s'
  end.

(** [enumerate(l)]. *)
Definition enumerate {A : Type} (l : list A) : list (nat * A) :=
  imap (fun i x => (i, x)) l.

(** [l[:-1]]: all elements but the last (the empty list stays empty). *)
Definition but_last {A : Type} (l : list A) : list A := removelast l.

(** ** Rational comparisons as booleans *)

Definition Qltb (x y : Q) : bool := negb (Qle_bool y x).

(** A set of numbers, kept as the sorted list of its distinct elements
    (what [sorted] returns on a Python [set] of timestamps): insertion. *)
Fixpoint insert_sorted (x : Q) (l : list Q) : list Q :=
  match l with
  | [] => [x]
  | y :: l' =>
      if Qeq_bool x y then l
      else if Qltb x y then x :: l
      else y :: insert_sorted x l'
  end.

(** * numpy: two-dimensional arrays of numbers

    numpy keeps the shape of an array apart from its cells: an array
    without rows still has a number of columns.  [shape] is the pair
    (rows, columns) and [cells] lists the rows. *)

Record ndarray : Type := mkArray { shape : nat * nat; cells : list (list Q) }.

(** * pyannote.core: segments, timelines, annotations

    pyannote.core is a separate package; the definitions of this module
    follow the data model and the external interfaces of the specification
    (sections 3 and 6). *)

Module Core.

(** Modelled from the spec: the Interval of pyannote.core (class
    [Segment]), an ordered pair of timestamps. *)
Record Segment : Type := mkSegment { seg_start : Q; seg_end : Q }.

(** Modelled from the spec: [segment.duration], [end - start]; an empty
    segment (no positive length) has duration [0]. *)
Definition duration (s : Segment) : Q :=
  if Qltb (seg_start s) (seg_end s) then (seg_end s - seg_start s)%Q else 0%Q.

(** Modelled from the spec: a remainder is kept by a crop when it has a
    positive length ([bool(segment)]). *)
Definition nonempty (s : Segment) : bool := Qltb (seg_start s) (seg_end s).

(** Modelled from the spec: [s == t] on segments, equality of both ends. *)
Definition seg_eqb (s t : Segment) : bool :=
  Qeq_bool (seg_start s) (seg_start t) && Qeq_bool (seg_end s) (seg_end t).

(** Modelled from the spec: segments are ordered by start time, then by
    end time. *)
Definition seg_ltb (s t : Segment) : bool :=
  Qltb (seg_start s) (seg_start t)
  || (Qeq_bool (seg_start s) (seg_start t) && Qltb (seg_end s) (seg_end t)).

(** Modelled from the spec: [s & t], the overlapping portion of two
    segments (possibly empty). *)
Definition seg_inter (s t : Segment) : Segment :=
  mkSegment (Qmax (seg_start s) (seg_start t)) (Qmin (seg_end s) (seg_end t)).

(** Modelled from the spec: the Interval Collection of pyannote.core
    (class [Timeline], not part of this repository) is a set of intervals
    kept sorted by start time, then end time.  A timeline is the list of
    its segments in iteration order. *)
Abbreviation Timeline := (list Segment).

(** Modelled from the spec: [Timeline.add], insertion of a segment into
    the sorted set (a segment already present is not added twice). *)
Fixpoint add (s : Segment) (t : Timeline) : Timeline :=
  match t with
  | [] => [s]
  | x :: t' =>
      if seg_eqb s x then t
      else if seg_ltb s x then s :: t
      else x :: add s t'
  end.

(** Modelled from the spec: [Timeline()] followed by one [add] per segment
    of [l]. *)
Definition of_segments (l : list Segment) : Timeline :=
  fold_left (fun t s => add s t) l [].

(** Modelled from the spec: the Labeled Partition of pyannote.core (class
    [Annotation]) maps intervals to labels; it is the list of its
    (segment, label) items in iteration order. *)
Abbreviation Annotation := (list (Segment * string)).

(** Modelled from the spec: [Annotation.get_timeline], the timeline of
    the segments of an annotation, labels discarded. *)
Definition get_timeline (a : Annotation) : Timeline :=
  of_segments (fst <$> a).

(** Modelled from the spec: [Annotation.labels], the distinct labels. *)
Definition labels (a : Annotation) : list string := remove_dups (snd <$> a).

(** Modelled from the spec: [Annotation.label_timeline], the sub-collection
    of the intervals bearing a label. *)
Definition label_timeline (a : Annotation) (label : string) : Timeline :=
  of_segments (fst <$> filter (fun item => snd item = label) a).

(** Modelled from the spec: the merged non-overlapping envelope of a
    collection of intervals.  [cur] is the envelope being grown; a
    segment that starts after its end closes it, any other one (touching
    or overlapping) extends it. *)
Fixpoint merge_from (cur : Segment) (l : Timeline) : Timeline :=
  match l with
  | [] => [cur]
  | s :: l' =>
      if Qltb (seg_end cur) (seg_start s) then cur :: merge_from s l'
      else merge_from (mkSegment (seg_start cur) (Qmax (seg_end cur) (seg_end s))) l'
  end.

(** Modelled from the spec: [Timeline.coverage] of a timeline iterated by
    increasing start time. *)
Definition coverage (t : Timeline) : Timeline :=
  match t with
  | [] => []
  | s :: t' => merge_from s t'
  end.

(** Modelled from the spec: [pairwise(l)] of pyannote.core.util, the
    consecutive pairs of a list. *)
Definition pairwise {A : Type} (l : list A) : list (A * A) := zip l (tail l).

(** Modelled from the spec: [Timeline.gaps], the complementary intervals
    between consecutive members of the merged envelope. *)
Definition gaps (t : Timeline) : Timeline :=
  (fun p : Segment * Segment => mkSegment (seg_end (fst p)) (seg_start (snd p)))
    <$> pairwise (coverage t).

(** Modelled from the spec: [Annotation.crop(region, mode='intersection')]
    keeps the overlapping portions, truncated, and discards zero-length
    remainders. *)
Definition crop (a : Annotation) (region : Timeline) : Annotation :=
  item ← a;
  c ← region;
  let s := seg_inter (fst item) c in
  if nonempty s then [(s, snd item)] else [].

(** Modelled from the spec: [Annotation.anonymize_tracks] relabels every
    item with a unique anonymous identifier. *)
Definition anonymize_tracks (a : Annotation) : Annotation :=
  imap (fun i (item : Segment * string) => (fst item, pretty i)) a.

(** Modelled from the spec: the co-occurrence operator [a * b], a matrix
    with one row per item of [a], one column per item of [b], the cell
    being the duration of their overlap.  Its shape is
    [(len(a), len(b))], also when [a] or [b] has no item. *)
Definition cooccurrence (a b : Annotation) : ndarray :=
  mkArray (length a, length b)
    ((fun x : Segment * string =>
        (fun y : Segment * string => duration (seg_inter (fst x) (fst y))) <$> b)
       <$> a).

(** What a metric receives as reference or hypothesis: the code tests
    [isinstance(x, Annotation)]. *)
Inductive structure : Type :=
| IsAnnotation (a : Annotation)
| IsTimeline (t : Timeline).

End Core.

(** * numpy: arrays of floats with [np.inf] *)

Module Numpy.

(** A cell of a float array: a finite value or [np.inf]. *)
Inductive fl : Type :=
| Fin (q : Q)
| Inf.

(** [x < y] on cells; nothing is greater than [np.inf]. *)
Definition fl_ltb (x y : fl) : bool :=
  match x, y with
  | Fin a, Fin b => Qltb a b
  | Fin _, Inf => true
  | Inf, _ => false
  end.

(** [x < np.inf]. *)
Definition lt_inf (x : fl) : bool := fl_ltb x Inf.

(** A two-dimensional array, as the list of its rows. *)
Abbreviation matrix := (list (list fl)).

(** [np.zeros((N, M))]; numpy refuses negative dimensions. *)
Definition zeros (N M : Z) : result matrix :=
  if ((N <? 0) || (M <? 0))%Z then Raise ValueError
  else Ok (replicate (Z.to_nat N) (replicate (Z.to_nat M) (Fin 0))).

(** [delta[r, h] = v] for indices produced by [enumerate]; an index
    outside of the array raises [IndexError]. *)
Definition setitem (r h : nat) (v : fl) (delta : matrix) : result matrix :=
  match delta !! r with
  | None => Raise IndexError
  | Some row =>
      if decide (h < length row) then Ok (<[r := <[h := v]> row]> delta)
      else Raise IndexError
  end.

(** [delta[np.where(delta > tolerance)] = np.inf]. *)
Definition mask_cell (tolerance : Q) (x : fl) : fl :=
  if fl_ltb (Fin tolerance) x then Inf else x.

Definition mask_gt (tolerance : Q) (delta : matrix) : matrix :=
  (fun row : list fl => mask_cell tolerance <$> row) <$> delta.

(** The cells of an array in C (row-major) order: what [np.amin] and
    [np.argmin] scan when no axis is given. *)
Definition ravel (delta : matrix) : list fl := concat delta.

Definition fl_min (x y : fl) : fl := if fl_ltb y x then y else x.

(** [np.amin(delta)]; numpy raises on an array without cells. *)
Definition amin (delta : matrix) : result fl :=
  match ravel delta with
  | [] => Raise ValueError
  | x :: l => Ok (fold_left fl_min l x)
  end.

(** The scan of [np.argmin]: [besti] is the index of the smallest cell
    [best] seen so far, [idx] the index of the head of [l].  A later cell
    replaces the current one only when strictly smaller, so the first
    occurrence of the minimum is returned. *)
Fixpoint argmin_from (best : fl) (besti idx : nat) (l : list fl) : nat :=
  match l with
  | [] => besti
  | x :: l' =>
      if fl_ltb x best then argmin_from x idx (S idx) l'
      else argmin_from best besti (S idx) l'
  end.

(** [np.argmin(delta)]: an index into the flattened array. *)
Definition argmin (delta : matrix) : result Z :=
  match ravel delta with
  | [] => Raise ValueError
  | x :: l => Ok (Z.of_nat (argmin_from x 0 1 l))
  end.

(** The sum of a list of numbers, and of the cells of a list of rows. *)
Definition Qsum (l : list Q) : Q := foldr Qplus 0%Q l.

Definition total (rows : list (list Q)) : Q := Qsum (concat rows).

(** [np.sum(K)] on an array of finite numbers; the sum of no cell is [0]. *)
Definition sum (K : ndarray) : Q := total (cells K).

(** The maximum of one row; numpy raises on a row without cells. *)
Definition row_max (row : list Q) : result Q :=
  match row with
  | [] => Raise ValueError
  | x :: l => Ok (fold_left Qmax l x)
  end.

(** The maxima of the rows of an array. *)
Fixpoint row_maxima (rows : list (list Q)) : result (list Q) :=
  match rows with
  | [] => Ok []
  | row :: rows' =>
      do m <- row_max row;
      do ms <- row_maxima rows';
      Ok (m :: ms)
  end.

(** [np.max(K, axis=1)]: the maximum of every row.  The maximum has no
    identity: numpy raises [ValueError] when the reduced axis has length
    zero, also on an array without rows (shape [(0, 0)]); on an array of
    shape [(0, m)] with [m > 0] it returns an empty array. *)
Definition max_axis1 (K : ndarray) : result (list Q) :=
  match snd (shape K) with
  | 0 => Raise ValueError
  | S _ => row_maxima (cells K)
  end.

(** An integer index along an axis of length [n]: negative indices count
    from the end, anything outside raises [IndexError]. *)
Definition index (i : Z) (n : nat) : result nat :=
  let i' := (if i <? 0 then i + Z.of_nat n else i)%Z in
  if ((0 <=? i') && (i' <? Z.of_nat n))%Z then Ok (Z.to_nat i')
  else Raise IndexError.

(** Number of columns ([delta.shape[1]]) of a non-empty array. *)
Definition ncols (delta : matrix) : nat :=
  match delta with
  | [] => 0
  | row :: _ => length row
  end.

(** [delta[i, :] = np.inf]. *)
Definition set_row_inf (i : Z) (delta : matrix) : result matrix :=
  do r <- index i (length delta);
  Ok (alter (fun row : list fl => (fun _ => Inf) <$> row) r delta).

(** [delta[:, j] = np.inf]. *)
Definition set_col_inf (j : Z) (delta : matrix) : result matrix :=
  do c <- index j (ncols delta);
  Ok ((fun row : list fl => <[c := Inf]> row) <$> delta).

End Numpy.

(** * The Detail Record

    Modelled from the spec: [BaseMetric._init_details] (base.py is not part
    of the sources) creates a Detail Record, a mapping from the component
    keys of the metric to numbers, every value being [0]. *)

Abbreviation Detail := (gmap string Q).

Definition init_details (components : list string) : Detail :=
  list_to_map ((fun name => (name, 0%Q)) <$> components).

(** [detail[key]]; a missing key raises [KeyError]. *)
Definition getitem (d : Detail) (key : string) : result Q :=
  match d !! key with
  | Some v => Ok v
  | None => Raise KeyError
  end.

(** * SegmentationPrecision and SegmentationRecall *)

Module SegmentationPrecision.
Import Core Numpy.

Definition PR_BOUNDARIES : string := "number of boundaries".
Definition PR_MATCHES : string := "number of matches".

Definition metric_components : list string := [PR_MATCHES; PR_BOUNDARIES].

(** [isinstance(x, Annotation)] and [x.get_timeline()]. *)
Definition as_timeline (x : structure) : Timeline :=
  match x with
  | IsAnnotation a => get_timeline a
  | IsTimeline t => t
  end.

(** [[segment.end for segment in timeline][:-1]]. *)
Definition boundaries (t : Timeline) : list Q := but_last (seg_end <$> t).

(** The two nested [for] loops that fill [delta] with the absolute
    differences of all pairs of boundaries. *)
Definition fill_delta (refBoundaries hypBoundaries : list Q) (delta : matrix)
  : result matrix :=
  for_each
    (fun '(r, refBoundary) delta =>
       for_each
         (fun '(h, hypBoundary) delta =>
            setitem r h (Fin (Qabs (refBoundary - hypBoundary))) delta)
         (enumerate hypBoundaries) delta)
    (enumerate refBoundaries) delta.

(** The variables the [while] loop updates. *)
Record state : Type := mkState { delta : matrix; nMatches : Q }.

(** One evaluation of the loop condition [h < np.inf], with [h] the
    minimum of [delta], followed by the body when it holds.  [None] is the
    exit of the loop.  [k / M] is Python 2 integer division. *)
Definition loop_step (M : Z) (st : state) : result (option state) :=
  do h <- amin (delta st);
  if lt_inf h then
    let nMatches' := (nMatches st + 1)%Q in
    do k <- argmin (delta st);
    let i := (k / M)%Z in
    let j := (k mod M)%Z in
    do delta1 <- set_row_inf i (delta st);
    do delta2 <- set_col_inf j delta1;
    Ok (Some (mkState delta2 nMatches'))
  else Ok None.

(** The [while] loop, unrolled at most [fuel] times; [None] when the fuel
    does not suffice. *)
Fixpoint while_loop (fuel : nat) (M : Z) (st : state) : option (result state) :=
  match fuel with
  | O => None
  | S fuel' =>
      match loop_step M st with
      | Raise e => Some (Raise e)
      | Ok None => Some (Ok st)
      | Ok (Some st') => while_loop fuel' M st'
      end
  end.

(** [SegmentationPrecision._get_details].  The loop is given one unit of
    fuel per cell of [delta], plus one. *)
Definition _get_details (tolerance : Q) (reference hypothesis : structure)
  : option (result Detail) :=
  let reference := as_timeline reference in
  let hypothesis := as_timeline hypothesis in
  let detail := init_details metric_components in
  let nMatches0 := 0%Q in
  let N := (Z.of_nat (length reference) - 1)%Z in
  let M := (Z.of_nat (length hypothesis) - 1)%Z in
  let detail := <[PR_BOUNDARIES := inject_Z M]> detail in
  if ((M =? 0) || (N =? 0))%Z then
    Some (Ok (<[PR_MATCHES := 0%Q]> detail))
  else
    let refBoundaries := boundaries reference in
    let hypBoundaries := boundaries hypothesis in
    match
      (do delta <- zeros N M;
       do delta <- fill_delta refBoundaries hypBoundaries delta;
       Ok (mask_gt tolerance delta))
    with
    | Raise e => Some (Raise e)
    | Ok delta =>
        match while_loop (S (Z.to_nat N * Z.to_nat M)) M (mkState delta nMatches0) with
        | None => None
        | Some (Raise e) => Some (Raise e)
        | Some (Ok st) => Some (Ok (<[PR_MATCHES := nMatches st]> detail))
        end
    end.

(** [SegmentationPrecision._get_rate]. *)
Definition _get_rate (detail : Detail) : result Q :=
  do numerator <- getitem detail PR_MATCHES;
  do denominator <- getitem detail PR_BOUNDARIES;
  if Qeq_bool denominator 0 then
    if Qeq_bool numerator 0 then Ok 1%Q
    else Raise ValueError
  else Ok (numerator / denominator)%Q.

(** Modelled from the spec: calling a metric on a pair
    ([BaseMetric.__call__], base.py is not part of the sources) computes
    the details of the pair and returns their rate. *)
Definition rate (tolerance : Q) (reference hypothesis : structure)
  : option (result Q) :=
  match _get_details tolerance reference hypothesis with
  | None => None
  | Some (Raise e) => Some (Raise e)
  | Some (Ok d) => Some (_get_rate d)
  end.

End SegmentationPrecision.

Module SegmentationRecall.
Import Core.

(** [SegmentationRecall._get_details]: the precision of the swapped pair. *)
Definition _get_details (tolerance : Q) (reference hypothesis : structure)
  : option (result Detail) :=
  SegmentationPrecision._get_details tolerance hypothesis reference.

(** [_get_rate] is inherited from [SegmentationPrecision]. *)
Definition _get_rate : Detail -> result Q := SegmentationPrecision._get_rate.

(** Modelled from the spec: calling the metric on a pair returns the rate
    of the details of the pair ([BaseMetric.__call__]). *)
Definition rate (tolerance : Q) (reference hypothesis : structure)
  : option (result Q) :=
  match _get_details tolerance reference hypothesis with
  | None => None
  | Some (Raise e) => Some (Raise e)
  | Some (Ok d) => Some (_get_rate d)
  end.

End SegmentationRecall.


(** * SegmentationCoverage and SegmentationPurity *)

Module SegmentationCoverage.
Import Core Numpy.

Definition PTY_CVG_TOTAL : string := "total duration".
Definition PTY_CVG_INTER : string := "intersection duration".

Definition metric_components : list string := [PTY_CVG_TOTAL; PTY_CVG_INTER].

(** [SegmentationCoverage._partition]: the set of the timestamps of the
    timeline, sorted; one segment labelled ['_'] per consecutive pair; the
    crop to the coverage, tracks anonymized. *)
Definition _partition (timeline coverage : Timeline) : Annotation :=
  let boundaries :=
    fold_left
      (fun boundaries segment =>
         insert_sorted (seg_end segment) (insert_sorted (seg_start segment) boundaries))
      timeline [] in
  let partition : Annotation :=
    (fun p : Q * Q => (mkSegment (fst p) (snd p), "_"%string)) <$> pairwise boundaries in
  anonymize_tracks (crop partition coverage).

(** The inner loop of [_preprocess]: every gap of the timeline of a label
    that is shorter than the tolerance is added to that timeline. *)
Definition fill_gaps (tolerance : Q) (label_timeline : Timeline) : Timeline :=
  fold_left
    (fun label_timeline gap =>
       if Qltb (duration gap) tolerance then add gap label_timeline
       else label_timeline)
    (gaps label_timeline) label_timeline.

(** The outer loop of [_preprocess]: the reference where short intra-label
    gaps are removed. *)
Definition filled (tolerance : Q) (reference : Annotation) : Timeline :=
  fold_left
    (fun filled label =>
       let label_timeline := fill_gaps tolerance (label_timeline reference label) in
       fold_left (fun filled segment => add segment filled)
         (coverage label_timeline) filled)
    (labels reference) [].

(** [SegmentationCoverage._preprocess]. *)
Definition _preprocess (tolerance : Q) (reference hypothesis : structure)
  : result (Annotation * Annotation) :=
  match reference with
  | IsTimeline _ => Raise TypeError
  | IsAnnotation reference =>
      let hypothesis :=
        match hypothesis with
        | IsAnnotation h => get_timeline h
        | IsTimeline h => h
        end in
      let filled := filled tolerance reference in
      let coverage := coverage filled in
      let reference_partition := _partition filled coverage in
      let hypothesis_partition := _partition hypothesis coverage in
      Ok (reference_partition, hypothesis_partition)
  end.

(** [SegmentationCoverage._process]. *)
Definition _process (reference hypothesis : Annotation) : result Detail :=
  let detail := init_details metric_components in
  let K := cooccurrence reference hypothesis in
  let detail := <[PTY_CVG_TOTAL := sum K]> detail in
  do maxima <- max_axis1 K;
  let detail := <[PTY_CVG_INTER := Qsum maxima]> detail in
  Ok detail.

(** [SegmentationCoverage._get_details]. *)
Definition _get_details (tolerance : Q) (reference hypothesis : structure)
  : result Detail :=
  do p <- _preprocess tolerance reference hypothesis;
  _process (fst p) (snd p).

(** [SegmentationCoverage._get_rate]; dividing by a zero total raises. *)
Definition _get_rate (detail : Detail) : result Q :=
  do inter <- getitem detail PTY_CVG_INTER;
  do total <- getitem detail PTY_CVG_TOTAL;
  if Qeq_bool total 0 then Raise ZeroDivisionError
  else Ok (inter / total)%Q.

(** Modelled from the spec: calling the metric on a pair returns the rate
    of the details of the pair ([BaseMetric.__call__]). *)
Definition rate (tolerance : Q) (reference hypothesis : structure) : result Q :=
  do d <- _get_details tolerance reference hypothesis;
  _get_rate d.

End SegmentationCoverage.

Module SegmentationPurity.
Import Core.

(** [SegmentationPurity._get_details]: the partitions are those of
    [SegmentationCoverage._preprocess], scored in the other order. *)
Definition _get_details (tolerance : Q) (reference hypothesis : structure)
  : result Detail :=
  do p <- SegmentationCoverage._preprocess tolerance reference hypothesis;
  SegmentationCoverage._process (snd p) (fst p).

(** Modelled from the spec: calling the metric on a pair returns the rate
    of the details of the pair ([BaseMetric.__call__]). *)
Definition rate (tolerance : Q) (reference hypothesis : structure) : result Q :=
  do d <- _get_details tolerance reference hypothesis;
  SegmentationCoverage._get_rate d.

End SegmentationPurity.

(** * Specification-level notions for the boundary matcher *)

Module Matcher.
Import Core Numpy SegmentationPrecision.

(** An array of shape [(n, m)]. *)
Definition shaped (n m : nat) (d : matrix) : Prop :=
  length d = n /\ Forall (fun row : list fl => length row = m) d.

(** The cell [d[i, j]], when inside of the array. *)
Definition cell (d : matrix) (i j : nat) : option fl :=
  match d !! i with
  | Some row => row !! j
  | None => None
  end.

(** [x <= y] on cells, as the negation of [y < x]. *)
Definition fl_le (x y : fl) : Prop := fl_ltb y x = false.

(** The value at index [k] is a minimum of [L], and the first one. *)
Definition first_min (L : list fl) (k : nat) : Prop :=
  exists x, L !! k = Some x
    /\ (forall y, y ∈ L -> fl_le x y)
    /\ (forall k' y, k' < k -> L !! k' = Some y -> fl_ltb x y = true).

(** Number of finite (unmasked) cells. *)
Definition finite_cells (d : matrix) : nat :=
  length (filter (fun x => lt_inf x = true) (ravel d)).

(** The matrix of the absolute differences of all pairs of boundaries. *)
Definition distances (refBoundaries hypBoundaries : list Q) : matrix :=
  (fun r : Q => (fun h : Q => Fin (Qabs (r - h))) <$> hypBoundaries)
    <$> refBoundaries.

(** Row [i] and column [j] set to [np.inf]. *)
Definition masked (i j : nat) (d : matrix) : matrix :=
  (fun row : list fl => <[j := Inf]> row)
    <$> alter (fun row : list fl => (fun _ => Inf) <$> row) i d.

(** The cell an iteration of the loop selects: the position [(i, j)]
    computed from [np.argmin], when the minimum is finite. *)
Definition selected (M : Z) (d : matrix) : option (nat * nat) :=
  match amin d, argmin d with
  | Ok h, Ok k =>
      if lt_inf h then Some (Z.to_nat (k / M), Z.to_nat (k mod M)) else None
  | _, _ => None
  end.

(** The cells selected by the successive iterations of the loop. *)
Fixpoint matched_cells (fuel : nat) (M : Z) (d : matrix) : list (nat * nat) :=
  match fuel with
  | O => []
  | S fuel' =>
      match selected M d with
      | None => []
      | Some (i, j) => (i, j) :: matched_cells fuel' M (masked i j d)
      end
  end.

(** The cells selected by [_get_details] on a pair of structures: those
    of the loop run on the masked distance matrix of their boundaries. *)
Definition matches (tolerance : Q) (reference hypothesis : structure)
  : list (nat * nat) :=
  let refBoundaries := boundaries (as_timeline reference) in
  let hypBoundaries := boundaries (as_timeline hypothesis) in
  matched_cells (S (length refBoundaries * length hypBoundaries))
    (Z.of_nat (length hypBoundaries))
    (mask_gt tolerance (distances refBoundaries hypBoundaries)).

(** Row-major order on positions: lowest row first, then lowest column. *)
Definition row_major_le (p q : nat * nat) : Prop :=
  fst p < fst q \/ (fst p = fst q /\ snd p <= snd q).

(** The words of the specification for the boundaries of a structure:
    all its interval endpoints, in increasing order and without
    repetition, except the very first start and the very last end. *)
Definition endpoints (t : Timeline) : list Q :=
  fold_left
    (fun acc s => insert_sorted (seg_end s) (insert_sorted (seg_start s) acc))
    t [].

Definition interior_endpoints (t : Timeline) : list Q :=
  but_last (tail (endpoints t)).

(** A chain of segments of positive duration, each starting where the
    previous one ends; [e] is the end of the previous segment. *)
Fixpoint chain (e : Q) (t : Timeline) : Prop :=
  match t with
  | [] => True
  | s :: t' =>
      (seg_start s == e)%Q /\ (seg_start s < seg_end s)%Q /\ chain (seg_end s) t'
  end.

(** A structure without gaps nor overlaps. *)
Definition contiguous (t : Timeline) : Prop :=
  match t with
  | [] => True
  | s :: t' => (seg_start s < seg_end s)%Q /\ chain (seg_end s) t'
  end.

(** Numerical equality of cells, of arrays and of timelines: Python
    compares numbers by value, whatever fraction represents them. *)
Definition fl_eq (x y : fl) : Prop :=
  match x, y with
  | Fin a, Fin b => (a == b)%Q
  | Inf, Inf => True
  | _, _ => False
  end.

Definition matrix_eq (d d' : matrix) : Prop := Forall2 (Forall2 fl_eq) d d'.

Definition seg_eq (s s' : Segment) : Prop :=
  (seg_start s == seg_start s')%Q /\ (seg_end s == seg_end s')%Q.

Definition same_input (x x' : structure) : Prop :=
  Forall2 seg_eq (as_timeline x) (as_timeline x').

(** A pair of positions whose boundaries are within the tolerance. *)
Definition within (tolerance : Q) (reference hypothesis : structure)
    (p : nat * nat) : Prop :=
  exists r h,
    boundaries (as_timeline reference) !! fst p = Some r
    /\ boundaries (as_timeline hypothesis) !! snd p = Some h
    /\ (Qabs (r - h) <= tolerance)%Q.

End Matcher.

(** * Specification-level notions for the gap filler *)

Module Filler.
Import Core.

(** [s in timeline]: some segment of the timeline equals [s]. *)
Definition seg_mem (s : Segment) (t : Timeline) : Prop :=
  Exists (fun x => seg_eqb s x = true) t.


(** An interval has its start before its end. *)
Definition valid (s : Segment) : Prop := (seg_start s <= seg_end s)%Q.

(** [x] lies inside of [c]. *)
Definition contains (c x : Segment) : Prop :=
  (seg_start c <= seg_start x)%Q /\ (seg_end x <= seg_end c)%Q.

(** A timeline iterates its segments by increasing start time. *)
Definition sorted_starts (t : Timeline) : Prop :=
  StronglySorted (fun a b => (seg_start a <= seg_start b)%Q) t.

(** Segments that follow each other without touching. *)
Definition separated (t : Timeline) : Prop :=
  StronglySorted (fun a b => (seg_end a < seg_start b)%Q) t.

(** The timestamp [p] lies in the segment [s], its ends included. *)
Definition inside (s : Segment) (p : Q) : Prop :=
  (seg_start s <= p <= seg_end s)%Q.

(** Some segment of the timeline holds the timestamp [p]. *)
Definition covers (t : Timeline) (p : Q) : Prop :=
  Exists (fun s => inside s p) t.

(** What one label of the reference contributes at the timestamp [p] once
    its gaps are filled: [p] lies in an interval that bears the label, or
    in a gap of the timeline of the label that is shorter than the
    tolerance. *)
Definition label_region (tolerance : Q) (reference : Annotation)
    (label : string) (p : Q) : Prop :=
  (exists s, (s, label) ∈ reference /\ inside s p)
  \/ (exists gap,
        gap ∈ gaps (label_timeline reference label)
        /\ (duration gap < tolerance)%Q /\ inside gap p).

End Filler.

(** * Examples of the documentation *)

Module Examples.
Import Core.

(** The reference and the two hypotheses of the docstrings of
    [SegmentationPrecision] and [SegmentationRecall]. *)
Definition reference : structure :=
  IsTimeline (of_segments [mkSegment 0 1; mkSegment 1 2; mkSegment 2 4]).

Definition hypothesis : structure :=
  IsTimeline
    (of_segments [mkSegment 0 1; mkSegment 1 2; mkSegment 2 3; mkSegment 3 4]).

Definition single : structure := IsTimeline (of_segments [mkSegment 0 4]).

(** The reference again, its timestamps written as other fractions. *)
Definition reference_alt : structure :=
  IsTimeline
    [mkSegment 0 (2 # 2); mkSegment (3 # 3) (4 # 2); mkSegment (6 # 3) (8 # 2)].

Definition empty : structure := IsTimeline [].

(** One label, two intervals separated by a gap of duration [0.2]. *)
Definition short_gap : Annotation :=
  [(mkSegment 0 1, "A"%string); (mkSegment (12 # 10) 2, "A"%string)].

(** One label, two intervals separated by a gap of duration [0.5]. *)
Definition half_gap : Annotation :=
  [(mkSegment 0 1, "A"%string); (mkSegment (3 # 2) 2, "A"%string)].

(** Two intervals of one label separated by a gap of duration [0.9], in
    which an interval of another label leaves two gaps of duration [0.4]. *)
Definition interleaved : Annotation :=
  [(mkSegment 0 1, "A"%string); (mkSegment (14 # 10) (15 # 10), "B"%string);
   (mkSegment (19 # 10) 3, "A"%string)].

(** A reference made of one label and a hypothesis made of two. *)
Definition one_label : Annotation :=
  [(mkSegment 0 1, "A"%string); (mkSegment 1 2, "A"%string)].

Definition two_labels : Annotation :=
  [(mkSegment 0 1, "B"%string); (mkSegment 1 2, "C"%string)].

(** The Detail Record of a coverage or a purity. *)
Definition cp_detail (total inter : Q) : Detail :=
  <[SegmentationCoverage.PTY_CVG_INTER := inter]>
    (<[SegmentationCoverage.PTY_CVG_TOTAL := total]>
       (init_details SegmentationCoverage.metric_components)).

(** Two segments separated by a gap. *)
Definition gapped : Timeline := of_segments [mkSegment 0 1; mkSegment 2 3].

(** An array with several cells holding the minimum [0]. *)
Definition ties : Numpy.matrix :=
  [[Numpy.Fin 1; Numpy.Fin 0; Numpy.Fin 0];
   [Numpy.Fin 0; Numpy.Fin 1; Numpy.Fin 0]].

(** The Detail Record of a precision or a recall. *)
Definition pr_detail (matches boundaries : Q) : Detail :=
  <[SegmentationPrecision.PR_MATCHES := matches]>
    (<[SegmentationPrecision.PR_BOUNDARIES := boundaries]>
       (init_details SegmentationPrecision.metric_components)).

End Examples.

(** * Specification-level notions for identical structures *)

Module Balance.
Import Core Numpy Matcher.

(** The boundaries at two positions of [b] hold the same value. *)
Definition same_value (b : list Q) (i j : nat) : Prop :=
  exists x y, b !! i = Some x /\ b !! j = Some y /\ (x == y)%Q.

(** The boundary at position [i] of [b] holds the value [x]. *)
Definition in_class (b : list Q) (x : Q) (i : nat) : bool :=
  match b !! i with
  | Some y => Qeq_bool x y
  | None => false
  end.

(** The array of a run on twice the same boundaries [b]: the rows [rows]
    and the columns [cols] are masked, and they pair up positions that hold
    the same value. *)
Definition balanced (tolerance : Q) (b : list Q) (rows cols : list nat)
    (d : matrix) : Prop :=
  shaped (length b) (length b) d
  /\ NoDup rows /\ NoDup cols
  /\ Forall2 (same_value b) rows cols
  /\ forall i j x y,
      b !! i = Some x -> b !! j = Some y ->
      cell d i j
      = Some (if decide (i ∈ rows \/ j ∈ cols) then Inf
              else mask_cell tolerance (Fin (Qabs (x - y)))).

End Balance.

(** * Proofs *)

Import Core Numpy SegmentationPrecision Matcher.

#[local] Set Warnings "-clear-no-such-hyp".

(** Rational arithmetic is kept folded by [simpl]. *)
#[local] Arguments Qabs _ : simpl never.
#[local] Arguments Qplus _ _ : simpl never.
#[local] Arguments Qminus _ _ : simpl never.
#[local] Arguments Qmult _ _ : simpl never.
#[local] Arguments Qdiv _ _ : simpl never.
#[local] Arguments Qmax _ _ : simpl never.
#[local] Arguments Qmin _ _ : simpl never.
#[local] Arguments inject_Z _ : simpl never.

(** ** The result monad *)

Lemma rbind_Ok {A B : Type} (r : result A) (k : A -> result B) (b : B) :
  rbind r k = Ok b -> exists a, r = Ok a /\ k a = Ok b.
Proof. destruct r as [a|e]; simpl; intros H; [eauto | discriminate]. Qed.

Ltac inv_result :=
  repeat match goal with
    | H : rbind _ _ = Ok _ |- _ =>
        let a := fresh "a" in
        let Ha := fresh "Ha" in
        apply rbind_Ok in H; destruct H as (a & Ha & H)
    | H : Ok _ = Ok _ |- _ => injection H as H
    | H : Raise _ = Ok _ |- _ => discriminate H
    | H : Ok _ = Raise _ |- _ => discriminate H
    | H : Some _ = Some _ |- _ => injection H as H
    end.

(** ** Order on cells *)

Lemma Qltb_lt (x y : Q) : Qltb x y = true <-> (x < y)%Q.
Proof.
  unfold Qltb. rewrite negb_true_iff. split.
  - intros H. apply Qnot_le_lt. intros Hle.
    apply Qle_bool_iff in Hle. congruence.
  - intros H. destruct (Qle_bool y x) eqn:E; [|reflexivity].
    apply Qle_bool_iff in E. apply Qlt_not_le in H. contradiction.
Qed.

Lemma Qltb_ge (x y : Q) : Qltb x y = false <-> (y <= x)%Q.
Proof.
  unfold Qltb. rewrite negb_false_iff. apply Qle_bool_iff.
Qed.

Lemma fl_ltb_irrefl (x : fl) : fl_ltb x x = false.
Proof. destruct x as [q|]; simpl; [|reflexivity]. apply Qltb_ge. lra. Qed.

Lemma fl_ltb_trans (x y z : fl) :
  fl_ltb x y = true -> fl_ltb y z = true -> fl_ltb x z = true.
Proof.
  destruct x, y, z; simpl; try congruence.
  rewrite !Qltb_lt. lra.
Qed.

Lemma fl_le_refl (x : fl) : fl_le x x.
Proof. apply fl_ltb_irrefl. Qed.

Lemma fl_le_trans (x y z : fl) : fl_le x y -> fl_le y z -> fl_le x z.
Proof.
  unfold fl_le. destruct x, y, z; simpl; try congruence.
  rewrite !Qltb_ge. lra.
Qed.

Lemma fl_lt_le_trans (x y z : fl) :
  fl_ltb x y = true -> fl_le y z -> fl_ltb x z = true.
Proof.
  unfold fl_le. destruct x, y, z; simpl; try congruence.
  rewrite !Qltb_lt, Qltb_ge. lra.
Qed.

Lemma fl_le_lt_trans (x y z : fl) :
  fl_le x y -> fl_ltb y z = true -> fl_ltb x z = true.
Proof.
  unfold fl_le. destruct x, y, z; simpl; try congruence.
  rewrite !Qltb_lt, Qltb_ge. lra.
Qed.

Lemma fl_lt_le (x y : fl) : fl_ltb x y = true -> fl_le x y.
Proof.
  unfold fl_le. destruct x, y; simpl; try congruence.
  rewrite Qltb_lt, Qltb_ge. lra.
Qed.

Lemma fl_le_total (x y : fl) : fl_le x y \/ fl_ltb y x = true.
Proof. unfold fl_le. destruct (fl_ltb y x); auto. Qed.

Lemma fl_le_Fin (a b : Q) : fl_le (Fin a) (Fin b) <-> (a <= b)%Q.
Proof. unfold fl_le. simpl. apply Qltb_ge. Qed.

Lemma fl_le_Inf (x : fl) : fl_le x Inf.
Proof. unfold fl_le. reflexivity. Qed.

Lemma lt_inf_Fin (x : fl) : lt_inf x = true <-> exists v, x = Fin v.
Proof.
  destruct x; simpl; split; eauto; try congruence. intros [v Hv]. discriminate.
Qed.

Lemma fl_le_lt_inf (x y : fl) : fl_le x y -> lt_inf y = true -> lt_inf x = true.
Proof. unfold fl_le. destruct x, y; simpl; congruence. Qed.

(** ** [np.amin] and [np.argmin] on the flattened array *)

Lemma fold_fl_min_spec (l : list fl) (x : fl) :
  let m := fold_left fl_min l x in
  m ∈ x :: l /\ forall y, y ∈ x :: l -> fl_le m y.
Proof.
  revert x. induction l as [|a l IH]; intros x; simpl.
  - split; [left|]. intros y Hy. apply list_elem_of_singleton in Hy as ->.
    apply fl_le_refl.
  - destruct (IH (fl_min x a)) as [Hin Hmin]. split.
    + apply elem_of_cons in Hin as [Hin|Hin].
      * rewrite Hin. unfold fl_min. destruct (fl_ltb a x); set_solver.
      * set_solver.
    + intros y Hy.
      assert (Hm : fl_le (fold_left fl_min l (fl_min x a)) (fl_min x a))
        by (apply Hmin; left).
      apply elem_of_cons in Hy as [->|Hy]; [|apply elem_of_cons in Hy as [->|Hy]].
      * eapply fl_le_trans; [exact Hm|]. unfold fl_min.
        destruct (fl_ltb a x) eqn:E; [by apply fl_lt_le | apply fl_le_refl].
      * eapply fl_le_trans; [exact Hm|]. unfold fl_min.
        destruct (fl_ltb a x) eqn:E; [apply fl_le_refl | exact E].
      * apply Hmin. by right.
Qed.

Lemma argmin_from_spec (l pre : list fl) (best : fl) (besti : nat) :
  (pre ++ l) !! besti = Some best ->
  besti < length pre ->
  (forall y, y ∈ pre -> fl_le best y) ->
  (forall k' y, k' < besti -> pre !! k' = Some y -> fl_ltb best y = true) ->
  first_min (pre ++ l) (argmin_from best besti (length pre) l).
Proof.
  revert pre best besti. induction l as [|x l IH]; intros pre best besti Hb Hlt Hmin Hfirst.
  - simpl. rewrite app_nil_r in *. exists best. split; [done|]. split; [done|].
    intros k' y Hk Hy. eauto.
  - simpl. replace (pre ++ x :: l) with ((pre ++ [x]) ++ l) in *
      by (by rewrite <- app_assoc).
    replace (S (length pre)) with (length (pre ++ [x]))
      by (rewrite length_app; simpl; lia).
    destruct (fl_ltb x best) eqn:E.
    + replace (length pre) with (length pre + 0) at 1 by lia.
      apply IH.
      * rewrite lookup_app_l by (rewrite length_app; simpl; lia).
        replace (length pre + 0) with (length pre) by lia.
        by rewrite list_lookup_middle.
      * rewrite length_app; simpl; lia.
      * intros y Hy. apply elem_of_app in Hy as [Hy|Hy].
        -- apply fl_lt_le. eapply fl_lt_le_trans; eauto.
        -- apply list_elem_of_singleton in Hy as ->. apply fl_le_refl.
      * intros k' y Hk Hy. rewrite lookup_app_l in Hy by lia.
        eapply fl_lt_le_trans; [exact E|]. apply Hmin.
        by eapply list_elem_of_lookup_2.
    + apply IH.
      * exact Hb.
      * rewrite length_app; simpl; lia.
      * intros y Hy. apply elem_of_app in Hy as [Hy|Hy]; [by apply Hmin|].
        apply list_elem_of_singleton in Hy as ->. exact E.
      * intros k' y Hk Hy. rewrite lookup_app_l in Hy by lia. eauto.
Qed.

Lemma amin_spec (d : matrix) (h : fl) :
  amin d = Ok h -> h ∈ ravel d /\ forall y, y ∈ ravel d -> fl_le h y.
Proof.
  unfold amin. destruct (ravel d) as [|x l] eqn:E; [discriminate|].
  intros [= <-]. apply fold_fl_min_spec.
Qed.

Lemma argmin_spec (d : matrix) (k : Z) :
  argmin d = Ok k -> exists kn, k = Z.of_nat kn /\ first_min (ravel d) kn.
Proof.
  unfold argmin. destruct (ravel d) as [|x l] eqn:E; [discriminate|].
  intros [= <-]. eexists; split; [reflexivity|].
  apply (argmin_from_spec l [x] x 0); simpl; [done | lia | |lia].
  intros y Hy. apply list_elem_of_singleton in Hy as ->. apply fl_le_refl.
Qed.

Lemma amin_is_Ok (d : matrix) : ravel d <> [] -> exists h, amin d = Ok h.
Proof. unfold amin. destruct (ravel d); [done | eauto]. Qed.

Lemma argmin_is_Ok (d : matrix) : ravel d <> [] -> exists k, argmin d = Ok k.
Proof. unfold argmin. destruct (ravel d); [done | eauto]. Qed.

Lemma first_min_unique (L : list fl) (k1 k2 : nat) :
  first_min L k1 -> first_min L k2 -> k1 = k2.
Proof.
  intros (x1 & Hx1 & Hmin1 & Hf1) (x2 & Hx2 & Hmin2 & Hf2).
  destruct (Nat.lt_trichotomy k1 k2) as [Hlt|[Heq|Hgt]]; [|done|].
  - specialize (Hf2 _ _ Hlt Hx1).
    assert (Hle : fl_le x1 x2) by (apply Hmin1; by eapply list_elem_of_lookup_2).
    unfold fl_le in Hle. congruence.
  - specialize (Hf1 _ _ Hgt Hx2).
    assert (Hle : fl_le x2 x1) by (apply Hmin2; by eapply list_elem_of_lookup_2).
    unfold fl_le in Hle. congruence.
Qed.

(** ** Shapes and row-major indexing *)

Lemma shaped_cons (n m : nat) (row : list fl) (d : matrix) :
  shaped (S n) m (row :: d) <-> length row = m /\ shaped n m d.
Proof.
  unfold shaped. simpl. rewrite Forall_cons. naive_solver.
Qed.

Lemma shaped_lookup (n m : nat) (d : matrix) (i : nat) (row : list fl) :
  shaped n m d -> d !! i = Some row -> length row = m.
Proof.
  intros [_ H] Hrow. rewrite Forall_lookup in H. eauto.
Qed.

Lemma length_ravel (n m : nat) (d : matrix) :
  shaped n m d -> length (ravel d) = n * m.
Proof.
  revert n. induction d as [|row d IH]; intros n [Hn Hrows]; simpl in *.
  - subst. reflexivity.
  - subst n. apply Forall_cons in Hrows as [Hrow Hrows].
    unfold ravel in *. simpl. rewrite length_app, (IH (length d)), Hrow; [lia|].
    by split.
Qed.

Lemma ravel_lookup (n m : nat) (d : matrix) (k : nat) :
  shaped n m d -> 0 < m -> ravel d !! k = cell d (k / m) (k mod m).
Proof.
  intros Hs Hm. revert n k Hs.
  induction d as [|row d IH]; intros n k [Hn Hrows]; unfold ravel, cell in *; simpl.
  - by rewrite lookup_nil.
  - apply Forall_cons in Hrows as [Hrow Hrows].
    destruct (decide (k < m)) as [Hk|Hk].
    + rewrite lookup_app_l by lia.
      rewrite Nat.div_small, Nat.mod_small by lia. reflexivity.
    + rewrite lookup_app_r by lia. rewrite Hrow.
      rewrite (IH (length d)) by (by split).
      assert (Hdiv : k / m = S ((k - m) / m)).
      { replace k with ((k - m) + 1 * m) at 1 by lia.
        rewrite Nat.div_add by lia. lia. }
      assert (Hmod : k mod m = (k - m) mod m).
      { replace k with ((k - m) + 1 * m) at 1 by lia.
        by rewrite Nat.Div0.mod_add. }
      rewrite Hdiv, Hmod. reflexivity.
Qed.

Lemma cell_ravel (n m : nat) (d : matrix) (i j : nat) (x : fl) :
  shaped n m d -> cell d i j = Some x ->
  j < m /\ i < n /\ ravel d !! (i * m + j) = Some x.
Proof.
  intros Hs Hc. unfold cell in Hc.
  destruct (d !! i) as [row|] eqn:Hrow; [|discriminate].
  assert (Hlen : length row = m) by (by eapply shaped_lookup).
  assert (Hj : j < m) by (rewrite <- Hlen; by eapply lookup_lt_Some).
  assert (Hi : i < n) by (destruct Hs as [<- _]; by eapply lookup_lt_Some).
  split; [done|]. split; [done|].
  rewrite (ravel_lookup n m) by (done || lia).
  rewrite Nat.div_add_l, Nat.div_small, Nat.add_0_r by lia.
  rewrite Nat.add_comm, Nat.Div0.mod_add, Nat.mod_small by lia.
  unfold cell. by rewrite Hrow.
Qed.

Lemma cell_bounds (n m : nat) (d : matrix) (i j : nat) :
  shaped n m d -> is_Some (cell d i j) <-> i < n /\ j < m.
Proof.
  intros Hs. unfold cell. split.
  - intros [x Hx]. destruct (d !! i) as [row|] eqn:Hrow; [|discriminate].
    split.
    + destruct Hs as [<- _]. by eapply lookup_lt_Some.
    + erewrite <- (shaped_lookup n m d i row) by done. by eapply lookup_lt_Some.
  - intros [Hi Hj]. destruct Hs as [Hn Hrows].
    destruct (lookup_lt_is_Some_2 d i) as [row Hrow]; [lia|].
    rewrite Hrow. apply lookup_lt_is_Some_2.
    rewrite Forall_lookup in Hrows. erewrite Hrows by done. done.
Qed.

Lemma ravel_nonempty (n m : nat) (d : matrix) :
  shaped n m d -> ravel d <> [] <-> 0 < n /\ 0 < m.
Proof.
  intros Hs. pose proof (length_ravel n m d Hs) as Hlen.
  destruct (ravel d) eqn:E; simpl in Hlen.
  - split; [done|]. intros [? ?]. nia.
  - split; [|done]. intros _. nia.
Qed.

Lemma ncols_shaped (n m : nat) (d : matrix) :
  shaped n m d -> 0 < n -> ncols d = m.
Proof.
  intros [Hn Hrows] Hpos. destruct d as [|row d]; simpl in *; [lia|].
  by apply Forall_cons in Hrows as [? _].
Qed.

(** ** Masking a row and a column *)

Lemma index_in_range (i n : nat) :
  i < n -> index (Z.of_nat i) n = Ok i.
Proof.
  intros Hi. unfold index.
  destruct (Z.ltb_spec (Z.of_nat i) 0); [lia|].
  destruct (Z.leb_spec 0 (Z.of_nat i)); [|lia].
  destruct (Z.ltb_spec (Z.of_nat i) (Z.of_nat n)); [|lia].
  simpl. by rewrite Nat2Z.id.
Qed.

Lemma shaped_masked (n m : nat) (d : matrix) (i j : nat) :
  shaped n m d -> shaped n m (masked i j d).
Proof.
  intros [Hn Hrows]. unfold masked. split.
  - by rewrite length_fmap, length_alter.
  - rewrite Forall_fmap. apply Forall_lookup. intros r row Hrow. simpl.
    rewrite length_insert. rewrite Forall_lookup in Hrows.
    destruct (decide (i = r)) as [->|Hne].
    + rewrite list_lookup_alter_eq in Hrow.
      destruct (d !! r) as [row0|] eqn:E; simpl in Hrow; [|discriminate].
      injection Hrow as <-. rewrite length_fmap. eauto.
    + rewrite list_lookup_alter_ne in Hrow by done. eauto.
Qed.

Lemma cell_masked (n m : nat) (d : matrix) (i j i' j' : nat) (v : Q) :
  shaped n m d ->
  cell (masked i j d) i' j' = Some (Fin v) <->
  cell d i' j' = Some (Fin v) /\ i' <> i /\ j' <> j.
Proof.
  intros Hs. unfold cell, masked. rewrite list_lookup_fmap.
  destruct (decide (i = i')) as [->|Hi].
  - rewrite list_lookup_alter_eq. destruct (d !! i') as [row|]; simpl.
    + split; [|naive_solver]. intros H.
      destruct (decide (j = j')) as [->|Hj].
      * apply list_lookup_insert_Some in H as [(_ & ? & _)|[? _]]; done.
      * rewrite list_lookup_insert_ne, list_lookup_fmap in H by done.
        destruct (row !! j'); simpl in H; discriminate.
    + naive_solver.
  - rewrite list_lookup_alter_ne by done. destruct (d !! i') as [row|]; simpl.
    + destruct (decide (j = j')) as [->|Hj].
      * split; [|naive_solver]. intros H.
        apply list_lookup_insert_Some in H as [(_ & ? & _)|[? _]]; done.
      * rewrite list_lookup_insert_ne by done. naive_solver.
    + naive_solver.
Qed.

Lemma shaped_alter_row (n m : nat) (d : matrix) (i : nat) :
  shaped n m d ->
  shaped n m (alter (fun row : list fl => (fun _ => Inf) <$> row) i d).
Proof.
  intros [Hn Hrows]. split; [by rewrite length_alter|].
  apply Forall_lookup. intros r row Hrow. rewrite Forall_lookup in Hrows.
  destruct (decide (i = r)) as [->|Hne].
  - rewrite list_lookup_alter_eq in Hrow.
    destruct (d !! r) as [row0|] eqn:E; simpl in Hrow; [|discriminate].
    injection Hrow as <-. rewrite length_fmap. eauto.
  - rewrite list_lookup_alter_ne in Hrow by done. eauto.
Qed.

Lemma set_row_inf_ok (n m : nat) (d : matrix) (i : nat) :
  shaped n m d -> i < n ->
  set_row_inf (Z.of_nat i) d
  = Ok (alter (fun row : list fl => (fun _ => Inf) <$> row) i d).
Proof.
  intros [Hn _] Hi. unfold set_row_inf. rewrite index_in_range by lia.
  reflexivity.
Qed.

Lemma set_col_inf_ok (n m : nat) (d : matrix) (j : nat) :
  shaped n m d -> 0 < n -> j < m ->
  set_col_inf (Z.of_nat j) d = Ok ((fun row : list fl => <[j := Inf]> row) <$> d).
Proof.
  intros Hs Hn Hj. unfold set_col_inf.
  rewrite (ncols_shaped n m) by done. rewrite index_in_range by lia.
  reflexivity.
Qed.

(** ** One iteration of the loop *)

Lemma flat_index (m k : nat) :
  0 < m ->
  (Z.to_nat (Z.of_nat k / Z.of_nat m), Z.to_nat (Z.of_nat k mod Z.of_nat m))
  = (k / m, k mod m).
Proof.
  intros Hm. rewrite <- Nat2Z.inj_div, <- Nat2Z.inj_mod, !Nat2Z.id. reflexivity.
Qed.

Lemma selected_Some (n m : nat) (d : matrix) (i j : nat) :
  shaped n m d ->
  selected (Z.of_nat m) d = Some (i, j) ->
  exists k v, first_min (ravel d) k /\ i = k / m /\ j = k mod m
    /\ 0 < m /\ i < n /\ j < m /\ cell d i j = Some (Fin v).
Proof.
  intros Hs. unfold selected.
  destruct (amin d) as [h|] eqn:Hh; [|discriminate].
  destruct (argmin d) as [k|] eqn:Hk; [|discriminate].
  destruct (lt_inf h) eqn:Hfin; [|discriminate].
  apply argmin_spec in Hk as (kn & -> & Hfirst).
  apply amin_spec in Hh as [Hin Hmin].
  assert (Hne : ravel d <> []) by (intros E; rewrite E in Hin; by apply elem_of_nil in Hin).
  apply (ravel_nonempty n m) in Hne as [Hn Hm]; [|done].
  rewrite flat_index by done. intros [= <- <-].
  pose proof Hfirst as (x & Hx & Hxmin & _).
  assert (Hxfin : lt_inf x = true).
  { eapply fl_le_lt_inf; [apply Hxmin, Hin | done]. }
  apply lt_inf_Fin in Hxfin as [v ->].
  rewrite (ravel_lookup n m) in Hx by done.
  assert (Hb : kn / m < n /\ kn mod m < m)
    by (apply (cell_bounds n m d); [done | by eexists]).
  exists kn, v. naive_solver.
Qed.

Lemma selected_None (n m : nat) (d : matrix) :
  shaped n m d -> 0 < n -> 0 < m ->
  selected (Z.of_nat m) d = None <-> finite_cells d = 0.
Proof.
  intros Hs Hn Hm. unfold selected, finite_cells.
  assert (Hne : ravel d <> []) by (by apply (ravel_nonempty n m)).
  destruct (amin_is_Ok d Hne) as [h Hh]. destruct (argmin_is_Ok d Hne) as [k Hk].
  rewrite Hh, Hk. apply amin_spec in Hh as [Hin Hmin].
  destruct (lt_inf h) eqn:Hfin.
  - split; [done|]. intros Hlen. apply length_zero_iff_nil in Hlen.
    assert (Hf : h ∈ filter (fun x => lt_inf x = true) (ravel d))
      by (by apply list_elem_of_filter).
    rewrite Hlen in Hf. by apply elem_of_nil in Hf.
  - split; [|done]. intros _.
    destruct (filter (fun x => lt_inf x = true) (ravel d)) as [|y l] eqn:E; [done|].
    assert (Hy : y ∈ filter (fun x => lt_inf x = true) (ravel d))
      by (rewrite E; left).
    apply list_elem_of_filter in Hy as [Hyfin Hy].
    pose proof (fl_le_lt_inf _ _ (Hmin y Hy) Hyfin). congruence.
Qed.

Lemma loop_step_selected (n m : nat) (st : state) :
  shaped n m (delta st) -> 0 < n -> 0 < m ->
  loop_step (Z.of_nat m) st
  = Ok (match selected (Z.of_nat m) (delta st) with
        | Some (i, j) => Some (mkState (masked i j (delta st)) (nMatches st + 1)%Q)
        | None => None
        end).
Proof.
  intros Hs Hn Hm.
  destruct (selected (Z.of_nat m) (delta st)) as [[i j]|] eqn:Hsel.
  - destruct (selected_Some n m _ i j Hs Hsel) as (k & v & Hfirst & -> & -> & _ & Hi & Hj & _).
    unfold selected in Hsel. unfold loop_step.
    destruct (amin (delta st)) as [h|]; [|discriminate].
    destruct (argmin (delta st)) as [kz|] eqn:Hk; [|discriminate]. simpl.
    destruct (lt_inf h); [|discriminate]. simpl.
    clear Hsel.
    apply argmin_spec in Hk as (kn & -> & Hfirst').
    assert (kn = k) as -> by (by eapply first_min_unique).
    rewrite <- Nat2Z.inj_div, <- Nat2Z.inj_mod.
    rewrite (set_row_inf_ok n m) by done. simpl.
    rewrite (set_col_inf_ok n m) by (done || by apply shaped_alter_row).
    reflexivity.
  - unfold selected in Hsel. unfold loop_step.
    assert (Hne : ravel (delta st) <> []) by (by apply (ravel_nonempty n m)).
    destruct (amin_is_Ok _ Hne) as [h Hh]. destruct (argmin_is_Ok _ Hne) as [k Hk].
    rewrite Hh, Hk in Hsel. rewrite Hh. simpl.
    destruct (lt_inf h); [discriminate | reflexivity].
Qed.

Lemma loop_step_empty (n m : nat) (st : state) :
  shaped n m (delta st) -> n = 0 \/ m = 0 ->
  loop_step (Z.of_nat m) st = Raise ValueError.
Proof.
  intros Hs Hz. unfold loop_step, amin.
  destruct (ravel (delta st)) eqn:E; [reflexivity|].
  assert (Hne : ravel (delta st) <> []) by (rewrite E; done).
  apply (ravel_nonempty n m) in Hne; [lia | done].
Qed.

(** The selected cell holds a finite value that is minimal in the array,
    and it is the first such cell in row-major order. *)
Lemma selected_min_first (n m : nat) (d : matrix) (i j : nat) :
  shaped n m d ->
  selected (Z.of_nat m) d = Some (i, j) ->
  exists v,
    cell d i j = Some (Fin v)
    /\ (forall i' j' y, cell d i' j' = Some y -> fl_le (Fin v) y)
    /\ (forall i' j' y, cell d i' j' = Some y -> fl_le y (Fin v) ->
        row_major_le (i, j) (i', j')).
Proof.
  intros Hs Hsel.
  destruct (selected_Some n m d i j Hs Hsel)
    as (k & v & (x & Hx & Hmin & Hfirst) & -> & -> & Hm & Hi & Hj & Hc).
  rewrite (ravel_lookup n m) in Hx by done.
  assert (x = Fin v) as -> by congruence.
  exists v. split; [done|]. split.
  - intros i' j' y Hy. apply (cell_ravel n m) in Hy as (_ & _ & Hy); [|done].
    apply Hmin. by eapply list_elem_of_lookup_2.
  - intros i' j' y Hy Hle. apply (cell_ravel n m) in Hy as (Hj' & Hi' & Hy); [|done].
    assert (Hk : k <= i' * m + j').
    { destruct (decide (i' * m + j' < k)) as [Hlt|]; [|lia].
      specialize (Hfirst _ _ Hlt Hy). unfold fl_le in Hle. congruence. }
    unfold row_major_le. simpl.
    assert (Hdiv : k / m <= i').
    { replace i' with ((i' * m + j') / m).
      - by apply Nat.Div0.div_le_mono.
      - rewrite Nat.div_add_l, Nat.div_small by lia. lia. }
    destruct (decide (k / m < i')) as [|Hge]; [by left|]. right.
    split; [lia|].
    pose proof (Nat.div_mod_eq k m). nia.
Qed.

(** ** The number of finite cells decreases *)

Lemma finite_cells_cons (row : list fl) (d : matrix) :
  finite_cells (row :: d)
  = length (filter (fun x => lt_inf x = true) row) + finite_cells d.
Proof.
  unfold finite_cells, ravel. simpl. by rewrite filter_app, length_app.
Qed.

Lemma count_insert_Inf (row : list fl) (j : nat) :
  length (filter (fun x => lt_inf x = true) (<[j := Inf]> row))
  <= length (filter (fun x => lt_inf x = true) row).
Proof.
  revert j. induction row as [|x row IH]; intros [|j]; simpl; try lia.
  - rewrite !filter_cons. simpl.
    destruct (decide (lt_inf x = true)); simpl; [lia|].
    destruct (decide (false = true)); [done | lia].
  - rewrite !filter_cons. specialize (IH j).
    destruct (decide (lt_inf x = true)); simpl; lia.
Qed.

Lemma finite_cells_set_col (d : matrix) (j : nat) :
  finite_cells ((fun row : list fl => <[j := Inf]> row) <$> d) <= finite_cells d.
Proof.
  induction d as [|row d IH]; [done|].
  rewrite fmap_cons, !finite_cells_cons.
  pose proof (count_insert_Inf row j). lia.
Qed.

Lemma count_all_Inf (row : list fl) :
  length (filter (fun x => lt_inf x = true) ((fun _ => Inf) <$> row)) = 0.
Proof.
  induction row as [|x row IH]; [done|].
  rewrite fmap_cons, filter_cons. simpl.
  destruct (decide (false = true)); [done | exact IH].
Qed.

Lemma count_finite_pos (row : list fl) (j : nat) (v : Q) :
  row !! j = Some (Fin v) ->
  0 < length (filter (fun x => lt_inf x = true) row).
Proof.
  intros Hj.
  assert (Hin : Fin v ∈ filter (fun x => lt_inf x = true) row).
  { apply list_elem_of_filter. split; [done|]. by eapply list_elem_of_lookup_2. }
  destruct (filter (fun x => lt_inf x = true) row); [|simpl; lia].
  by apply elem_of_nil in Hin.
Qed.

Lemma masked_0 (row : list fl) (d : matrix) (j : nat) :
  masked 0 j (row :: d)
  = <[j := Inf]> ((fun _ => Inf) <$> row)
      :: ((fun row : list fl => <[j := Inf]> row) <$> d).
Proof. reflexivity. Qed.

Lemma masked_S (row : list fl) (d : matrix) (i j : nat) :
  masked (S i) j (row :: d) = <[j := Inf]> row :: masked i j d.
Proof. reflexivity. Qed.

Lemma finite_cells_masked (d : matrix) (i j : nat) (v : Q) :
  cell d i j = Some (Fin v) ->
  finite_cells (masked i j d) < finite_cells d.
Proof.
  unfold cell. revert i.
  induction d as [|row d IH]; intros [|i] Hc; simpl in Hc; try discriminate.
  - rewrite masked_0, !finite_cells_cons.
    pose proof (count_insert_Inf ((fun _ => Inf) <$> row) j) as H1.
    rewrite count_all_Inf in H1.
    pose proof (count_finite_pos row j v Hc).
    pose proof (finite_cells_set_col d j).
    lia.
  - rewrite masked_S, !finite_cells_cons.
    pose proof (count_insert_Inf row j).
    specialize (IH i Hc).
    lia.
Qed.

(** ** The cells selected along a run *)

Lemma matched_cells_spec (n m : nat) (fuel : nat) (d : matrix) :
  shaped n m d ->
  Forall (fun p : nat * nat => exists v, cell d (fst p) (snd p) = Some (Fin v))
    (matched_cells fuel (Z.of_nat m) d)
  /\ NoDup (fst <$> matched_cells fuel (Z.of_nat m) d)
  /\ NoDup (snd <$> matched_cells fuel (Z.of_nat m) d).
Proof.
  revert d. induction fuel as [|fuel IH]; intros d Hs; simpl.
  - repeat split; constructor.
  - destruct (selected (Z.of_nat m) d) as [[i j]|] eqn:Hsel.
    + destruct (selected_Some n m d i j Hs Hsel) as (k & v & _ & _ & _ & _ & _ & _ & Hc).
      destruct (IH (masked i j d) (shaped_masked n m d i j Hs)) as (Hall & Hr & Hcl).
      assert (Hall' : Forall (fun p : nat * nat =>
                  (exists v, cell d (fst p) (snd p) = Some (Fin v))
                  /\ fst p <> i /\ snd p <> j)
                (matched_cells fuel (Z.of_nat m) (masked i j d))).
      { eapply Forall_impl; [exact Hall|]. intros [i' j'] [v' Hv']. simpl in *.
        apply (cell_masked n m) in Hv'; [|done]. naive_solver. }
      rewrite !fmap_cons. simpl. split; [|split].
      * constructor; [by exists v|]. eapply Forall_impl; [exact Hall'|].
        naive_solver.
      * constructor; [|done]. intros Hin.
        apply list_elem_of_fmap in Hin as ([i' j'] & Hi' & Hin). simpl in Hi'. subst i'.
        rewrite Forall_forall in Hall'. apply Hall' in Hin. simpl in Hin. naive_solver.
      * constructor; [|done]. intros Hin.
        apply list_elem_of_fmap in Hin as ([i' j'] & Hj' & Hin). simpl in Hj'. subst j'.
        rewrite Forall_forall in Hall'. apply Hall' in Hin. simpl in Hin. naive_solver.
    + repeat split; constructor.
Qed.

Lemma NoDup_bounded_length (l : list nat) (n : nat) :
  NoDup l -> Forall (fun x => x < n) l -> length l <= n.
Proof.
  intros Hnd Hall.
  assert (Hseq : length (seq 0 n) = n) by apply length_seq.
  rewrite <- Hseq. apply submseteq_length, NoDup_submseteq; [done|].
  intros x Hx. rewrite Forall_forall in Hall. apply elem_of_seq.
  specialize (Hall x Hx). lia.
Qed.

Lemma matched_cells_length (n m : nat) (fuel : nat) (d : matrix) :
  shaped n m d ->
  length (matched_cells fuel (Z.of_nat m) d) <= Nat.min n m.
Proof.
  intros Hs.
  destruct (matched_cells_spec n m fuel d Hs) as (Hall & Hr & Hc).
  assert (Hb : Forall (fun p : nat * nat => fst p < n /\ snd p < m)
                 (matched_cells fuel (Z.of_nat m) d)).
  { eapply Forall_impl; [exact Hall|]. intros [i j] [v Hv]. simpl in *.
    apply (cell_bounds n m d); [done | by eexists]. }
  apply Nat.min_glb.
  - rewrite <- (length_fmap fst). apply NoDup_bounded_length; [done|].
    rewrite Forall_fmap. eapply Forall_impl; [exact Hb|]. naive_solver.
  - rewrite <- (length_fmap snd). apply NoDup_bounded_length; [done|].
    rewrite Forall_fmap. eapply Forall_impl; [exact Hb|]. naive_solver.
Qed.

(** ** The loop *)

Lemma Qplus_inject_Z_1 (c : Z) : (inject_Z c + 1)%Q = inject_Z (c + 1).
Proof. unfold Qplus, inject_Z. cbn. f_equal. lia. Qed.

Lemma while_loop_matched (n m : nat) (fuel : nat) (d : matrix) (c : Z) :
  shaped n m d -> 0 < n -> 0 < m ->
  length (matched_cells fuel (Z.of_nat m) d) < fuel ->
  exists d',
    while_loop fuel (Z.of_nat m) (mkState d (inject_Z c))
    = Some (Ok (mkState d'
        (inject_Z (c + Z.of_nat (length (matched_cells fuel (Z.of_nat m) d))))))
    /\ shaped n m d' /\ finite_cells d' = 0.
Proof.
  intros Hs Hn Hm. revert d c Hs.
  induction fuel as [|fuel IH]; intros d c Hs Hlen; simpl in *; [lia|].
  rewrite (loop_step_selected n m) by done. simpl.
  destruct (selected (Z.of_nat m) d) as [[i j]|] eqn:Hsel; simpl in *.
  - rewrite Qplus_inject_Z_1.
    destruct (IH (masked i j d) (c + 1)%Z) as (d' & Hrun & Hs' & Hfin).
    + by apply shaped_masked.
    + lia.
    + exists d'. rewrite Hrun. split; [|done]. do 4 f_equal. lia.
  - exists d. rewrite Z.add_0_r. split; [done|]. split; [done|].
    by apply (selected_None n m).
Qed.

(** ** Building the distance matrix *)

Lemma shaped_distances (refB hypB : list Q) :
  shaped (length refB) (length hypB) (distances refB hypB).
Proof.
  unfold distances. split; [by rewrite length_fmap|].
  rewrite Forall_fmap. apply Forall_forall. intros r _. simpl.
  by rewrite length_fmap.
Qed.

Lemma shaped_mask_gt (n m : nat) (tolerance : Q) (d : matrix) :
  shaped n m d -> shaped n m (mask_gt tolerance d).
Proof.
  intros [Hn Hrows]. unfold mask_gt. split; [by rewrite length_fmap|].
  rewrite Forall_fmap. eapply Forall_impl; [exact Hrows|].
  intros row Hrow. simpl. by rewrite length_fmap.
Qed.

Lemma cell_distances (refB hypB : list Q) (i j : nat) :
  cell (distances refB hypB) i j
  = match refB !! i, hypB !! j with
    | Some r, Some h => Some (Fin (Qabs (r - h)))
    | _, _ => None
    end.
Proof.
  unfold cell, distances. rewrite list_lookup_fmap.
  destruct (refB !! i) as [r|]; simpl; [|done].
  rewrite list_lookup_fmap. by destruct (hypB !! j).
Qed.

Lemma cell_mask_gt (tolerance : Q) (d : matrix) (i j : nat) :
  cell (mask_gt tolerance d) i j = mask_cell tolerance <$> cell d i j.
Proof.
  unfold cell, mask_gt. rewrite list_lookup_fmap.
  destruct (d !! i) as [row|]; simpl; [|done].
  by rewrite list_lookup_fmap.
Qed.

Lemma mask_cell_Fin (tolerance : Q) (x : fl) (v : Q) :
  mask_cell tolerance x = Fin v <-> x = Fin v /\ (v <= tolerance)%Q.
Proof.
  unfold mask_cell. destruct x as [q|]; simpl.
  - destruct (Qltb tolerance q) eqn:E.
    + apply Qltb_lt in E. split; [done|]. intros [[= ->] Hle]. lra.
    + apply Qltb_ge in E. split; [intros [= ->]; done | naive_solver].
  - naive_solver.
Qed.

(** The inner [for] loop writes row [r], cell after cell. *)
Lemma fill_row (f : Q -> fl) (r : nat) (l : list Q) (k : nat) (d : matrix)
    (row : list fl) :
  d !! r = Some row -> length row = k + length l ->
  for_each (fun '(h, hypBoundary) delta => setitem r h (f hypBoundary) delta)
    (imap (fun i x => (k + i, x)) l) d
  = Ok (<[r := take k row ++ (f <$> l)]> d).
Proof.
  revert k d row. induction l as [|x l IH]; intros k d row Hrow Hlen; simpl in *.
  - rewrite app_nil_r, firstn_all2 by lia. by rewrite list_insert_id.
  - unfold setitem at 1. rewrite Nat.add_0_r, Hrow.
    destruct (decide (k < length row)) as [Hk|]; [|lia]. simpl.
    assert (Hr : r < length d) by (by eapply lookup_lt_Some).
    rewrite (imap_ext _ (fun i x => (S k + i, x))) by (intros; simpl; f_equal; lia).
    rewrite (IH (S k) _ (<[k := f x]> row)).
    + rewrite list_insert_insert_eq. f_equal. f_equal.
      rewrite (take_S_r _ _ (f x)) by (by apply list_lookup_insert_eq).
      rewrite take_insert_ge by lia. by rewrite <- app_assoc.
    + by apply list_lookup_insert_eq.
    + rewrite length_insert. lia.
Qed.

(** The outer [for] loop writes the rows one after the other. *)
Lemma fill_rows (hypB : list Q) (l : list Q) (k : nat) (d : matrix) :
  length d = k + length l ->
  Forall (fun row : list fl => length row = length hypB) d ->
  for_each
    (fun '(r, refBoundary) delta =>
       for_each
         (fun '(h, hypBoundary) delta =>
            setitem r h (Fin (Qabs (refBoundary - hypBoundary))) delta)
         (enumerate hypB) delta)
    (imap (fun i x => (k + i, x)) l) d
  = Ok (take k d ++ distances l hypB).
Proof.
  revert k d. induction l as [|x l IH]; intros k d Hlen Hrows; simpl in *.
  - rewrite app_nil_r, firstn_all2 by lia. done.
  - rewrite Nat.add_0_r.
    destruct (lookup_lt_is_Some_2 d k) as [row Hrow]; [lia|].
    assert (Hrowlen : length row = length hypB).
    { rewrite Forall_lookup in Hrows. eauto. }
    unfold enumerate.
    pose proof (fill_row (fun h => Fin (Qabs (x - h))) k hypB 0 d row Hrow Hrowlen)
      as Hfill.
    simpl in Hfill. rewrite Hfill. simpl.
    rewrite (imap_ext ((fun i (x : Q) => (k + i, x)) ∘ S) (fun i x => (S k + i, x)) l)
      by (intros; simpl; f_equal; lia).
    rewrite IH.
    + f_equal.
      rewrite (take_S_r _ _ ((fun h => Fin (Qabs (x - h))) <$> hypB))
        by (apply list_lookup_insert_eq; lia).
      rewrite take_insert_ge by lia. by rewrite <- app_assoc.
    + rewrite length_insert. lia.
    + apply Forall_insert; [done|]. by rewrite length_fmap.
Qed.

Lemma zeros_ok (n m : nat) :
  zeros (Z.of_nat n) (Z.of_nat m) = Ok (replicate n (replicate m (Fin 0))).
Proof.
  unfold zeros.
  destruct (Z.ltb_spec (Z.of_nat n) 0); [lia|].
  destruct (Z.ltb_spec (Z.of_nat m) 0); [lia|]. simpl.
  by rewrite !Nat2Z.id.
Qed.

Lemma fill_delta_distances (refB hypB : list Q) :
  fill_delta refB hypB (replicate (length refB) (replicate (length hypB) (Fin 0)))
  = Ok (distances refB hypB).
Proof.
  unfold fill_delta, enumerate.
  pose proof (fill_rows hypB refB 0
                (replicate (length refB) (replicate (length hypB) (Fin 0)))) as Hfill.
  simpl in Hfill. apply Hfill.
  - by rewrite length_replicate.
  - apply Forall_replicate. by rewrite length_replicate.
Qed.

Lemma zeros_negative (N M : Z) :
  (N < 0 \/ M < 0)%Z -> zeros N M = Raise ValueError.
Proof.
  intros H. unfold zeros.
  destruct (Z.ltb_spec N 0); [done|]. destruct (Z.ltb_spec M 0); [done|]. lia.
Qed.

Lemma length_boundaries (t : Timeline) : length (boundaries t) = length t - 1.
Proof.
  unfold boundaries, but_last. rewrite <- (length_fmap seg_end t).
  induction (seg_end <$> t) as [|x l IH]; [done|].
  destruct l as [|y l]; [done|].
  change (removelast (x :: y :: l)) with (x :: removelast (y :: l)).
  simpl length in *. lia.
Qed.

(** ** [_get_details] in terms of the selected cells *)

Lemma matches_length (tolerance : Q) (reference hypothesis : structure) :
  length (matches tolerance reference hypothesis)
  <= Nat.min (length (boundaries (as_timeline reference)))
       (length (boundaries (as_timeline hypothesis))).
Proof.
  unfold matches. apply matched_cells_length.
  apply shaped_mask_gt, shaped_distances.
Qed.

Lemma get_details_general (tolerance : Q) (reference hypothesis : structure) :
  2 <= length (as_timeline reference) ->
  2 <= length (as_timeline hypothesis) ->
  _get_details tolerance reference hypothesis
  = Some (Ok (<[PR_MATCHES :=
                  inject_Z (Z.of_nat (length (matches tolerance reference hypothesis)))]>
                (<[PR_BOUNDARIES :=
                     inject_Z (Z.of_nat (length (as_timeline hypothesis)) - 1)]>
                   (init_details metric_components)))).
Proof.
  intros Hr Hh. unfold _get_details.
  pose proof (length_boundaries (as_timeline reference)) as Hlr.
  pose proof (length_boundaries (as_timeline hypothesis)) as Hlh.
  set (refB := boundaries (as_timeline reference)) in *.
  set (hypB := boundaries (as_timeline hypothesis)) in *.
  replace (Z.of_nat (length (as_timeline reference)) - 1)%Z
    with (Z.of_nat (length refB)) by lia.
  replace (Z.of_nat (length (as_timeline hypothesis)) - 1)%Z
    with (Z.of_nat (length hypB)) by lia.
  destruct (Z.eqb_spec (Z.of_nat (length hypB)) 0); [lia|].
  destruct (Z.eqb_spec (Z.of_nat (length refB)) 0); [lia|]. cbn [orb].
  rewrite zeros_ok. cbn [rbind]. rewrite fill_delta_distances. cbn [rbind].
  rewrite !Nat2Z.id.
  assert (Hs : shaped (length refB) (length hypB)
                 (mask_gt tolerance (distances refB hypB)))
    by apply shaped_mask_gt, shaped_distances.
  pose proof (matched_cells_length _ _ (S (length refB * length hypB)) _ Hs) as Hlen.
  destruct (while_loop_matched (length refB) (length hypB)
              (S (length refB * length hypB))
              (mask_gt tolerance (distances refB hypB)) 0) as (d' & Hrun & _ & _).
  - exact Hs.
  - lia.
  - lia.
  - assert (Nat.min (length refB) (length hypB) <= length refB * length hypB) by nia.
    lia.
  - change (inject_Z 0) with 0%Q in Hrun. rewrite Hrun. cbn [nMatches].
    reflexivity.
Qed.

Lemma matched_cells_empty (fuel : nat) (M : Z) (d : matrix) :
  ravel d = [] -> matched_cells fuel M d = [].
Proof.
  intros He. destruct fuel as [|fuel]; [done|]. simpl.
  unfold selected, amin. by rewrite He.
Qed.

Lemma ravel_distances_empty (tolerance : Q) (refB hypB : list Q) :
  refB = [] \/ hypB = [] -> ravel (mask_gt tolerance (distances refB hypB)) = [].
Proof.
  intros He. apply length_zero_iff_nil.
  rewrite (length_ravel (length refB) (length hypB))
    by apply shaped_mask_gt, shaped_distances.
  destruct He as [-> | ->]; simpl; lia.
Qed.

Lemma matches_corner (tolerance : Q) (reference hypothesis : structure) :
  length (as_timeline reference) <= 1 \/ length (as_timeline hypothesis) <= 1 ->
  matches tolerance reference hypothesis = [].
Proof.
  intros Hc. unfold matches. apply matched_cells_empty.
  apply ravel_distances_empty.
  pose proof (length_boundaries (as_timeline reference)) as Hr.
  pose proof (length_boundaries (as_timeline hypothesis)) as Hh.
  destruct Hc; [left | right]; apply length_zero_iff_nil; lia.
Qed.

(** The corner case of the code: one of the two counts [N], [M] is [0]. *)
Lemma get_details_corner (tolerance : Q) (reference hypothesis : structure) :
  length (as_timeline reference) = 1 \/ length (as_timeline hypothesis) = 1 ->
  _get_details tolerance reference hypothesis
  = Some (Ok (<[PR_MATCHES := 0%Q]>
                (<[PR_BOUNDARIES :=
                     inject_Z (Z.of_nat (length (as_timeline hypothesis)) - 1)]>
                   (init_details metric_components)))).
Proof.
  intros Hc. unfold _get_details.
  destruct (Z.eqb_spec (Z.of_nat (length (as_timeline hypothesis)) - 1) 0);
    [reflexivity|].
  destruct (Z.eqb_spec (Z.of_nat (length (as_timeline reference)) - 1) 0);
    [reflexivity|].
  lia.
Qed.

(** An empty structure facing a structure that does not have exactly one
    segment: [np.zeros] receives a negative dimension. *)
Lemma get_details_empty (tolerance : Q) (reference hypothesis : structure) :
  length (as_timeline reference) <> 1 ->
  length (as_timeline hypothesis) <> 1 ->
  length (as_timeline reference) = 0 \/ length (as_timeline hypothesis) = 0 ->
  _get_details tolerance reference hypothesis = Some (Raise ValueError).
Proof.
  intros Hr Hh He. unfold _get_details.
  destruct (Z.eqb_spec (Z.of_nat (length (as_timeline hypothesis)) - 1) 0); [lia|].
  destruct (Z.eqb_spec (Z.of_nat (length (as_timeline reference)) - 1) 0); [lia|].
  cbn [orb]. rewrite zeros_negative by lia. reflexivity.
Qed.

(** Whenever [_get_details] returns, the Detail Record holds the number of
    selected cells and the variable [M]. *)
Lemma get_details_Ok (tolerance : Q) (reference hypothesis : structure) (d : Detail) :
  _get_details tolerance reference hypothesis = Some (Ok d) ->
  d = <[PR_MATCHES :=
          inject_Z (Z.of_nat (length (matches tolerance reference hypothesis)))]>
        (<[PR_BOUNDARIES :=
             inject_Z (Z.of_nat (length (as_timeline hypothesis)) - 1)]>
           (init_details metric_components)).
Proof.
  intros Hd.
  destruct (decide (length (as_timeline reference) = 1
                    \/ length (as_timeline hypothesis) = 1)) as [Hc|Hc].
  - rewrite get_details_corner in Hd by done. injection Hd as <-.
    rewrite matches_corner by lia. reflexivity.
  - destruct (decide (length (as_timeline reference) = 0
                      \/ length (as_timeline hypothesis) = 0)) as [He|He].
    + rewrite get_details_empty in Hd by lia. discriminate.
    + rewrite get_details_general in Hd by lia. by injection Hd as <-.
Qed.

(** [_get_details] always returns or raises: the fuel given to the loop is
    never exhausted. *)
Lemma get_details_total (tolerance : Q) (reference hypothesis : structure) :
  exists r, _get_details tolerance reference hypothesis = Some r.
Proof.
  destruct (decide (length (as_timeline reference) = 1
                    \/ length (as_timeline hypothesis) = 1)) as [Hc|Hc].
  - rewrite get_details_corner by done. eauto.
  - destruct (decide (length (as_timeline reference) = 0
                      \/ length (as_timeline hypothesis) = 0)) as [He|He].
    + rewrite get_details_empty by lia. eauto.
    + rewrite get_details_general by lia. eauto.
Qed.

Lemma matches_within (tolerance : Q) (reference hypothesis : structure) :
  Forall (within tolerance reference hypothesis)
    (matches tolerance reference hypothesis).
Proof.
  unfold matches, within.
  set (refB := boundaries (as_timeline reference)).
  set (hypB := boundaries (as_timeline hypothesis)).
  destruct (matched_cells_spec (length refB) (length hypB)
              (S (length refB * length hypB))
              (mask_gt tolerance (distances refB hypB))) as (Hall & _ & _).
  { apply shaped_mask_gt, shaped_distances. }
  eapply Forall_impl; [exact Hall|]. intros [i j] [v Hv]. simpl in *.
  rewrite cell_mask_gt, cell_distances in Hv.
  destruct (refB !! i) as [r|]; [|discriminate].
  destruct (hypB !! j) as [h|]; [|discriminate].
  simpl in Hv. injection Hv as Hv. apply mask_cell_Fin in Hv as [[= <-] Hle].
  eauto.
Qed.

Lemma matches_NoDup (tolerance : Q) (reference hypothesis : structure) :
  NoDup (fst <$> matches tolerance reference hypothesis)
  /\ NoDup (snd <$> matches tolerance reference hypothesis).
Proof.
  unfold matches.
  eapply matched_cells_spec, shaped_mask_gt, shaped_distances.
Qed.

(** ** A larger tolerance extends the run *)

Lemma mask_cell_Inf (tolerance : Q) : mask_cell tolerance Inf = Inf.
Proof. reflexivity. Qed.

Lemma mask_cell_cases (tolerance : Q) (x : fl) :
  (mask_cell tolerance x = x /\ fl_le x (Fin tolerance))
  \/ (mask_cell tolerance x = Inf /\ fl_ltb (Fin tolerance) x = true).
Proof.
  unfold mask_cell, fl_le. destruct (fl_ltb (Fin tolerance) x); auto.
Qed.

Lemma mask_cell_mono (t1 t2 : Q) (x : fl) :
  (t1 <= t2)%Q -> mask_cell t1 (mask_cell t2 x) = mask_cell t1 x.
Proof.
  intros Ht. unfold mask_cell at 2. destruct (fl_ltb (Fin t2) x) eqn:E; [|done].
  rewrite mask_cell_Inf. unfold mask_cell.
  replace (fl_ltb (Fin t1) x) with true; [done|]. symmetry.
  eapply fl_le_lt_trans; [|exact E]. by apply fl_le_Fin.
Qed.

Lemma mask_gt_mono (t1 t2 : Q) (d : matrix) :
  (t1 <= t2)%Q -> mask_gt t1 (mask_gt t2 d) = mask_gt t1 d.
Proof.
  intros Ht. unfold mask_gt. rewrite <- list_fmap_compose.
  apply list_fmap_ext. intros _ row _. simpl.
  rewrite <- list_fmap_compose. apply list_fmap_ext. intros _ x _. simpl.
  by apply mask_cell_mono.
Qed.

Lemma ravel_mask_gt (tolerance : Q) (d : matrix) :
  ravel (mask_gt tolerance d) = mask_cell tolerance <$> ravel d.
Proof.
  unfold ravel, mask_gt. induction d as [|row d IH]; [done|].
  rewrite fmap_cons. simpl. by rewrite fmap_app, IH.
Qed.

(** A finite first minimum of the masked cells is the first minimum of the
    cells themselves. *)
Lemma first_min_unmask (tolerance : Q) (L : list fl) (k : nat) (v : Q) :
  first_min (mask_cell tolerance <$> L) k ->
  (mask_cell tolerance <$> L) !! k = Some (Fin v) ->
  first_min L k /\ L !! k = Some (Fin v).
Proof.
  intros (x & Hx & Hmin & Hfirst) Hk.
  assert (x = Fin v) as -> by congruence. clear Hx.
  rewrite list_lookup_fmap in Hk.
  destruct (L !! k) as [x|] eqn:Hx; [|discriminate]. simpl in Hk.
  injection Hk as Hk. apply mask_cell_Fin in Hk as [-> Hv].
  split; [|done]. exists (Fin v). split; [done|]. split.
  - intros y Hy.
    destruct (mask_cell_cases tolerance y) as [[Hm _]|[_ Hgt]].
    + rewrite <- Hm. apply Hmin. by apply list_elem_of_fmap_2.
    + apply fl_lt_le. eapply fl_le_lt_trans; [|exact Hgt]. by apply fl_le_Fin.
  - intros k' y Hk' Hy.
    assert (Hy' : (mask_cell tolerance <$> L) !! k' = Some (mask_cell tolerance y))
      by (by rewrite list_lookup_fmap, Hy).
    specialize (Hfirst _ _ Hk' Hy').
    destruct (mask_cell_cases tolerance y) as [[Hm _]|[_ Hgt]].
    + by rewrite Hm in Hfirst.
    + eapply fl_le_lt_trans; [|exact Hgt]. by apply fl_le_Fin.
Qed.

Lemma selected_unmask (tolerance : Q) (M : Z) (d : matrix) (p : nat * nat) :
  selected M (mask_gt tolerance d) = Some p -> selected M d = Some p.
Proof.
  unfold selected.
  destruct (amin (mask_gt tolerance d)) as [h1|] eqn:Hh1; [|discriminate].
  destruct (argmin (mask_gt tolerance d)) as [k1|] eqn:Hk1; [|discriminate].
  destruct (lt_inf h1) eqn:Hfin1; [|discriminate]. intros [= <-].
  apply amin_spec in Hh1 as [Hin1 Hmin1].
  apply argmin_spec in Hk1 as (kn & -> & Hfirst1).
  rewrite ravel_mask_gt in *.
  pose proof Hfirst1 as (x & Hx & Hxmin & _).
  assert (Hxfin : lt_inf x = true).
  { eapply fl_le_lt_inf; [apply Hxmin, Hin1 | done]. }
  apply lt_inf_Fin in Hxfin as [v ->].
  destruct (first_min_unmask tolerance _ kn v Hfirst1 Hx) as [Hfirst Hv].
  assert (Hne : ravel d <> []).
  { intros E. rewrite E in Hv. by rewrite lookup_nil in Hv. }
  destruct (amin_is_Ok d Hne) as [h Hh]. destruct (argmin_is_Ok d Hne) as [k Hk].
  rewrite Hh, Hk.
  apply amin_spec in Hh as [Hin Hmin].
  apply argmin_spec in Hk as (kn' & -> & Hfirst').
  assert (kn' = kn) as -> by (by eapply first_min_unique).
  replace (lt_inf h) with true; [done|]. symmetry.
  eapply fl_le_lt_inf; [apply Hmin; by eapply list_elem_of_lookup_2 | done].
Qed.

Lemma masked_mask_gt (tolerance : Q) (d : matrix) (i j : nat) :
  masked i j (mask_gt tolerance d) = mask_gt tolerance (masked i j d).
Proof.
  unfold masked, mask_gt.
  assert (Halter :
    alter (fun row : list fl => (fun _ => Inf) <$> row) i
      ((fun row : list fl => mask_cell tolerance <$> row) <$> d)
    = (fun row : list fl => mask_cell tolerance <$> row)
        <$> alter (fun row : list fl => (fun _ => Inf) <$> row) i d).
  { symmetry. apply list_fmap_alter. apply Forall_forall. intros row _.
    by rewrite <- !list_fmap_compose. }
  rewrite Halter, <- !list_fmap_compose.
  apply list_fmap_ext. intros _ row _. simpl.
  by rewrite list_fmap_insert.
Qed.

Lemma matched_cells_prefix (tolerance : Q) (fuel : nat) (M : Z) (d : matrix) :
  matched_cells fuel M (mask_gt tolerance d) `prefix_of` matched_cells fuel M d.
Proof.
  revert d. induction fuel as [|fuel IH]; intros d; simpl; [done|].
  destruct (selected M (mask_gt tolerance d)) as [[i j]|] eqn:Hsel.
  - rewrite (selected_unmask _ _ _ _ Hsel). rewrite masked_mask_gt.
    apply prefix_cons, IH.
  - apply prefix_nil.
Qed.

Lemma matches_prefix (t1 t2 : Q) (reference hypothesis : structure) :
  (t1 <= t2)%Q ->
  matches t1 reference hypothesis `prefix_of` matches t2 reference hypothesis.
Proof.
  intros Ht. unfold matches.
  rewrite <- (mask_gt_mono t1 t2) by done. apply matched_cells_prefix.
Qed.

Lemma cell_masked_Inf (n m : nat) (d : matrix) (i j i' j' : nat) :
  shaped n m d -> i' < n -> j' < m -> i' = i \/ j' = j ->
  cell (masked i j d) i' j' = Some Inf.
Proof.
  intros Hs Hi Hj Heq.
  destruct (proj2 (cell_bounds n m (masked i j d) i' j' (shaped_masked n m d i j Hs)))
    as [x Hx]; [done|].
  rewrite Hx. destruct x as [v|]; [|done].
  apply (cell_masked n m) in Hx; [|done]. lia.
Qed.

(** ** The rate of a precision or a recall *)

Lemma get_rate_pr_detail (c b : Q) :
  _get_rate (<[PR_MATCHES := c]>
               (<[PR_BOUNDARIES := b]> (init_details metric_components)))
  = if Qeq_bool b 0 then if Qeq_bool c 0 then Ok 1%Q else Raise ValueError
    else Ok (c / b)%Q.
Proof.
  unfold _get_rate, getitem.
  rewrite lookup_insert_eq. cbn [rbind].
  rewrite lookup_insert_ne by done. rewrite lookup_insert_eq. reflexivity.
Qed.

Lemma get_details_eq (tolerance : Q) (reference hypothesis : structure) :
  _get_details tolerance reference hypothesis
  = if decide (length (as_timeline reference) <> 1
               /\ length (as_timeline hypothesis) <> 1
               /\ (length (as_timeline reference) = 0
                   \/ length (as_timeline hypothesis) = 0))
    then Some (Raise ValueError)
    else Some (Ok (<[PR_MATCHES :=
                       inject_Z (Z.of_nat
                         (length (matches tolerance reference hypothesis)))]>
                     (<[PR_BOUNDARIES :=
                          inject_Z (Z.of_nat (length (as_timeline hypothesis)) - 1)]>
                        (init_details metric_components)))).
Proof.
  destruct (decide _) as [(Hr & Hh & He)|Hn].
  - by apply get_details_empty.
  - destruct (decide (length (as_timeline reference) = 1
                      \/ length (as_timeline hypothesis) = 1)) as [Hc|Hc].
    + rewrite get_details_corner by done.
      rewrite matches_corner by lia. reflexivity.
    + apply get_details_general; lia.
Qed.

Lemma Qdiv_le_compat (c1 c2 b : Q) :
  (c1 <= c2)%Q -> (0 < b)%Q -> (c1 / b <= c2 / b)%Q.
Proof.
  intros Hc Hb. unfold Qdiv. apply Qmult_le_compat_r; [done|].
  apply Qinv_le_0_compat. lra.
Qed.

Lemma rate_monotone (t1 t2 : Q) (reference hypothesis : structure) (r1 r2 : Q) :
  (t1 <= t2)%Q ->
  rate t1 reference hypothesis = Some (Ok r1) ->
  rate t2 reference hypothesis = Some (Ok r2) ->
  (r1 <= r2)%Q.
Proof.
  intros Ht. unfold rate. rewrite !get_details_eq.
  destruct (decide _) as [|Hn]; [discriminate|].
  rewrite !get_rate_pr_detail.
  pose proof (prefix_length _ _ (matches_prefix t1 t2 reference hypothesis Ht)) as Hlen.
  destruct (Qeq_bool _ 0) eqn:Hb.
  - destruct (decide (length (as_timeline hypothesis) <= 1)) as [Hh|Hh].
    + rewrite !matches_corner by lia. simpl.
      intros [= <-] [= <-]. lra.
    + apply Qeq_bool_iff in Hb. unfold Qeq, inject_Z in Hb. simpl in Hb. lia.
  - intros [= <-] [= <-].
    destruct (decide (length (as_timeline hypothesis) <= 1)) as [Hh|Hh].
    + rewrite !matches_corner by lia. lra.
    + apply Qdiv_le_compat.
      * rewrite <- Zle_Qle. lia.
      * change 0%Q with (inject_Z 0). rewrite <- Zlt_Qlt. lia.
Qed.

(** * The claims about the boundary matcher *)

(** C1.  Boundary Matcher masking.  Whenever [_get_details] returns, the
    match count it reports is the number of cells selected by the greedy
    loop, one per increment; every selected cell pairs a reference boundary
    and a hypothesis boundary whose absolute distance is at most the
    tolerance, and no row or column is selected twice.  A pair farther apart
    than the tolerance is therefore never counted.  The same holds for
    [SegmentationRecall], with the two structures swapped.  The tolerance
    may be any number, non-negative or not. *)
Theorem matches_within_tolerance
    (tolerance : Q) (reference hypothesis : structure) (d : Detail) :
  (SegmentationPrecision._get_details tolerance reference hypothesis = Some (Ok d) ->
   d !! PR_MATCHES
   = Some (inject_Z (Z.of_nat (length (matches tolerance reference hypothesis))))
   /\ Forall (within tolerance reference hypothesis)
        (matches tolerance reference hypothesis)
   /\ NoDup (fst <$> matches tolerance reference hypothesis)
   /\ NoDup (snd <$> matches tolerance reference hypothesis))
  /\ (SegmentationRecall._get_details tolerance reference hypothesis = Some (Ok d) ->
      d !! PR_MATCHES
      = Some (inject_Z (Z.of_nat (length (matches tolerance hypothesis reference))))
      /\ Forall (within tolerance hypothesis reference)
           (matches tolerance hypothesis reference)
      /\ NoDup (fst <$> matches tolerance hypothesis reference)
      /\ NoDup (snd <$> matches tolerance hypothesis reference)).
Proof.
  assert (H : forall R H : structure,
    SegmentationPrecision._get_details tolerance R H = Some (Ok d) ->
    d !! PR_MATCHES
    = Some (inject_Z (Z.of_nat (length (matches tolerance R H))))
    /\ Forall (within tolerance R H) (matches tolerance R H)
    /\ NoDup (fst <$> matches tolerance R H)
    /\ NoDup (snd <$> matches tolerance R H)).
  { intros R H Hd. apply get_details_Ok in Hd as ->.
    split; [by rewrite lookup_insert_eq|].
    split; [apply matches_within | apply matches_NoDup]. }
  split; [apply H|]. unfold SegmentationRecall._get_details. apply H.
Qed.

Lemma matches_within_tolerance_witness :
  (SegmentationPrecision._get_details 0 Examples.reference Examples.hypothesis
   = Some (Ok (Examples.pr_detail 2 3))
   /\ Examples.pr_detail 2 3 !! PR_MATCHES
      = Some (inject_Z (Z.of_nat
          (length (matches 0 Examples.reference Examples.hypothesis))))
   /\ Forall (within 0 Examples.reference Examples.hypothesis)
        (matches 0 Examples.reference Examples.hypothesis))
  /\ (SegmentationRecall._get_details 0 Examples.reference Examples.hypothesis
      = Some (Ok (Examples.pr_detail 2 2))
      /\ Examples.pr_detail 2 2 !! PR_MATCHES
         = Some (inject_Z (Z.of_nat
             (length (matches 0 Examples.hypothesis Examples.reference))))
      /\ Forall (within 0 Examples.hypothesis Examples.reference)
           (matches 0 Examples.hypothesis Examples.reference)).
Proof.
  assert (Hp : SegmentationPrecision._get_details 0 Examples.reference
                 Examples.hypothesis = Some (Ok (Examples.pr_detail 2 3)))
    by (vm_compute; reflexivity).
  assert (Hr : SegmentationRecall._get_details 0 Examples.reference
                 Examples.hypothesis = Some (Ok (Examples.pr_detail 2 2)))
    by (vm_compute; reflexivity).
  split.
  - split; [exact Hp|].
    destruct (proj1 (matches_within_tolerance 0 Examples.reference
                       Examples.hypothesis (Examples.pr_detail 2 3)) Hp)
      as (Hc & Hall & _).
    split; [exact Hc | exact Hall].
  - split; [exact Hr|].
    destruct (proj2 (matches_within_tolerance 0 Examples.reference
                       Examples.hypothesis (Examples.pr_detail 2 2)) Hr)
      as (Hc & Hall & _).
    split; [exact Hc | exact Hall].
Defined.

(** C8.  Termination of the greedy extraction loop.  (1) An iteration that
    does not exit sets a whole row and a whole column of the array to
    [np.inf], keeps its shape and strictly decreases the number of finite
    cells.  (2) On an [n] by [m] array the loop exits as soon as it is given
    more than [min n m] units of fuel, after at most [min n m] iterations,
    and leaves no finite cell.  (3) [_get_details] always returns or raises
    (its loop never runs out of fuel), and the match count it returns is at
    most the smaller of the two numbers of boundaries. *)
Theorem greedy_loop_terminates :
  (forall (n m : nat) (st st' : state),
      shaped n m (delta st) ->
      loop_step (Z.of_nat m) st = Ok (Some st') ->
      exists i j,
        i < n /\ j < m
        /\ delta st' = masked i j (delta st)
        /\ (forall j', j' < m -> cell (delta st') i j' = Some Inf)
        /\ (forall i', i' < n -> cell (delta st') i' j = Some Inf)
        /\ shaped n m (delta st')
        /\ finite_cells (delta st') < finite_cells (delta st))
  /\ (forall (n m : nat) (d : matrix) (c : Z) (fuel : nat),
        shaped n m d -> 0 < n -> 0 < m -> Nat.min n m < fuel ->
        exists d' k,
          while_loop fuel (Z.of_nat m) (mkState d (inject_Z c))
          = Some (Ok (mkState d' (inject_Z (c + Z.of_nat k))))
          /\ k <= Nat.min n m
          /\ finite_cells d' = 0)
  /\ (forall (tolerance : Q) (reference hypothesis : structure),
        exists r,
          _get_details tolerance reference hypothesis = Some r
          /\ forall d, r = Ok d ->
             exists k,
               d !! PR_MATCHES = Some (inject_Z (Z.of_nat k))
               /\ k <= Nat.min (length (boundaries (as_timeline reference)))
                        (length (boundaries (as_timeline hypothesis)))).
Proof.
  split; [|split].
  - intros n m st st' Hs Hstep.
    assert (Hpos : 0 < n /\ 0 < m).
    { destruct (decide (n = 0 \/ m = 0)) as [Hz|]; [|lia].
      rewrite (loop_step_empty n m) in Hstep by done. discriminate. }
    destruct Hpos as [Hn Hm].
    rewrite (loop_step_selected n m) in Hstep by done.
    destruct (selected (Z.of_nat m) (delta st)) as [[i j]|] eqn:Hsel;
      [|discriminate].
    injection Hstep as <-. cbn [delta].
    destruct (selected_Some n m _ i j Hs Hsel)
      as (k & v & _ & _ & _ & _ & Hi & Hj & Hc).
    exists i, j. repeat split; try done.
    + intros j' Hj'. apply (cell_masked_Inf n m); auto.
    + intros i' Hi'. apply (cell_masked_Inf n m); auto.
    + by destruct (shaped_masked n m (delta st) i j Hs).
    + by destruct (shaped_masked n m (delta st) i j Hs).
    + by eapply finite_cells_masked.
  - intros n m d c fuel Hs Hn Hm Hfuel.
    pose proof (matched_cells_length n m fuel d Hs) as Hlen.
    destruct (while_loop_matched n m fuel d c Hs Hn Hm) as (d' & Hrun & _ & Hfin);
      [lia|].
    exists d', (length (matched_cells fuel (Z.of_nat m) d)). done.
  - intros tolerance reference hypothesis.
    rewrite get_details_eq. destruct (decide _); eexists; (split; [reflexivity|]).
    + discriminate.
    + intros d [= <-]. eexists. rewrite lookup_insert_eq.
      split; [reflexivity | apply matches_length].
Qed.

Lemma greedy_loop_terminates_witness :
  shaped 2 3 Examples.ties
  /\ loop_step 3 (mkState Examples.ties 0)
     = Ok (Some (mkState (masked 0 1 Examples.ties) 1))
  /\ finite_cells (masked 0 1 Examples.ties) < finite_cells Examples.ties
  /\ (exists d' k,
        while_loop 3 3 (mkState Examples.ties 0)
        = Some (Ok (mkState d' (inject_Z (0 + Z.of_nat k))))
        /\ k <= 2 /\ finite_cells d' = 0).
Proof.
  assert (Hs : shaped 2 3 Examples.ties)
    by (split; [reflexivity | repeat constructor]).
  assert (Hstep : loop_step 3 (mkState Examples.ties 0)
                  = Ok (Some (mkState (masked 0 1 Examples.ties) 1)))
    by (vm_compute; reflexivity).
  split; [exact Hs|]. split; [exact Hstep|]. split.
  - destruct (proj1 greedy_loop_terminates 2 3 (mkState Examples.ties 0)
                (mkState (masked 0 1 Examples.ties) 1) Hs Hstep)
      as (i & j & _ & _ & _ & _ & _ & _ & Hdec).
    exact Hdec.
  - apply (proj1 (proj2 greedy_loop_terminates) 2 3 Examples.ties 0%Z 3 Hs);
      simpl; lia.
Defined.

(** C9.  The match count is monotone in the tolerance.  For tolerances
    [t1 <= t2] the cells selected with [t1] are the first cells selected
    with [t2]; hence whenever [_get_details] returns with [t1] it returns
    with [t2], with the same number of boundaries and a match count that is
    at least as large, and the precision and recall rates, when defined,
    are ordered the same way. *)
Theorem match_count_monotone
    (t1 t2 : Q) (reference hypothesis : structure) :
  (t1 <= t2)%Q ->
  matches t1 reference hypothesis `prefix_of` matches t2 reference hypothesis
  /\ (forall d1,
        _get_details t1 reference hypothesis = Some (Ok d1) ->
        exists d2 c1 c2,
          _get_details t2 reference hypothesis = Some (Ok d2)
          /\ d1 !! PR_MATCHES = Some c1
          /\ d2 !! PR_MATCHES = Some c2
          /\ (c1 <= c2)%Q
          /\ d1 !! PR_BOUNDARIES = d2 !! PR_BOUNDARIES)
  /\ (forall r1 r2,
        SegmentationPrecision.rate t1 reference hypothesis = Some (Ok r1) ->
        SegmentationPrecision.rate t2 reference hypothesis = Some (Ok r2) ->
        (r1 <= r2)%Q)
  /\ (forall r1 r2,
        SegmentationRecall.rate t1 reference hypothesis = Some (Ok r1) ->
        SegmentationRecall.rate t2 reference hypothesis = Some (Ok r2) ->
        (r1 <= r2)%Q).
Proof.
  intros Ht. split; [by apply matches_prefix|]. split; [|split].
  - intros d1. rewrite !get_details_eq.
    destruct (decide _); [discriminate|]. intros [= <-].
    eexists _, _, _. split; [reflexivity|].
    rewrite !lookup_insert_eq. split; [reflexivity|]. split; [reflexivity|].
    split.
    + rewrite <- Zle_Qle. apply inj_le, prefix_length. by apply matches_prefix.
    + rewrite !lookup_insert_ne by done. reflexivity.
  - intros r1 r2. by apply rate_monotone.
  - intros r1 r2. unfold SegmentationRecall.rate, SegmentationRecall._get_details.
    apply (rate_monotone t1 t2 hypothesis reference r1 r2 Ht).
Qed.

Lemma match_count_monotone_witness :
  (0 <= 1)%Q
  /\ matches 0 Examples.reference Examples.hypothesis
     `prefix_of` matches 1 Examples.reference Examples.hypothesis
  /\ _get_details 0 Examples.reference Examples.hypothesis
     = Some (Ok (Examples.pr_detail 2 3))
  /\ (exists d2 c1 c2,
        _get_details 1 Examples.reference Examples.hypothesis = Some (Ok d2)
        /\ Examples.pr_detail 2 3 !! PR_MATCHES = Some c1
        /\ d2 !! PR_MATCHES = Some c2
        /\ (c1 <= c2)%Q
        /\ Examples.pr_detail 2 3 !! PR_BOUNDARIES = d2 !! PR_BOUNDARIES).
Proof.
  assert (Ht : (0 <= 1)%Q) by (unfold Qle; simpl; lia).
  assert (Hd : _get_details 0 Examples.reference Examples.hypothesis
               = Some (Ok (Examples.pr_detail 2 3)))
    by (vm_compute; reflexivity).
  split; [exact Ht|]. split; [|split; [exact Hd|]].
  - exact (proj1 (match_count_monotone 0 1 Examples.reference
                    Examples.hypothesis Ht)).
  - exact (proj1 (proj2 (match_count_monotone 0 1 Examples.reference
                           Examples.hypothesis Ht))
             (Examples.pr_detail 2 3) Hd).
Defined.

(** ** Numerically equal inputs *)

Lemma Qltb_proper (x x' y y' : Q) :
  (x == x')%Q -> (y == y')%Q -> Qltb x y = Qltb x' y'.
Proof.
  intros Hx Hy.
  destruct (Qltb x y) eqn:E1, (Qltb x' y') eqn:E2; try reflexivity.
  - apply Qltb_lt in E1. apply Qltb_ge in E2. lra.
  - apply Qltb_ge in E1. apply Qltb_lt in E2. lra.
Qed.

Lemma fl_ltb_proper (x x' y y' : fl) :
  fl_eq x x' -> fl_eq y y' -> fl_ltb x y = fl_ltb x' y'.
Proof.
  destruct x, x', y, y'; simpl; try done. apply Qltb_proper.
Qed.

Lemma fl_min_proper (x x' y y' : fl) :
  fl_eq x x' -> fl_eq y y' -> fl_eq (fl_min x y) (fl_min x' y').
Proof.
  intros Hx Hy. unfold fl_min. rewrite (fl_ltb_proper y y' x x') by done.
  by destruct (fl_ltb y' x').
Qed.

Lemma fold_fl_min_proper (l l' : list fl) (x x' : fl) :
  Forall2 fl_eq l l' -> fl_eq x x' ->
  fl_eq (fold_left fl_min l x) (fold_left fl_min l' x').
Proof.
  intros Hl. revert x x'. induction Hl as [|y y' l l' Hy Hl IH]; intros x x' Hx.
  - done.
  - simpl. apply IH. by apply fl_min_proper.
Qed.

Lemma argmin_from_proper (l l' : list fl) (best best' : fl) (besti idx : nat) :
  Forall2 fl_eq l l' -> fl_eq best best' ->
  argmin_from best besti idx l = argmin_from best' besti idx l'.
Proof.
  intros Hl. revert best best' besti idx.
  induction Hl as [|y y' l l' Hy Hl IH]; intros best best' besti idx Hb.
  - done.
  - simpl. rewrite (fl_ltb_proper y y' best best') by done.
    destruct (fl_ltb y' best'); by apply IH.
Qed.

Lemma ravel_proper (d d' : matrix) :
  matrix_eq d d' -> Forall2 fl_eq (ravel d) (ravel d').
Proof.
  unfold ravel. induction 1; simpl; [constructor | by apply Forall2_app].
Qed.

Lemma lt_inf_proper (x x' : fl) : fl_eq x x' -> lt_inf x = lt_inf x'.
Proof. by destruct x, x'. Qed.

Lemma selected_proper (M : Z) (d d' : matrix) :
  matrix_eq d d' -> selected M d = selected M d'.
Proof.
  intros Hd. apply ravel_proper in Hd. unfold selected, amin, argmin.
  destruct Hd as [|x x' l l' Hx Hl]; [done|].
  rewrite (lt_inf_proper _ _ (fold_fl_min_proper l l' x x' Hl Hx)).
  by rewrite (argmin_from_proper l l' x x' 0 1 Hl Hx).
Qed.

Lemma masked_proper (i j : nat) (d d' : matrix) :
  matrix_eq d d' -> matrix_eq (masked i j d) (masked i j d').
Proof.
  intros Hd. unfold masked, matrix_eq. apply Forall2_fmap_2.
  eapply Forall2_impl.
  - apply Forall2_alter; [exact Hd|]. intros row row' _ _ Hrow.
    apply Forall2_fmap_2. eapply Forall2_impl; [exact Hrow|]. done.
  - intros row row' Hrow. simpl. by apply Forall2_insert.
Qed.

Lemma matched_cells_proper (fuel : nat) (M : Z) (d d' : matrix) :
  matrix_eq d d' -> matched_cells fuel M d = matched_cells fuel M d'.
Proof.
  revert d d'. induction fuel as [|fuel IH]; intros d d' Hd; [done|].
  simpl. rewrite (selected_proper M d d' Hd).
  destruct (selected M d') as [[i j]|]; [|done].
  f_equal. by apply IH, masked_proper.
Qed.

Lemma Qabs_proper (x y : Q) : (x == y)%Q -> (Qabs x == Qabs y)%Q.
Proof. intros H. by rewrite H. Qed.

Lemma distances_proper (refB refB' hypB hypB' : list Q) :
  Forall2 Qeq refB refB' -> Forall2 Qeq hypB hypB' ->
  matrix_eq (distances refB hypB) (distances refB' hypB').
Proof.
  intros Hr Hh. unfold distances, matrix_eq. apply Forall2_fmap_2.
  eapply Forall2_impl; [exact Hr|]. intros r r' Hrr. simpl.
  apply Forall2_fmap_2. eapply Forall2_impl; [exact Hh|]. intros h h' Hhh.
  simpl. apply Qabs_proper. by rewrite Hrr, Hhh.
Qed.

Lemma mask_gt_proper (t t' : Q) (d d' : matrix) :
  (t == t')%Q -> matrix_eq d d' -> matrix_eq (mask_gt t d) (mask_gt t' d').
Proof.
  intros Ht Hd. unfold mask_gt, matrix_eq. apply Forall2_fmap_2.
  eapply Forall2_impl; [exact Hd|]. intros row row' Hrow. simpl.
  apply Forall2_fmap_2. eapply Forall2_impl; [exact Hrow|]. intros x x' Hx.
  unfold mask_cell. rewrite (fl_ltb_proper (Fin t) (Fin t') x x') by done.
  by destruct (fl_ltb (Fin t') x').
Qed.

Lemma Forall2_removelast {A B : Type} (P : A -> B -> Prop) (l : list A) (k : list B) :
  Forall2 P l k -> Forall2 P (removelast l) (removelast k).
Proof.
  induction 1 as [|x y l k Hxy Hlk IH]; [constructor|].
  destruct Hlk as [|x' y' l k Hxy' Hlk]; [constructor|].
  change (Forall2 P (x :: removelast (x' :: l)) (y :: removelast (y' :: k))).
  by constructor.
Qed.

Lemma boundaries_proper (t t' : Timeline) :
  Forall2 seg_eq t t' -> Forall2 Qeq (boundaries t) (boundaries t').
Proof.
  intros Ht. unfold boundaries, but_last. apply Forall2_removelast.
  apply Forall2_fmap_2. eapply Forall2_impl; [exact Ht|].
  by intros s s' [_ He].
Qed.

Lemma matches_proper (t t' : Q) (R R' H H' : structure) :
  (t == t')%Q -> same_input R R' -> same_input H H' ->
  matches t R H = matches t' R' H'.
Proof.
  intros Ht HR HH. unfold matches.
  pose proof (boundaries_proper _ _ HR) as HbR.
  pose proof (boundaries_proper _ _ HH) as HbH.
  rewrite (Forall2_length _ _ _ HbR), (Forall2_length _ _ _ HbH).
  apply matched_cells_proper, mask_gt_proper; [done|].
  by apply distances_proper.
Qed.

(** C2.  Tie-break of the greedy extraction loop.  (1) In a round that does
    not exit, the selected cell holds a finite value that no cell of the
    array is smaller than, and every cell holding that same minimum comes
    at or after it in row-major order (lower row first, then lower column);
    the round masks exactly the row and the column of that cell and adds
    one to the match count.  (2) The result of [_get_details] is a function
    of the values of its inputs: numerically equal tolerances and
    structures give equal outcomes. *)
Theorem tie_break_row_major :
  (forall (n m : nat) (st st' : state),
      shaped n m (delta st) ->
      loop_step (Z.of_nat m) st = Ok (Some st') ->
      exists i j v,
        cell (delta st) i j = Some (Fin v)
        /\ (forall i' j' y, cell (delta st) i' j' = Some y -> fl_le (Fin v) y)
        /\ (forall i' j' y,
              cell (delta st) i' j' = Some y -> fl_le y (Fin v) ->
              row_major_le (i, j) (i', j'))
        /\ st' = mkState (masked i j (delta st)) (nMatches st + 1)%Q)
  /\ (forall (t t' : Q) (R R' H H' : structure),
        (t == t')%Q -> same_input R R' -> same_input H H' ->
        _get_details t R H = _get_details t' R' H').
Proof.
  split.
  - intros n m st st' Hs Hstep.
    assert (Hpos : 0 < n /\ 0 < m).
    { destruct (decide (n = 0 \/ m = 0)) as [Hz|]; [|lia].
      rewrite (loop_step_empty n m) in Hstep by done. discriminate. }
    destruct Hpos as [Hn Hm].
    rewrite (loop_step_selected n m) in Hstep by done.
    destruct (selected (Z.of_nat m) (delta st)) as [[i j]|] eqn:Hsel;
      [|discriminate].
    injection Hstep as <-.
    destruct (selected_min_first n m _ i j Hs Hsel) as (v & Hv & Hmin & Hfirst).
    exists i, j, v. done.
  - intros t t' R R' H H' Ht HR HH. rewrite !get_details_eq.
    rewrite (matches_proper t t' R R' H H') by done.
    unfold same_input in *.
    by rewrite (Forall2_length _ _ _ HR), (Forall2_length _ _ _ HH).
Qed.

Lemma tie_break_row_major_witness :
  (shaped 2 3 Examples.ties
   /\ loop_step 3 (mkState Examples.ties 0)
      = Ok (Some (mkState (masked 0 1 Examples.ties) 1))
   /\ exists i j v,
        cell Examples.ties i j = Some (Fin v)
        /\ (forall i' j' y, cell Examples.ties i' j' = Some y -> fl_le (Fin v) y)
        /\ (forall i' j' y,
              cell Examples.ties i' j' = Some y -> fl_le y (Fin v) ->
              row_major_le (i, j) (i', j'))
        /\ mkState (masked 0 1 Examples.ties) 1
           = mkState (masked i j Examples.ties) (0 + 1)%Q)
  /\ ((1 # 2 == 2 # 4)%Q
      /\ same_input Examples.reference Examples.reference_alt
      /\ same_input Examples.hypothesis Examples.hypothesis
      /\ _get_details (1 # 2) Examples.reference Examples.hypothesis
         = _get_details (2 # 4) Examples.reference_alt Examples.hypothesis).
Proof.
  assert (Hs : shaped 2 3 Examples.ties)
    by (split; [reflexivity | repeat constructor]).
  assert (Hstep : loop_step 3 (mkState Examples.ties 0)
                  = Ok (Some (mkState (masked 0 1 Examples.ties) 1)))
    by (vm_compute; reflexivity).
  assert (Ht : (1 # 2 == 2 # 4)%Q) by reflexivity.
  assert (HR : same_input Examples.reference Examples.reference_alt)
    by (repeat constructor).
  assert (HH : same_input Examples.hypothesis Examples.hypothesis)
    by (repeat constructor).
  split.
  - split; [exact Hs|]. split; [exact Hstep|].
    exact (proj1 tie_break_row_major 2 3 (mkState Examples.ties 0)
             (mkState (masked 0 1 Examples.ties) 1) Hs Hstep).
  - split; [exact Ht|]. split; [exact HR|]. split; [exact HH|].
    exact (proj2 tie_break_row_major (1 # 2)%Q (2 # 4)%Q Examples.reference
             Examples.reference_alt Examples.hypothesis Examples.hypothesis
             Ht HR HH).
Defined.

(** * The claims about boundaries, corner cases and rates *)

Lemma insert_sorted_last (x z : Q) (l : list Q) :
  Forall (fun y => (y < x)%Q) l -> (x == z)%Q ->
  insert_sorted x (l ++ [z]) = l ++ [z].
Proof.
  intros Hl Hxz. induction Hl as [|y l Hy Hl IH]; simpl.
  - by rewrite (proj2 (Qeq_bool_iff x z) Hxz).
  - destruct (Qeq_bool x y) eqn:E; [done|].
    replace (Qltb x y) with false by (symmetry; apply Qltb_ge; lra).
    by rewrite IH.
Qed.

Lemma insert_sorted_gt (x : Q) (l : list Q) :
  Forall (fun y => (y < x)%Q) l -> insert_sorted x l = l ++ [x].
Proof.
  intros Hl. induction Hl as [|y l Hy Hl IH]; simpl; [done|].
  destruct (Qeq_bool x y) eqn:E.
  - apply Qeq_bool_iff in E. lra.
  - replace (Qltb x y) with false by (symmetry; apply Qltb_ge; lra).
    by rewrite IH.
Qed.

Lemma endpoints_chain (t : Timeline) (acc : list Q) (e : Q) :
  chain e t -> Forall (fun y => (y < e)%Q) acc ->
  fold_left
    (fun acc s => insert_sorted (seg_end s) (insert_sorted (seg_start s) acc))
    t (acc ++ [e])
  = acc ++ [e] ++ (seg_end <$> t).
Proof.
  revert acc e. induction t as [|s t IH]; intros acc e Hc Hacc; simpl.
  - done.
  - destruct Hc as (Hs & Hpos & Hc).
    rewrite insert_sorted_last.
    + rewrite insert_sorted_gt.
      * rewrite IH; [by rewrite <- !app_assoc | done |].
        apply Forall_app. split.
        -- eapply Forall_impl; [exact Hacc|]. intros y Hy. simpl in Hy. lra.
        -- constructor; [lra | constructor].
      * apply Forall_app. split.
        -- eapply Forall_impl; [exact Hacc|]. intros y Hy. simpl in Hy. lra.
        -- constructor; [lra | constructor].
    + eapply Forall_impl; [exact Hacc|]. intros y Hy. simpl in Hy. lra.
    + done.
Qed.

Lemma endpoints_contiguous (s : Segment) (t : Timeline) :
  contiguous (s :: t) -> endpoints (s :: t) = seg_start s :: (seg_end <$> s :: t).
Proof.
  intros [Hpos Hc]. unfold endpoints. simpl.
  replace (Qeq_bool (seg_end s) (seg_start s)) with false.
  - replace (Qltb (seg_end s) (seg_start s)) with false
      by (symmetry; apply Qltb_ge; lra).
    change [seg_start s; seg_end s] with ([seg_start s] ++ [seg_end s]).
    by rewrite (endpoints_chain t [seg_start s] (seg_end s) Hc)
      by (constructor; [lra | constructor]).
  - symmetry. destruct (Qeq_bool (seg_end s) (seg_start s)) eqn:E; [|done].
    apply Qeq_bool_iff in E. lra.
Qed.

Lemma get_details_nonempty (tolerance : Q) (reference hypothesis : structure) :
  as_timeline reference <> [] -> as_timeline hypothesis <> [] ->
  exists d,
    _get_details tolerance reference hypothesis = Some (Ok d)
    /\ d !! PR_BOUNDARIES
       = Some (inject_Z
                 (Z.of_nat (length (boundaries (as_timeline hypothesis))))).
Proof.
  intros Hr Hh. rewrite get_details_eq.
  destruct (as_timeline reference) as [|r tr] eqn:Er; [done|].
  destruct (as_timeline hypothesis) as [|h th] eqn:Eh; [done|].
  destruct (decide _) as [(_ & _ & [H|H])|_]; [discriminate H..|].
  eexists. split; [reflexivity|].
  rewrite lookup_insert_ne by done. rewrite lookup_insert_eq.
  rewrite length_boundaries. do 3 f_equal. simpl length. lia.
Qed.

(** C3, as amended.  For structures that have at least one segment, the
    boundary sequence fed to the matcher is the sequence of the end times
    of all the segments of a structure but the last one, in timeline order,
    and its length is the number of segments minus one.  [_get_details]
    then returns a Detail Record, whose boundary count is the number of
    boundaries of the hypothesis for a precision, of the reference for a
    recall.  When the structure is contiguous (segments of positive
    duration, each starting where the previous one ends) the boundary
    sequence is exactly the sequence of all interval endpoints, except the
    very first start and the very last end, in increasing order. *)
Theorem boundaries_are_segment_ends :
  (forall t : Timeline,
      t <> [] ->
      Z.of_nat (length (boundaries t)) = (Z.of_nat (length t) - 1)%Z
      /\ forall i, i + 1 < length t -> boundaries t !! i = seg_end <$> t !! i)
  /\ (forall (tolerance : Q) (reference hypothesis : structure),
        as_timeline reference <> [] ->
        as_timeline hypothesis <> [] ->
        (exists d,
            SegmentationPrecision._get_details tolerance reference hypothesis
            = Some (Ok d)
            /\ d !! PR_BOUNDARIES
               = Some (inject_Z
                         (Z.of_nat (length (boundaries (as_timeline hypothesis))))))
        /\ (exists d,
              SegmentationRecall._get_details tolerance reference hypothesis
              = Some (Ok d)
              /\ d !! PR_BOUNDARIES
                 = Some (inject_Z
                           (Z.of_nat (length (boundaries (as_timeline reference)))))))
  /\ (forall t : Timeline,
        t <> [] -> contiguous t -> boundaries t = interior_endpoints t).
Proof.
  split; [|split].
  - intros t Ht. split.
    + rewrite length_boundaries. destruct t; [done|]. simpl length. lia.
    + intros i Hi.
      unfold boundaries, but_last. rewrite <- list_lookup_fmap.
      rewrite <- (length_fmap seg_end) in Hi.
      revert i Hi. induction (seg_end <$> t) as [|x l IH]; intros i Hi; [done|].
      destruct l as [|y l]; [simpl in Hi; lia|].
      change (removelast (x :: y :: l)) with (x :: removelast (y :: l)).
      destruct i as [|i]; [done|]. simpl. apply IH. simpl in *. lia.
  - intros tolerance reference hypothesis Hr Hh. split.
    + by apply get_details_nonempty.
    + unfold SegmentationRecall._get_details. by apply get_details_nonempty.
  - intros [|s t] _ Hc; [done|].
    unfold interior_endpoints. by rewrite endpoints_contiguous.
Qed.

Lemma boundaries_are_segment_ends_witness :
  (as_timeline Examples.hypothesis <> []
   /\ 0 + 1 < length (as_timeline Examples.hypothesis)
   /\ boundaries (as_timeline Examples.hypothesis) !! 0
      = seg_end <$> as_timeline Examples.hypothesis !! 0)
  /\ (as_timeline Examples.reference <> []
      /\ (exists d,
            SegmentationPrecision._get_details 0 Examples.reference
              Examples.hypothesis
            = Some (Ok d)
            /\ d !! PR_BOUNDARIES
               = Some (inject_Z
                         (Z.of_nat
                            (length (boundaries (as_timeline Examples.hypothesis)))))))
  /\ (contiguous (as_timeline Examples.hypothesis)
      /\ boundaries (as_timeline Examples.hypothesis)
         = interior_endpoints (as_timeline Examples.hypothesis)).
Proof.
  assert (Hh : as_timeline Examples.hypothesis <> []) by (vm_compute; discriminate).
  assert (Hr : as_timeline Examples.reference <> []) by (vm_compute; discriminate).
  assert (Hlen : 0 + 1 < length (as_timeline Examples.hypothesis))
    by (vm_compute; lia).
  assert (Hc : contiguous (as_timeline Examples.hypothesis)).
  { cbv [contiguous chain as_timeline Examples.hypothesis of_segments fold_left].
    simpl. unfold Qlt, Qeq. simpl. lia. }
  split; [|split].
  - split; [exact Hh|]. split; [exact Hlen|].
    exact (proj2 (proj1 boundaries_are_segment_ends
                    (as_timeline Examples.hypothesis) Hh) 0 Hlen).
  - split; [exact Hr|].
    exact (proj1 (proj1 (proj2 boundaries_are_segment_ends) 0%Q
                    Examples.reference Examples.hypothesis Hr Hh)).
  - split; [exact Hc|].
    exact (proj2 (proj2 boundaries_are_segment_ends) _ Hh Hc).
Defined.

(** C3, as stated, fails on a structure with a gap: for [0,1], [2,3] the
    interior endpoints are [1] and [2], but the code feeds the single
    boundary [1] to the matcher and counts one boundary. *)
Lemma boundaries_ignore_segment_starts :
  interior_endpoints Examples.gapped = [1%Q; 2%Q]
  /\ boundaries Examples.gapped = [1%Q]
  /\ boundaries Examples.gapped <> interior_endpoints Examples.gapped
  /\ length (boundaries Examples.gapped)
     <> length (interior_endpoints Examples.gapped).
Proof.
  assert (H1 : interior_endpoints Examples.gapped = [1%Q; 2%Q])
    by (vm_compute; reflexivity).
  assert (H2 : boundaries Examples.gapped = [1%Q]) by (vm_compute; reflexivity).
  rewrite H1, H2. repeat split; discriminate.
Qed.

(** C5.  The end-to-end example of the documentation, with tolerance [0]:
    the precision has 2 matches for 3 hypothesis boundaries (the boundaries
    at [1] and [2] are matched, the one at [3] is not) and its rate is 2/3;
    the recall has 2 matches for 2 reference boundaries and its rate is 1. *)
Theorem example_precision_recall :
  boundaries (as_timeline Examples.reference) = [1%Q; 2%Q]
  /\ boundaries (as_timeline Examples.hypothesis) = [1%Q; 2%Q; 3%Q]
  /\ matches 0 Examples.reference Examples.hypothesis = [(0, 0); (1, 1)]
  /\ SegmentationPrecision._get_details 0 Examples.reference Examples.hypothesis
     = Some (Ok (Examples.pr_detail 2 3))
  /\ (exists r,
        SegmentationPrecision.rate 0 Examples.reference Examples.hypothesis
        = Some (Ok r) /\ (r == 2 # 3)%Q)
  /\ SegmentationRecall._get_details 0 Examples.reference Examples.hypothesis
     = Some (Ok (Examples.pr_detail 2 2))
  /\ (exists r,
        SegmentationRecall.rate 0 Examples.reference Examples.hypothesis
        = Some (Ok r) /\ (r == 1)%Q).
Proof.
  repeat split; try (vm_compute; reflexivity).
  - eexists. split; [vm_compute; reflexivity | reflexivity].
  - eexists. split; [vm_compute; reflexivity | reflexivity].
Qed.

(** C6.  [SegmentationPrecision._get_rate] on a Detail Record whose match
    count is [numerator] and whose boundary count is [M]: the quotient
    [numerator / M] when [M > 0]; when [M = 0], the rate 1 if the numerator
    is 0 too, and a [ValueError] otherwise. *)
Theorem get_rate_spec (d : Detail) (numerator M : Q) :
  d !! PR_MATCHES = Some numerator ->
  d !! PR_BOUNDARIES = Some M ->
  ((0 < M)%Q -> _get_rate d = Ok (numerator / M)%Q)
  /\ ((M == 0)%Q -> (numerator == 0)%Q -> _get_rate d = Ok 1%Q)
  /\ ((M == 0)%Q -> ~ (numerator == 0)%Q -> _get_rate d = Raise ValueError).
Proof.
  intros Hn HM. unfold _get_rate, getitem. rewrite Hn, HM. cbn [rbind].
  split; [|split].
  - intros Hpos. destruct (Qeq_bool M 0) eqn:E; [|done].
    apply Qeq_bool_iff in E. lra.
  - intros HM0 Hn0. by rewrite (proj2 (Qeq_bool_iff _ _) HM0),
      (proj2 (Qeq_bool_iff _ _) Hn0).
  - intros HM0 Hn0. rewrite (proj2 (Qeq_bool_iff _ _) HM0).
    destruct (Qeq_bool numerator 0) eqn:E; [|done].
    by apply Qeq_bool_iff in E.
Qed.

Lemma get_rate_spec_witness :
  (Examples.pr_detail 2 3 !! PR_MATCHES = Some 2%Q
   /\ Examples.pr_detail 2 3 !! PR_BOUNDARIES = Some 3%Q
   /\ (0 < 3)%Q
   /\ _get_rate (Examples.pr_detail 2 3) = Ok (2 / 3)%Q)
  /\ (Examples.pr_detail 0 0 !! PR_MATCHES = Some 0%Q
      /\ Examples.pr_detail 0 0 !! PR_BOUNDARIES = Some 0%Q
      /\ _get_rate (Examples.pr_detail 0 0) = Ok 1%Q)
  /\ (Examples.pr_detail 1 0 !! PR_MATCHES = Some 1%Q
      /\ Examples.pr_detail 1 0 !! PR_BOUNDARIES = Some 0%Q
      /\ ~ (1 == 0)%Q
      /\ _get_rate (Examples.pr_detail 1 0) = Raise ValueError).
Proof.
  assert (Hn : Examples.pr_detail 2 3 !! PR_MATCHES = Some 2%Q)
    by (vm_compute; reflexivity).
  assert (HM : Examples.pr_detail 2 3 !! PR_BOUNDARIES = Some 3%Q)
    by (vm_compute; reflexivity).
  assert (Hpos : (0 < 3)%Q) by (unfold Qlt; simpl; lia).
  assert (Hn0 : Examples.pr_detail 0 0 !! PR_MATCHES = Some 0%Q)
    by (vm_compute; reflexivity).
  assert (HM0 : Examples.pr_detail 0 0 !! PR_BOUNDARIES = Some 0%Q)
    by (vm_compute; reflexivity).
  assert (Hn1 : Examples.pr_detail 1 0 !! PR_MATCHES = Some 1%Q)
    by (vm_compute; reflexivity).
  assert (HM1 : Examples.pr_detail 1 0 !! PR_BOUNDARIES = Some 0%Q)
    by (vm_compute; reflexivity).
  assert (Hz : (0 == 0)%Q) by reflexivity.
  assert (Hnz : ~ (1 == 0)%Q) by (unfold Qeq; simpl; lia).
  split; [|split].
  - split; [exact Hn|]. split; [exact HM|]. split; [exact Hpos|].
    exact (proj1 (get_rate_spec (Examples.pr_detail 2 3) 2 3 Hn HM) Hpos).
  - split; [exact Hn0|]. split; [exact HM0|].
    exact (proj1 (proj2 (get_rate_spec (Examples.pr_detail 0 0) 0 0 Hn0 HM0))
             Hz Hz).
  - split; [exact Hn1|]. split; [exact HM1|]. split; [exact Hnz|].
    exact (proj2 (proj2 (get_rate_spec (Examples.pr_detail 1 0) 1 0 Hn1 HM1))
             Hz Hnz).
Defined.

(** C7.  The corner case of [_get_details].  When one of the structures has
    exactly one segment the Detail Record has 0 matches and [M] boundaries,
    and the example of the documentation gives a precision of 1 and a recall
    of 0.  An empty structure is not handled: an empty reference facing a
    hypothesis with two segments or more (or none) makes [np.zeros] raise
    [ValueError], and an empty hypothesis facing a reference of one segment
    is reported with [-1] boundaries. *)
Theorem corner_case_misses_empty_structure :
  (forall (tolerance : Q) (reference hypothesis : structure),
      length (as_timeline reference) = 0 ->
      length (as_timeline hypothesis) <> 1 ->
      _get_details tolerance reference hypothesis = Some (Raise ValueError))
  /\ (forall (tolerance : Q) (reference hypothesis : structure),
        length (as_timeline reference) = 1 ->
        length (as_timeline hypothesis) = 0 ->
        _get_details tolerance reference hypothesis
        = Some (Ok (Examples.pr_detail 0 (-1))))
  /\ SegmentationPrecision._get_details 0 Examples.empty Examples.hypothesis
     = Some (Raise ValueError)
  /\ SegmentationPrecision._get_details 0 Examples.single Examples.empty
     = Some (Ok (Examples.pr_detail 0 (-1)))
  /\ SegmentationPrecision.rate 0 Examples.reference Examples.single
     = Some (Ok 1%Q)
  /\ (exists r,
        SegmentationRecall.rate 0 Examples.reference Examples.single = Some (Ok r)
        /\ (r == 0)%Q).
Proof.
  split; [|split].
  - intros tolerance reference hypothesis Hr Hh.
    apply get_details_empty; lia.
  - intros tolerance reference hypothesis Hr Hh.
    rewrite get_details_corner by auto. by rewrite Hh.
  - repeat split; try (vm_compute; reflexivity).
    eexists. split; [vm_compute; reflexivity | reflexivity].
Qed.

Lemma corner_case_misses_empty_structure_witness :
  (length (as_timeline Examples.empty) = 0
   /\ length (as_timeline Examples.hypothesis) <> 1
   /\ _get_details 0 Examples.empty Examples.hypothesis = Some (Raise ValueError))
  /\ (length (as_timeline Examples.single) = 1
      /\ length (as_timeline Examples.empty) = 0
      /\ _get_details 0 Examples.single Examples.empty
         = Some (Ok (Examples.pr_detail 0 (-1)))).
Proof.
  assert (Hr : length (as_timeline Examples.empty) = 0) by reflexivity.
  assert (Hh : length (as_timeline Examples.hypothesis) <> 1)
    by (vm_compute; lia).
  assert (Hs : length (as_timeline Examples.single) = 1) by reflexivity.
  split.
  - split; [exact Hr|]. split; [exact Hh|].
    exact (proj1 corner_case_misses_empty_structure 0%Q Examples.empty
             Examples.hypothesis Hr Hh).
  - split; [exact Hs|]. split; [exact Hr|].
    exact (proj1 (proj2 corner_case_misses_empty_structure) 0%Q Examples.single
             Examples.empty Hs Hr).
Defined.

(** * The gap filler *)

Import SegmentationCoverage Filler.

Lemma seg_eqb_iff (s t : Segment) :
  seg_eqb s t = true
  <-> (seg_start s == seg_start t)%Q /\ (seg_end s == seg_end t)%Q.
Proof.
  unfold seg_eqb. rewrite andb_true_iff, !Qeq_bool_iff. reflexivity.
Qed.

Lemma seg_eqb_refl (s : Segment) : seg_eqb s s = true.
Proof. apply seg_eqb_iff. split; reflexivity. Qed.

Lemma seg_eqb_trans (s t u : Segment) :
  seg_eqb s t = true -> seg_eqb t u = true -> seg_eqb s u = true.
Proof.
  rewrite !seg_eqb_iff. intros [H1 H2] [H3 H4].
  split; [by rewrite H1 | by rewrite H2].
Qed.

Lemma duration_proper (s t : Segment) :
  seg_eqb s t = true -> (duration s == duration t)%Q.
Proof.
  rewrite seg_eqb_iff. intros [Hs He]. unfold duration.
  rewrite (Qltb_proper _ (seg_start t) _ (seg_end t)) by done.
  destruct (Qltb (seg_start t) (seg_end t)); [by rewrite Hs, He | reflexivity].
Qed.

Lemma seg_mem_add (x s : Segment) (t : Timeline) :
  seg_mem x (add s t) <-> seg_eqb x s = true \/ seg_mem x t.
Proof.
  unfold seg_mem. induction t as [|y t IH]; simpl.
  - rewrite Exists_cons, Exists_nil. tauto.
  - destruct (seg_eqb s y) eqn:Hsy.
    + split; [auto|]. intros [Hxs|H]; [|done].
      apply Exists_cons. left. by eapply seg_eqb_trans.
    + destruct (seg_ltb s y).
      * rewrite !Exists_cons. tauto.
      * rewrite !Exists_cons, IH. tauto.
Qed.

Lemma seg_mem_fill (tolerance : Q) (x : Segment) (gs acc : Timeline) :
  seg_mem x
    (fold_left
       (fun label_timeline gap =>
          if Qltb (duration gap) tolerance then add gap label_timeline
          else label_timeline)
       gs acc)
  <-> seg_mem x acc
      \/ exists g, g ∈ gs /\ Qltb (duration g) tolerance = true /\ seg_eqb x g = true.
Proof.
  revert acc. induction gs as [|g gs IH]; intros acc; simpl.
  - split; [auto|]. intros [H|(g & Hg & _)]; [done|]. by apply elem_of_nil in Hg.
  - rewrite IH. destruct (Qltb (duration g) tolerance) eqn:Hshort.
    + rewrite seg_mem_add. split.
      * intros [[Hxg|Hacc]|(g' & Hg' & Hs & Hx)]; eauto.
        -- right. exists g. split; [left|]. done.
        -- right. exists g'. split; [by right|]. done.
      * intros [Hacc|(g' & Hg' & Hs & Hx)]; [auto|].
        apply elem_of_cons in Hg' as [->|Hg']; [auto|].
        right. by exists g'.
    + split.
      * intros [Hacc|(g' & Hg' & Hs & Hx)]; [auto|].
        right. exists g'. split; [by right|]. done.
      * intros [Hacc|(g' & Hg' & Hs & Hx)]; [auto|].
        apply elem_of_cons in Hg' as [->|Hg']; [congruence|].
        right. by exists g'.
Qed.

(** *** Timelines are sorted *)

Lemma add_Forall (P : Segment -> Prop) (s : Segment) (t : Timeline) :
  P s -> Forall P t -> Forall P (add s t).
Proof.
  intros Hs Ht. induction Ht as [|y t Hy Ht IH]; simpl.
  - by constructor.
  - destruct (seg_eqb s y); [by constructor|].
    destruct (seg_ltb s y); by repeat constructor.
Qed.

Lemma seg_ltb_start (s y : Segment) :
  seg_ltb s y = true -> (seg_start s <= seg_start y)%Q.
Proof.
  unfold seg_ltb. rewrite orb_true_iff, andb_true_iff, Qltb_lt, Qeq_bool_iff.
  intros [H|[H _]]; lra.
Qed.

Lemma seg_ltb_false_start (s y : Segment) :
  seg_ltb s y = false -> (seg_start y <= seg_start s)%Q.
Proof.
  unfold seg_ltb. rewrite orb_false_iff, Qltb_ge. tauto.
Qed.

Lemma add_sorted (s : Segment) (t : Timeline) :
  sorted_starts t -> sorted_starts (add s t).
Proof.
  unfold sorted_starts. induction t as [|y t IH]; intros Ht; simpl.
  - repeat constructor.
  - apply StronglySorted_cons in Ht as [Hy Ht].
    destruct (seg_eqb s y); [by apply StronglySorted_cons|].
    destruct (seg_ltb s y) eqn:Hlt.
    + apply StronglySorted_cons. split; [|by apply StronglySorted_cons].
      apply seg_ltb_start in Hlt. constructor; [done|].
      eapply Forall_impl; [exact Hy|]. intros z Hz. simpl in Hz. lra.
    + apply StronglySorted_cons. split; [|by apply IH].
      apply add_Forall; [|done]. by apply seg_ltb_false_start.
Qed.

Lemma of_segments_sorted (l : list Segment) : sorted_starts (of_segments l).
Proof.
  unfold of_segments.
  assert (H : forall acc, sorted_starts acc ->
            sorted_starts (fold_left (fun t s => add s t) l acc)).
  { induction l as [|s l IH]; intros acc Hacc; simpl; [done|].
    by apply IH, add_sorted. }
  apply H. constructor.
Qed.

Lemma of_segments_Forall (P : Segment -> Prop) (l : list Segment) :
  Forall P l -> Forall P (of_segments l).
Proof.
  unfold of_segments.
  assert (H : forall acc, Forall P acc -> Forall P l ->
            Forall P (fold_left (fun t s => add s t) l acc)).
  { induction l as [|s l IH]; intros acc Hacc Hl; simpl; [done|].
    apply Forall_cons in Hl as [Hs Hl]. by apply IH; [apply add_Forall|]. }
  intros Hl. by apply H.
Qed.

Lemma label_timeline_ok (reference : Annotation) (label : string) :
  Forall (fun item : Segment * string => valid (fst item)) reference ->
  sorted_starts (label_timeline reference label)
  /\ Forall valid (label_timeline reference label).
Proof.
  intros Hv. unfold label_timeline. split; [apply of_segments_sorted|].
  apply of_segments_Forall. rewrite Forall_fmap.
  apply Forall_forall. intros item Hin.
  apply list_elem_of_filter in Hin as [_ Hin].
  rewrite Forall_forall in Hv. by apply Hv.
Qed.

(** *** The merged envelope *)

Lemma merge_from_head (cur : Segment) (l : Timeline) :
  exists c out, merge_from cur l = c :: out /\ seg_start c = seg_start cur.
Proof.
  revert cur. induction l as [|s l IH]; intros cur; simpl; [eauto|].
  destruct (Qltb (seg_end cur) (seg_start s)); [eauto|].
  destruct (IH (mkSegment (seg_start cur) (Qmax (seg_end cur) (seg_end s))))
    as (c & out & -> & Hc). eauto.
Qed.

Lemma merge_from_props (cur : Segment) (l : Timeline) :
  valid cur -> Forall valid l ->
  Forall (fun s => (seg_start cur <= seg_start s)%Q) l ->
  sorted_starts l ->
  Forall valid (merge_from cur l)
  /\ separated (merge_from cur l)
  /\ (forall x, contains cur x \/ Exists (fun y => contains y x) l ->
       Exists (fun c => contains c x) (merge_from cur l)).
Proof.
  revert cur. induction l as [|s l IH]; intros cur Hcur Hl Hge Hsort; simpl.
  - split; [by repeat constructor|]. split; [repeat constructor|].
    intros x [Hx|Hx]; [by left | by apply Exists_nil in Hx].
  - apply Forall_cons in Hl as [Hs Hl]. apply Forall_cons in Hge as [Hcs Hge].
    apply StronglySorted_cons in Hsort as [Hsl Hsort].
    destruct (Qltb (seg_end cur) (seg_start s)) eqn:E.
    + apply Qltb_lt in E.
      destruct (IH s Hs Hl Hsl Hsort) as (Hv & Hsep & Hcont).
      destruct (merge_from_head s l) as (c & out & Hm & Hc).
      split; [by constructor|]. split.
      * apply StronglySorted_cons. split; [|done].
        rewrite Hm in Hv, Hsep |- *.
        apply Forall_cons in Hv as [Hvc _].
        apply StronglySorted_cons in Hsep as [Hout _].
        unfold valid in Hvc. rewrite <- Hc in E. constructor; [lra|].
        eapply Forall_impl; [exact Hout|]. intros b Hb. simpl in Hb. lra.
      * intros x [Hx|Hx]; [by left|]. right. apply Hcont.
        apply Exists_cons in Hx. tauto.
    + apply Qltb_ge in E.
      pose proof (Q.le_max_l (seg_end cur) (seg_end s)) as Hmax1.
      pose proof (Q.le_max_r (seg_end cur) (seg_end s)) as Hmax2.
      unfold valid in Hcur.
      destruct (IH (mkSegment (seg_start cur) (Qmax (seg_end cur) (seg_end s))))
        as (Hv & Hsep & Hcont); try done.
      { unfold valid. simpl. lra. }
      split; [done|]. split; [done|].
      intros x [Hx|Hx]; apply Hcont.
      * left. unfold contains in *. simpl. lra.
      * apply Exists_cons in Hx as [Hx|Hx]; [|auto].
        left. unfold contains in *. simpl. lra.
Qed.

Lemma separated_lookup (l : Timeline) (a b : nat) (ca cb : Segment) :
  separated l -> a < b -> l !! a = Some ca -> l !! b = Some cb ->
  (seg_end ca < seg_start cb)%Q.
Proof.
  intros Hsep. revert a b. induction Hsep as [|c l Hsep IH Hc]; intros a b Hab Ha Hb.
  - by rewrite lookup_nil in Ha.
  - destruct b as [|b]; [lia|]. simpl in Hb. destruct a as [|a].
    + injection Ha as <-. rewrite Forall_forall in Hc. apply Hc.
      by eapply list_elem_of_lookup_2.
    + simpl in Ha. eapply IH; [|done..]. lia.
Qed.

Lemma gaps_lookup (t : Timeline) (g : Segment) :
  g ∈ gaps t ->
  exists i c1 c2,
    coverage t !! i = Some c1 /\ coverage t !! S i = Some c2
    /\ g = mkSegment (seg_end c1) (seg_start c2).
Proof.
  unfold gaps, pairwise. intros Hg.
  apply list_elem_of_fmap in Hg as ([c1 c2] & -> & Hp).
  apply list_elem_of_lookup in Hp as [i Hi].
  apply lookup_zip_Some in Hi as [H1 H2]. rewrite lookup_tail in H2.
  by exists i, c1, c2.
Qed.

(** A gap of a timeline is not one of its segments. *)
Lemma gap_not_member (t : Timeline) (g : Segment) :
  sorted_starts t -> Forall valid t -> g ∈ gaps t -> ~ seg_mem g t.
Proof.
  intros Hsort Hv Hg Hmem.
  apply gaps_lookup in Hg as (i & c1 & c2 & H1 & H2 & ->).
  destruct t as [|s t]; [simpl in H1; by rewrite lookup_nil in H1|].
  simpl in H1, H2.
  apply Forall_cons in Hv as [Hs Hv].
  apply StronglySorted_cons in Hsort as [Hge Hsort].
  destruct (merge_from_props s t Hs Hv Hge Hsort) as (Hval & Hsep & Hcont).
  pose proof (separated_lookup _ i (S i) c1 c2 Hsep (Nat.lt_succ_diag_r i) H1 H2) as Hgap.
  unfold seg_mem in Hmem. apply Exists_exists in Hmem as (x & Hx & Heq).
  apply seg_eqb_iff in Heq as [Hxs Hxe]. simpl in Hxs, Hxe.
  assert (Hex : Exists (fun c => contains c x) (merge_from s t)).
  { apply Hcont. apply elem_of_cons in Hx as [->|Hx].
    - left. unfold contains. lra.
    - right. apply Exists_exists. exists x. split; [done|].
      unfold contains. lra. }
  apply Exists_exists in Hex as (c & Hc & [Hcs Hce]).
  apply list_elem_of_lookup in Hc as [a Ha].
  rewrite Forall_forall in Hval.
  assert (Hvc : valid c) by (apply Hval; by eapply list_elem_of_lookup_2).
  assert (Hv1 : valid c1) by (apply Hval; by eapply list_elem_of_lookup_2).
  assert (Hv2 : valid c2) by (apply Hval; by eapply list_elem_of_lookup_2).
  unfold valid in *.
  destruct (Nat.lt_trichotomy a i) as [Hlt|[->|Hgt]].
  - pose proof (separated_lookup _ a i c c1 Hsep Hlt Ha H1). lra.
  - assert (c = c1) as -> by congruence. lra.
  - destruct (decide (a = S i)) as [->|Hne].
    + assert (c = c2) as -> by congruence. lra.
    + assert (Hlt : S i < a) by lia.
      pose proof (separated_lookup _ (S i) a c2 c Hsep Hlt H2 Ha). lra.
Qed.

Lemma coverage_props (t : Timeline) :
  sorted_starts t -> Forall valid t ->
  Forall valid (coverage t)
  /\ separated (coverage t)
  /\ (forall x, seg_mem x t -> Exists (fun c => contains c x) (coverage t)).
Proof.
  intros Hsort Hv. destruct t as [|s t]; simpl.
  - split; [constructor|]. split; [constructor|]. intros x Hx.
    by apply Exists_nil in Hx.
  - apply Forall_cons in Hv as [Hs Hv].
    apply StronglySorted_cons in Hsort as [Hge Hsort].
    destruct (merge_from_props s t Hs Hv Hge Hsort) as (Hval & Hsep & Hcont).
    split; [done|]. split; [done|]. intros x Hx. apply Hcont.
    unfold seg_mem in Hx. apply Exists_cons in Hx as [Hx|Hx].
    + left. apply seg_eqb_iff in Hx as [? ?]. unfold contains. lra.
    + right. eapply Exists_impl; [exact Hx|]. intros y Hy. simpl in Hy.
      apply seg_eqb_iff in Hy as [? ?]. unfold contains. lra.
Qed.

Lemma gaps_valid (t : Timeline) (g : Segment) :
  sorted_starts t -> Forall valid t -> g ∈ gaps t ->
  (seg_start g < seg_end g)%Q.
Proof.
  intros Hsort Hv Hg.
  apply gaps_lookup in Hg as (i & c1 & c2 & H1 & H2 & ->). simpl.
  destruct (coverage_props t Hsort Hv) as (_ & Hsep & _).
  apply (separated_lookup _ i (S i) c1 c2 Hsep); [lia | done | done].
Qed.

Lemma fill_fold_ok (tolerance : Q) (gs acc : Timeline) :
  Forall valid gs -> sorted_starts acc -> Forall valid acc ->
  let t' :=
    fold_left
      (fun label_timeline gap =>
         if Qltb (duration gap) tolerance then add gap label_timeline
         else label_timeline)
      gs acc in
  sorted_starts t' /\ Forall valid t'.
Proof.
  intros Hg. revert acc.
  induction Hg as [|g gs Hgv Hgs IH]; intros acc Hsort Hv; simpl; [done|].
  destruct (Qltb (duration g) tolerance).
  - apply IH; [by apply add_sorted | by apply add_Forall].
  - by apply IH.
Qed.

Lemma fill_gaps_ok (tolerance : Q) (t : Timeline) :
  sorted_starts t -> Forall valid t ->
  sorted_starts (fill_gaps tolerance t) /\ Forall valid (fill_gaps tolerance t).
Proof.
  intros Hsort Hv. unfold fill_gaps. apply fill_fold_ok; try done.
  apply Forall_forall. intros g Hg. unfold valid.
  pose proof (gaps_valid t g Hsort Hv Hg). lra.
Qed.

(** Every point of the merged envelope lies in a segment of the timeline. *)
Lemma merge_from_sound (l : Timeline) (cur : Segment) (S : Segment -> Prop) :
  (forall p, (seg_start cur <= p <= seg_end cur)%Q ->
     exists s, S s /\ (seg_start s <= p <= seg_end s)%Q) ->
  forall c p, c ∈ merge_from cur l -> (seg_start c <= p <= seg_end c)%Q ->
    exists s, (S s \/ s ∈ l) /\ (seg_start s <= p <= seg_end s)%Q.
Proof.
  revert cur S. induction l as [|s l IH]; intros cur S Hcur c p Hc Hp;
    simpl in Hc.
  - apply list_elem_of_singleton in Hc as ->.
    destruct (Hcur p Hp) as (s & Hs & Hps). eauto.
  - destruct (Qltb (seg_end cur) (seg_start s)) eqn:E.
    + apply elem_of_cons in Hc as [->|Hc].
      * destruct (Hcur p Hp) as (s' & Hs' & Hps). eauto.
      * destruct (IH s (fun x => x = s)) with (c := c) (p := p)
          as (s' & Hs' & Hps); try done.
        { intros q Hq. eauto. }
        exists s'. split; [|done]. right.
        destruct Hs' as [->|Hs']; [left | by right].
    + apply Qltb_ge in E.
      destruct (IH (mkSegment (seg_start cur) (Qmax (seg_end cur) (seg_end s)))
                  (fun x => S x \/ x = s)) with (c := c) (p := p)
        as (s' & Hs' & Hps); try done.
      { intros q [Hq1 Hq2]. simpl in Hq1, Hq2.
        destruct (Qlt_le_dec (seg_end cur) q) as [Hlt|Hle].
        - exists s. split; [by right|]. split; [lra|].
          destruct (Q.max_spec (seg_end cur) (seg_end s)) as [[_ Hm]|[_ Hm]];
            rewrite Hm in Hq2; lra.
        - destruct (Hcur q) as (s' & Hs' & Hqs); [lra|]. eauto. }
      exists s'. split; [|done].
      destruct Hs' as [[Hs'| ->]|Hs']; [by left | right; left | right; by right].
Qed.

Lemma coverage_sound (t : Timeline) (c : Segment) (p : Q) :
  c ∈ coverage t -> (seg_start c <= p <= seg_end c)%Q ->
  exists s, s ∈ t /\ (seg_start s <= p <= seg_end s)%Q.
Proof.
  destruct t as [|s0 t]; simpl; intros Hc Hp; [by apply elem_of_nil in Hc|].
  destruct (merge_from_sound t s0 (fun x => x = s0)) with (c := c) (p := p)
    as (s & Hs & Hps); try done.
  { intros q Hq. eauto. }
  exists s. split; [|done]. destruct Hs as [->|Hs]; [left | by right].
Qed.

(** A point strictly between two consecutive envelopes is in no envelope. *)
Lemma between_envelopes (cov : Timeline) (i a : nat) (c1 c2 e : Segment) (p : Q) :
  separated cov -> Forall valid cov ->
  cov !! i = Some c1 -> cov !! S i = Some c2 -> cov !! a = Some e ->
  (seg_end c1 < p)%Q -> (p < seg_start c2)%Q ->
  ~ (seg_start e <= p <= seg_end e)%Q.
Proof.
  intros Hsep Hval H1 H2 Ha Hp1 Hp2 [He1 He2].
  rewrite Forall_forall in Hval.
  assert (Hv1 : valid c1) by (apply Hval; by eapply list_elem_of_lookup_2).
  assert (Hv2 : valid c2) by (apply Hval; by eapply list_elem_of_lookup_2).
  unfold valid in *.
  destruct (Nat.lt_trichotomy a i) as [Hlt|[->|Hgt]].
  - pose proof (separated_lookup _ a i e c1 Hsep Hlt Ha H1). lra.
  - assert (e = c1) as -> by congruence. lra.
  - destruct (decide (a = S i)) as [->|Hne].
    + assert (e = c2) as -> by congruence. lra.
    + assert (Hlt : S i < a) by lia.
      pose proof (separated_lookup _ (S i) a c2 e Hsep Hlt H2 Ha). lra.
Qed.

Lemma elem_of_seg_mem (x : Segment) (t : Timeline) : x ∈ t -> seg_mem x t.
Proof.
  intros Hx. apply Exists_exists. exists x. split; [done | apply seg_eqb_refl].
Qed.

(** A gap that is not short is not covered once the short gaps are added. *)
Lemma long_gap_uncovered (tolerance : Q) (t : Timeline) (g : Segment) :
  sorted_starts t -> Forall valid t -> g ∈ gaps t ->
  Qltb (duration g) tolerance = false ->
  ~ Exists (fun c => contains c g) (coverage (fill_gaps tolerance t)).
Proof.
  intros Hsort Hv Hg Hlong Hex.
  pose proof Hg as Hg0.
  apply gaps_lookup in Hg as (i & c1 & c2 & H1 & H2 & ->).
  destruct (coverage_props t Hsort Hv) as (Hval & Hsep & Hcont).
  pose proof (separated_lookup _ i (S i) c1 c2 Hsep (Nat.lt_succ_diag_r i) H1 H2)
    as Hgap.
  apply Exists_exists in Hex as (c & Hc & [Hcs Hce]). simpl in Hcs, Hce.
  set (p := ((seg_end c1 + seg_start c2) * (1 # 2))%Q).
  assert (Hp : (seg_end c1 < p /\ p < seg_start c2)%Q) by (unfold p; lra).
  destruct Hp as [Hp1 Hp2].
  destruct (coverage_sound _ c p Hc) as (s & Hs & Hps); [lra|].
  apply elem_of_seg_mem in Hs. unfold fill_gaps in Hs.
  apply seg_mem_fill in Hs as [Hs|(g' & Hg' & Hshort & Heq)].
  - apply Hcont in Hs. apply Exists_exists in Hs as (e & He & [He1 He2]).
    apply list_elem_of_lookup in He as [a Ha].
    apply (between_envelopes _ i a c1 c2 e p Hsep Hval H1 H2 Ha Hp1 Hp2). lra.
  - apply seg_eqb_iff in Heq as [Hs1 Hs2].
    apply gaps_lookup in Hg' as (i' & c1' & c2' & H1' & H2' & ->).
    simpl in Hs1, Hs2.
    destruct (decide (i' = i)) as [->|Hne].
    + assert (c1' = c1) as -> by congruence.
      assert (c2' = c2) as -> by congruence. congruence.
    + rewrite Forall_forall in Hval.
      assert (Hv1 : valid c1) by (apply Hval; by eapply list_elem_of_lookup_2).
      assert (Hv2 : valid c2) by (apply Hval; by eapply list_elem_of_lookup_2).
      assert (Hv1' : valid c1') by (apply Hval; by eapply list_elem_of_lookup_2).
      assert (Hv2' : valid c2') by (apply Hval; by eapply list_elem_of_lookup_2).
      unfold valid in *.
      destruct (decide (i' < i)) as [Hlt|Hge].
      * destruct (decide (S i' = i)) as [Heq|Hne'].
        -- assert (c2' = c1) as -> by congruence. lra.
        -- assert (Hlt' : S i' < i) by lia.
           pose proof (separated_lookup _ (S i') i c2' c1 Hsep Hlt' H2' H1). lra.
      * destruct (decide (i' = S i)) as [->|Hne'].
        -- assert (c1' = c2) as -> by congruence. lra.
        -- assert (Hlt' : S i < i') by lia.
           pose proof (separated_lookup _ (S i) i' c2 c1' Hsep Hlt' H2 H1'). lra.
Qed.

(** * Coverage and purity *)



Lemma Qsum_app (l1 l2 : list Q) : (Qsum (l1 ++ l2) == Qsum l1 + Qsum l2)%Q.
Proof.
  unfold Qsum. induction l1 as [|x l1 IH]; simpl; [lra|]. rewrite IH. lra.
Qed.

Lemma sum_cons (row : list Q) (K : list (list Q)) :
  (total (row :: K) == Qsum row + total K)%Q.
Proof. unfold total. simpl. apply Qsum_app. Qed.











(** * Further properties of the boundary matcher *)

Lemma finite_cells_zero (n m : nat) (d : matrix) (i j : nat) (v : Q) :
  shaped n m d -> finite_cells d = 0 -> cell d i j = Some (Fin v) -> False.
Proof.
  intros Hs Hz Hc. apply (cell_ravel n m) in Hc as (_ & _ & Hc); [|done].
  unfold finite_cells in Hz.
  assert (Hin : Fin v ∈ filter (fun x => lt_inf x = true) (ravel d)).
  { apply list_elem_of_filter. split; [done|]. by eapply list_elem_of_lookup_2. }
  destruct (filter (fun x => lt_inf x = true) (ravel d)); [|discriminate].
  by apply elem_of_nil in Hin.
Qed.

Lemma selected_None_no_finite (n m : nat) (d : matrix) (i j : nat) (v : Q) :
  shaped n m d -> selected (Z.of_nat m) d = None ->
  cell d i j = Some (Fin v) -> False.
Proof.
  intros Hs Hsel Hc.
  assert (Hb : i < n /\ j < m) by (apply (cell_bounds n m d); [done | by eexists]).
  apply (selected_None n m) in Hsel; [|done|lia|lia].
  by eapply finite_cells_zero.
Qed.

(** When the run stops before the fuel is exhausted, every finite cell of
    the array has its row or its column among the selected cells. *)
Lemma matched_cells_maximal (n m : nat) (fuel : nat) (d : matrix)
    (i j : nat) (v : Q) :
  shaped n m d ->
  length (matched_cells fuel (Z.of_nat m) d) < fuel ->
  cell d i j = Some (Fin v) ->
  i ∈ fst <$> matched_cells fuel (Z.of_nat m) d
  \/ j ∈ snd <$> matched_cells fuel (Z.of_nat m) d.
Proof.
  revert d. induction fuel as [|fuel IH]; intros d Hs Hlen Hc; simpl in *; [lia|].
  destruct (selected (Z.of_nat m) d) as [[i0 j0]|] eqn:Hsel.
  - rewrite !fmap_cons. simpl in *.
    destruct (decide (i = i0)) as [->|Hi]; [left; left|].
    destruct (decide (j = j0)) as [->|Hj]; [right; left|].
    destruct (IH (masked i0 j0 d)) as [H|H].
    + by apply shaped_masked.
    + lia.
    + by apply (cell_masked n m).
    + left. by right.
    + right. by right.
  - exfalso. by eapply selected_None_no_finite.
Qed.

Lemma matches_fuel (tolerance : Q) (refB hypB : list Q) :
  0 < length refB -> 0 < length hypB ->
  length (matched_cells (S (length refB * length hypB)) (Z.of_nat (length hypB))
            (mask_gt tolerance (distances refB hypB)))
  < S (length refB * length hypB).
Proof.
  intros Hr Hh.
  pose proof (matched_cells_length (length refB) (length hypB)
                (S (length refB * length hypB))
                (mask_gt tolerance (distances refB hypB))
                (shaped_mask_gt _ _ _ _ (shaped_distances refB hypB))) as Hlen.
  assert (Nat.min (length refB) (length hypB) <= length refB * length hypB) by nia.
  lia.
Qed.

Lemma matches_maximal (tolerance : Q) (reference hypothesis : structure)
    (i j : nat) (r h : Q) :
  boundaries (as_timeline reference) !! i = Some r ->
  boundaries (as_timeline hypothesis) !! j = Some h ->
  (Qabs (r - h) <= tolerance)%Q ->
  i ∈ fst <$> matches tolerance reference hypothesis
  \/ j ∈ snd <$> matches tolerance reference hypothesis.
Proof.
  intros Hr Hh Hle. unfold matches.
  set (refB := boundaries (as_timeline reference)) in *.
  set (hypB := boundaries (as_timeline hypothesis)) in *.
  apply (matched_cells_maximal (length refB) (length hypB) _ _ i j (Qabs (r - h))).
  - apply shaped_mask_gt, shaped_distances.
  - apply matches_fuel.
    + apply lookup_lt_Some in Hr. lia.
    + apply lookup_lt_Some in Hh. lia.
  - rewrite cell_mask_gt, cell_distances, Hr, Hh. simpl. f_equal.
    by apply mask_cell_Fin.
Qed.

Lemma exists_fresh (l : list nat) (n : nat) :
  length l < n -> exists i, i < n /\ i ∉ l.
Proof.
  intros Hlen.
  destruct (decide (Forall (fun i => i ∈ l) (seq 0 n))) as [Hall|Hnot].
  - assert (Hsub : seq 0 n ⊆+ l).
    { apply NoDup_submseteq; [apply NoDup_seq|].
      intros x Hx. rewrite Forall_forall in Hall. by apply Hall. }
    apply submseteq_length in Hsub.
    assert (Hseq : length (seq 0 n) = n) by apply length_seq. lia.
  - apply not_Forall_Exists in Hnot; [|apply _].
    apply Exists_exists in Hnot as (i & Hi & Hni).
    apply elem_of_seq in Hi. exists i. split; [lia | done].
Qed.

Lemma Qdiv_unit_interval (k M : Z) :
  (0 <= k <= M)%Z -> (0 < M)%Z ->
  (0 <= inject_Z k / inject_Z M <= 1)%Q.
Proof.
  intros Hk HM.
  assert (HMq : (0 < inject_Z M)%Q)
    by (change 0%Q with (inject_Z 0); rewrite <- Zlt_Qlt; lia).
  assert (Hkq : (0 <= inject_Z k)%Q)
    by (change 0%Q with (inject_Z 0); rewrite <- Zle_Qle; lia).
  assert (HkM : (inject_Z k <= inject_Z M)%Q) by (rewrite <- Zle_Qle; lia).
  split.
  - apply Qle_shift_div_l; [done|]. lra.
  - apply Qle_shift_div_r; [done|]. lra.
Qed.

Lemma precision_rate_bounds (tolerance : Q) (reference hypothesis : structure)
    (d : Detail) :
  SegmentationPrecision._get_details tolerance reference hypothesis = Some (Ok d) ->
  exists r, SegmentationPrecision._get_rate d = Ok r /\ (0 <= r <= 1)%Q.
Proof.
  intros Hd. apply get_details_Ok in Hd as ->. rewrite get_rate_pr_detail.
  pose proof (matches_length tolerance reference hypothesis) as Hlen.
  pose proof (length_boundaries (as_timeline hypothesis)) as Hb.
  destruct (decide (length (as_timeline hypothesis) <= 1)) as [Hh|Hh].
  - rewrite matches_corner by lia. change (inject_Z (Z.of_nat (length []))) with 0%Q.
    destruct (Qeq_bool _ 0) eqn:E.
    + exists 1%Q. split; [reflexivity | lra].
    + eexists. split; [reflexivity|]. unfold Qdiv. rewrite Qmult_0_l. lra.
  - destruct (Qeq_bool _ 0) eqn:E.
    + apply Qeq_bool_iff in E. unfold Qeq, inject_Z in E. simpl in E. lia.
    + eexists. split; [reflexivity|]. apply Qdiv_unit_interval; lia.
Qed.

(** X1.  The rate of a precision or of a recall.  On every Detail Record
    that [_get_details] returns, [_get_rate] returns a number between 0 and
    1: the [ValueError] of [_get_rate] (no boundary but some matches) and
    its [KeyError] never occur after [_get_details]. *)
Theorem precision_recall_rate_in_unit_interval
    (tolerance : Q) (reference hypothesis : structure) (d : Detail) :
  (SegmentationPrecision._get_details tolerance reference hypothesis = Some (Ok d) ->
   exists r, SegmentationPrecision._get_rate d = Ok r /\ (0 <= r <= 1)%Q)
  /\ (SegmentationRecall._get_details tolerance reference hypothesis = Some (Ok d) ->
      exists r, SegmentationRecall._get_rate d = Ok r /\ (0 <= r <= 1)%Q).
Proof.
  split; [apply precision_rate_bounds|].
  unfold SegmentationRecall._get_details, SegmentationRecall._get_rate.
  apply precision_rate_bounds.
Qed.

Lemma precision_recall_rate_in_unit_interval_witness :
  (SegmentationPrecision._get_details 0 Examples.reference Examples.hypothesis
   = Some (Ok (Examples.pr_detail 2 3))
   /\ exists r, SegmentationPrecision._get_rate (Examples.pr_detail 2 3) = Ok r
               /\ (0 <= r <= 1)%Q)
  /\ (SegmentationRecall._get_details 0 Examples.reference Examples.hypothesis
      = Some (Ok (Examples.pr_detail 2 2))
      /\ exists r, SegmentationRecall._get_rate (Examples.pr_detail 2 2) = Ok r
                  /\ (0 <= r <= 1)%Q).
Proof.
  assert (Hp : SegmentationPrecision._get_details 0 Examples.reference
                 Examples.hypothesis = Some (Ok (Examples.pr_detail 2 3)))
    by (vm_compute; reflexivity).
  assert (Hr : SegmentationRecall._get_details 0 Examples.reference
                 Examples.hypothesis = Some (Ok (Examples.pr_detail 2 2)))
    by (vm_compute; reflexivity).
  split.
  - split; [exact Hp|].
    exact (proj1 (precision_recall_rate_in_unit_interval 0 Examples.reference
                    Examples.hypothesis (Examples.pr_detail 2 3)) Hp).
  - split; [exact Hr|].
    exact (proj2 (precision_recall_rate_in_unit_interval 0 Examples.reference
                    Examples.hypothesis (Examples.pr_detail 2 2)) Hr).
Defined.

(** X2.  The greedy matching is maximal.  When the loop of [_get_details]
    exits, a reference boundary and a hypothesis boundary that are within
    the tolerance of each other are never both left unmatched: two
    boundaries that are both unmatched are farther apart than the
    tolerance. *)
Theorem greedy_matching_is_maximal
    (tolerance : Q) (reference hypothesis : structure) (i j : nat) (r h : Q) :
  boundaries (as_timeline reference) !! i = Some r ->
  boundaries (as_timeline hypothesis) !! j = Some h ->
  ((Qabs (r - h) <= tolerance)%Q ->
   i ∈ fst <$> matches tolerance reference hypothesis
   \/ j ∈ snd <$> matches tolerance reference hypothesis)
  /\ (i ∉ fst <$> matches tolerance reference hypothesis ->
      j ∉ snd <$> matches tolerance reference hypothesis ->
      (tolerance < Qabs (r - h))%Q).
Proof.
  intros Hr Hh. split.
  - intros Hle. by eapply matches_maximal.
  - intros Hi Hj.
    destruct (Qlt_le_dec tolerance (Qabs (r - h))) as [|Hle]; [done|].
    destruct (matches_maximal tolerance reference hypothesis i j r h Hr Hh Hle);
      contradiction.
Qed.

Lemma greedy_matching_is_maximal_witness :
  boundaries (as_timeline Examples.reference) !! 1 = Some 2%Q
  /\ boundaries (as_timeline Examples.hypothesis) !! 2 = Some 3%Q
  /\ (Qabs (2 - 3) <= 1)%Q
  /\ (1 ∈ fst <$> matches 1 Examples.reference Examples.hypothesis
      \/ 2 ∈ snd <$> matches 1 Examples.reference Examples.hypothesis).
Proof.
  assert (Hr : boundaries (as_timeline Examples.reference) !! 1 = Some 2%Q)
    by (vm_compute; reflexivity).
  assert (Hh : boundaries (as_timeline Examples.hypothesis) !! 2 = Some 3%Q)
    by (vm_compute; reflexivity).
  assert (Hle : (Qabs (2 - 3) <= 1)%Q) by (vm_compute; discriminate).
  split; [exact Hr|]. split; [exact Hh|]. split; [exact Hle|].
  exact (proj1 (greedy_matching_is_maximal 1 Examples.reference
                  Examples.hypothesis 1 2 2 3 Hr Hh) Hle).
Defined.

Lemma matches_saturated (tolerance : Q) (reference hypothesis : structure) :
  (forall r h,
      r ∈ boundaries (as_timeline reference) ->
      h ∈ boundaries (as_timeline hypothesis) ->
      (Qabs (r - h) <= tolerance)%Q) ->
  length (matches tolerance reference hypothesis)
  = Nat.min (length (boundaries (as_timeline reference)))
      (length (boundaries (as_timeline hypothesis))).
Proof.
  intros Hall.
  pose proof (matches_length tolerance reference hypothesis) as Hle.
  destruct (matches_NoDup tolerance reference hypothesis) as [Hnr Hnc].
  set (cells := matches tolerance reference hypothesis) in *.
  set (refB := boundaries (as_timeline reference)) in *.
  set (hypB := boundaries (as_timeline hypothesis)) in *.
  destruct (decide (length cells < Nat.min (length refB) (length hypB)))
    as [Hlt|]; [|lia].
  destruct (exists_fresh (fst <$> cells) (length refB)) as (i & Hi & Hni);
    [rewrite length_fmap; lia|].
  destruct (exists_fresh (snd <$> cells) (length hypB)) as (j & Hj & Hnj);
    [rewrite length_fmap; lia|].
  destruct (lookup_lt_is_Some_2 refB i Hi) as [r Hr].
  destruct (lookup_lt_is_Some_2 hypB j Hj) as [h Hh].
  destruct (matches_maximal tolerance reference hypothesis i j r h Hr Hh);
    [|done|done].
  apply Hall; by eapply list_elem_of_lookup_2.
Qed.

(** X3.  A tolerance that no pair of boundaries exceeds.  When every
    reference boundary is within the tolerance of every hypothesis boundary,
    [_get_details] matches as many boundaries as the shorter of the two
    sequences has. *)
Theorem large_tolerance_matches_all
    (tolerance : Q) (reference hypothesis : structure) (d : Detail) :
  (forall r h,
      r ∈ boundaries (as_timeline reference) ->
      h ∈ boundaries (as_timeline hypothesis) ->
      (Qabs (r - h) <= tolerance)%Q) ->
  SegmentationPrecision._get_details tolerance reference hypothesis = Some (Ok d) ->
  d !! PR_MATCHES
  = Some (inject_Z (Z.of_nat
      (Nat.min (length (boundaries (as_timeline reference)))
         (length (boundaries (as_timeline hypothesis)))))).
Proof.
  intros Hall Hd. apply get_details_Ok in Hd as ->.
  rewrite lookup_insert_eq. by rewrite matches_saturated.
Qed.

Lemma large_tolerance_matches_all_witness :
  (forall r h,
      r ∈ boundaries (as_timeline Examples.reference) ->
      h ∈ boundaries (as_timeline Examples.hypothesis) ->
      (Qabs (r - h) <= 2)%Q)
  /\ SegmentationPrecision._get_details 2 Examples.reference Examples.hypothesis
     = Some (Ok (Examples.pr_detail 2 3))
  /\ Examples.pr_detail 2 3 !! PR_MATCHES
     = Some (inject_Z (Z.of_nat
         (Nat.min (length (boundaries (as_timeline Examples.reference)))
            (length (boundaries (as_timeline Examples.hypothesis)))))).
Proof.
  assert (Hall : forall r h,
             r ∈ boundaries (as_timeline Examples.reference) ->
             h ∈ boundaries (as_timeline Examples.hypothesis) ->
             (Qabs (r - h) <= 2)%Q).
  { replace (boundaries (as_timeline Examples.reference)) with [1%Q; 2%Q]
      by (vm_compute; reflexivity).
    replace (boundaries (as_timeline Examples.hypothesis)) with [1%Q; 2%Q; 3%Q]
      by (vm_compute; reflexivity).
    intros r h Hr Hh.
    repeat (apply elem_of_cons in Hr as [->|Hr]); [| |by apply elem_of_nil in Hr];
      repeat (apply elem_of_cons in Hh as [->|Hh]);
      try (by apply elem_of_nil in Hh); vm_compute; discriminate. }
  assert (Hd : SegmentationPrecision._get_details 2 Examples.reference
                 Examples.hypothesis = Some (Ok (Examples.pr_detail 2 3)))
    by (vm_compute; reflexivity).
  split; [exact Hall|]. split; [exact Hd|].
  exact (large_tolerance_matches_all 2 Examples.reference Examples.hypothesis
           (Examples.pr_detail 2 3) Hall Hd).
Defined.

(** X4.  A negative tolerance.  No distance is below a negative tolerance:
    the whole array is masked, [_get_details] reports no match, and a
    tolerance of [0] only matches boundaries that are equal. *)
Theorem small_tolerance_matches
    (tolerance : Q) (reference hypothesis : structure) :
  ((tolerance < 0)%Q ->
   matches tolerance reference hypothesis = []
   /\ forall d,
       SegmentationPrecision._get_details tolerance reference hypothesis
       = Some (Ok d) ->
       d !! PR_MATCHES = Some 0%Q)
  /\ ((tolerance == 0)%Q ->
      Forall
        (fun p : nat * nat =>
           exists r h,
             boundaries (as_timeline reference) !! fst p = Some r
             /\ boundaries (as_timeline hypothesis) !! snd p = Some h
             /\ (r == h)%Q)
        (matches tolerance reference hypothesis)).
Proof.
  split.
  - intros Hneg.
    assert (He : matches tolerance reference hypothesis = []).
    { pose proof (matches_within tolerance reference hypothesis) as Hall.
      destruct (matches tolerance reference hypothesis) as [|p l]; [done|].
      apply Forall_cons in Hall as [(r & h & _ & _ & Hle) _].
      pose proof (Qabs_nonneg (r - h)). lra. }
    split; [exact He|]. intros d Hd. apply get_details_Ok in Hd as ->.
    rewrite lookup_insert_eq, He. reflexivity.
  - intros Hz. eapply Forall_impl; [apply matches_within|].
    intros p (r & h & Hr & Hh & Hle). exists r, h. split; [done|]. split; [done|].
    assert (Habs : (Qabs (r - h) <= 0)%Q) by lra.
    apply Qabs_Qle_condition in Habs. lra.
Qed.

Lemma small_tolerance_matches_witness :
  (((-1) # 2 < 0)%Q
   /\ matches ((-1) # 2) Examples.reference Examples.hypothesis = [])
  /\ ((0 == 0)%Q
      /\ Forall
           (fun p : nat * nat =>
              exists r h,
                boundaries (as_timeline Examples.reference) !! fst p = Some r
                /\ boundaries (as_timeline Examples.hypothesis) !! snd p = Some h
                /\ (r == h)%Q)
           (matches 0 Examples.reference Examples.hypothesis)).
Proof.
  assert (Hneg : ((-1) # 2 < 0)%Q) by (vm_compute; reflexivity).
  assert (Hz : (0 == 0)%Q) by reflexivity.
  split.
  - split; [exact Hneg|].
    exact (proj1 (proj1 (small_tolerance_matches ((-1) # 2) Examples.reference
                           Examples.hypothesis) Hneg)).
  - split; [exact Hz|].
    exact (proj2 (small_tolerance_matches 0 Examples.reference
                    Examples.hypothesis) Hz).
Defined.

(** ** Identical structures *)

Import Balance.

Lemma cell_masked_other (d : matrix) (i j i' j' : nat) :
  i' <> i -> j' <> j -> cell (masked i j d) i' j' = cell d i' j'.
Proof.
  intros Hi Hj. unfold cell, masked.
  rewrite list_lookup_fmap, list_lookup_alter_ne by done.
  destruct (d !! i') as [row|]; simpl; [|done].
  by rewrite list_lookup_insert_ne.
Qed.

Lemma in_class_same (b : list Q) (x : Q) (i j : nat) :
  same_value b i j -> in_class b x i = in_class b x j.
Proof.
  intros (xi & xj & Hi & Hj & Heq). unfold in_class. rewrite Hi, Hj.
  destruct (Qeq_bool x xi) eqn:E1, (Qeq_bool x xj) eqn:E2; try done.
  - apply Qeq_bool_iff in E1. apply Qeq_bool_neq in E2. exfalso. apply E2.
    by rewrite E1.
  - apply Qeq_bool_iff in E2. apply Qeq_bool_neq in E1. exfalso. apply E1.
    by rewrite E2, Heq.
Qed.

Lemma filter_length_Forall2 (P : nat -> Prop) `{!forall i, Decision (P i)}
    (R : nat -> nat -> Prop) (rows cols : list nat) :
  (forall i j, R i j -> P i <-> P j) ->
  Forall2 R rows cols ->
  length (filter P rows) = length (filter P cols).
Proof.
  intros HR Hall. induction Hall as [|i j rows cols Hij Hall IH]; [done|].
  rewrite !filter_cons. specialize (HR i j Hij).
  destruct (decide (P i)), (decide (P j)); simpl; tauto || lia.
Qed.

(** When masked rows and columns pair up inside of classes, a class with
    a free row has a free column. *)
Lemma balanced_free (P : nat -> Prop) `{!forall i, Decision (P i)}
    (R : nat -> nat -> Prop) (rows cols : list nat) (n r : nat) :
  (forall i j, R i j -> P i <-> P j) ->
  (forall i, P i -> i < n) ->
  NoDup rows -> NoDup cols -> Forall2 R rows cols ->
  P r -> r ∉ rows ->
  exists c, P c /\ c ∉ cols.
Proof.
  intros HR Hn Hnr Hnc Hall Hr Hfree.
  pose proof (filter_length_Forall2 P R rows cols HR Hall) as Hlen.
  assert (Hrows : S (length (filter P rows)) <= length (filter P (seq 0 n))).
  { change (S (length (filter P rows))) with (length (r :: filter P rows)).
    apply submseteq_length, NoDup_submseteq.
    - constructor; [|by apply NoDup_filter].
      intros Hin. apply list_elem_of_filter in Hin. tauto.
    - intros x Hx. apply list_elem_of_filter.
      apply elem_of_cons in Hx as [->|Hx].
      + split; [done|]. apply elem_of_seq. specialize (Hn r Hr). lia.
      + apply list_elem_of_filter in Hx as [HP _]. split; [done|].
        apply elem_of_seq. specialize (Hn x HP). lia. }
  destruct (decide (Forall (fun c => c ∈ cols) (filter P (seq 0 n))))
    as [Hfull|Hnot].
  - assert (Hcols : length (filter P (seq 0 n)) <= length (filter P cols)).
    { apply submseteq_length, NoDup_submseteq.
      - apply NoDup_filter, NoDup_seq.
      - intros x Hx. rewrite Forall_forall in Hfull.
        apply list_elem_of_filter. split.
        + by apply list_elem_of_filter in Hx as [? _].
        + by apply Hfull. }
    lia.
  - apply not_Forall_Exists in Hnot; [|apply _].
    apply Exists_exists in Hnot as (c & Hc & Hnc').
    apply list_elem_of_filter in Hc as [HP _]. by exists c.
Qed.

Lemma NoDup_full (l : list nat) (n i : nat) :
  NoDup l -> Forall (fun x => x < n) l -> n <= length l -> i < n -> i ∈ l.
Proof.
  intros Hnd Hall Hlen Hi.
  assert (Hsub : l ⊆+ seq 0 n).
  { apply NoDup_submseteq; [done|]. intros x Hx.
    rewrite Forall_forall in Hall. apply elem_of_seq. specialize (Hall x Hx). lia. }
  assert (Hseq : length (seq 0 n) = n) by apply length_seq.
  apply submseteq_length_Permutation in Hsub; [|lia].
  rewrite Hsub. apply elem_of_seq. lia.
Qed.

Lemma balanced_rows_bounded (tolerance : Q) (b : list Q) (rows cols : list nat)
    (d : matrix) :
  balanced tolerance b rows cols d -> Forall (fun i => i < length b) rows.
Proof.
  intros (_ & _ & _ & Hall & _).
  induction Hall as [|i j rows cols (x & _ & Hi & _) Hall IH]; constructor; [|done].
  by eapply lookup_lt_Some.
Qed.

Lemma balanced_initial (tolerance : Q) (b : list Q) :
  balanced tolerance b [] [] (mask_gt tolerance (distances b b)).
Proof.
  split; [apply shaped_mask_gt, shaped_distances|].
  split; [constructor|]. split; [constructor|]. split; [constructor|].
  intros i j x y Hi Hj. rewrite cell_mask_gt, cell_distances, Hi, Hj. simpl.
  reflexivity.
Qed.

Lemma balanced_step (tolerance : Q) (b : list Q) (rows cols : list nat)
    (d : matrix) :
  (0 <= tolerance)%Q ->
  balanced tolerance b rows cols d ->
  length rows < length b ->
  exists i j,
    selected (Z.of_nat (length b)) d = Some (i, j)
    /\ balanced tolerance b (i :: rows) (j :: cols) (masked i j d).
Proof.
  intros Htol Hbal Hlen.
  pose proof Hbal as (Hs & Hnr & Hnc & Hall & Hcell).
  destruct (exists_fresh rows (length b) Hlen) as (r & Hr & Hfree).
  destruct (lookup_lt_is_Some_2 b r Hr) as [x Hx].
  destruct (balanced_free (fun i => in_class b x i = true) (same_value b)
              rows cols (length b) r) as (c & Hc & Hcfree); try done.
  { intros i j Hij. by rewrite (in_class_same b x i j Hij). }
  { intros i Hi. unfold in_class in Hi.
    destruct (b !! i) eqn:E; [|discriminate]. by eapply lookup_lt_Some. }
  { unfold in_class. rewrite Hx. apply Qeq_bool_iff. reflexivity. }
  unfold in_class in Hc. destruct (b !! c) as [y|] eqn:Hy; [|discriminate].
  apply Qeq_bool_iff in Hc.
  assert (Hzero : (Qabs (x - y) == 0)%Q).
  { assert (Hxy : (x - y == 0)%Q) by lra. by rewrite Hxy. }
  assert (Hrc : cell d r c = Some (Fin (Qabs (x - y)))).
  { rewrite (Hcell r c x y Hx Hy).
    destruct (decide _) as [[?|?]|_]; [done..|]. f_equal.
    apply mask_cell_Fin. split; [done | lra]. }
  destruct (selected (Z.of_nat (length b)) d) as [[i j]|] eqn:Hsel.
  2:{ exfalso. by eapply selected_None_no_finite. }
  exists i, j. split; [done|].
  destruct (selected_min_first _ _ d i j Hs Hsel) as (v & Hv & Hmin & _).
  destruct (proj1 (cell_bounds _ _ d i j Hs)) as [Hi Hj]; [by eexists|].
  destruct (lookup_lt_is_Some_2 b i Hi) as [xi Hxi].
  destruct (lookup_lt_is_Some_2 b j Hj) as [yj Hyj].
  pose proof (Hcell i j xi yj Hxi Hyj) as Hij. rewrite Hv in Hij.
  destruct (decide (i ∈ rows \/ j ∈ cols)) as [|Hnot]; [discriminate|].
  injection Hij as Hij. symmetry in Hij. apply mask_cell_Fin in Hij as [[= <-] _].
  specialize (Hmin r c _ Hrc). apply fl_le_Fin in Hmin.
  assert (Hsame : (xi == yj)%Q).
  { assert (Habs : (Qabs (xi - yj) <= 0)%Q) by lra.
    apply Qabs_Qle_condition in Habs. lra. }
  split; [by apply shaped_masked|].
  split; [constructor; tauto|]. split; [constructor; tauto|].
  split; [constructor; [by exists xi, yj | done]|].
  intros i' j' x' y' Hx' Hy'.
  destruct (decide (i' = i \/ j' = j)) as [Heq|Hne].
  - rewrite (cell_masked_Inf _ _ d i j i' j' Hs);
      [| by eapply lookup_lt_Some | by eapply lookup_lt_Some | done].
    destruct (decide _) as [|Hn]; [done|].
    exfalso. apply Hn. destruct Heq as [->| ->]; [left; left | right; left].
  - rewrite cell_masked_other by tauto. rewrite (Hcell i' j' x' y' Hx' Hy').
    destruct (decide (i' ∈ rows \/ j' ∈ cols)) as [Hin|Hnin],
      (decide (i' ∈ i :: rows \/ j' ∈ j :: cols)) as [Hin'|Hnin']; try done.
    + exfalso. apply Hnin'. destruct Hin; [left | right]; by right.
    + exfalso. apply Hnin.
      destruct Hin' as [Hin'|Hin']; apply elem_of_cons in Hin' as [->|?]; tauto.
Qed.

Lemma balanced_stop (tolerance : Q) (b : list Q) (rows cols : list nat)
    (d : matrix) :
  balanced tolerance b rows cols d ->
  length b <= length rows ->
  selected (Z.of_nat (length b)) d = None.
Proof.
  intros Hbal Hlen.
  pose proof (balanced_rows_bounded _ _ _ _ _ Hbal) as Hbound.
  destruct Hbal as (Hs & Hnr & Hnc & Hall & Hcell).
  destruct (selected (Z.of_nat (length b)) d) as [[i j]|] eqn:Hsel; [|done].
  exfalso.
  destruct (selected_Some _ _ d i j Hs Hsel) as (k & v & _ & _ & _ & _ & Hi & Hj & Hv).
  destruct (lookup_lt_is_Some_2 b i Hi) as [xi Hxi].
  destruct (lookup_lt_is_Some_2 b j Hj) as [yj Hyj].
  rewrite (Hcell i j xi yj Hxi Hyj) in Hv.
  destruct (decide _) as [|Hn]; [discriminate|].
  apply Hn. left. by apply (NoDup_full rows (length b)).
Qed.

Lemma balanced_count (tolerance : Q) (b : list Q) (fuel : nat)
    (rows cols : list nat) (d : matrix) :
  (0 <= tolerance)%Q ->
  balanced tolerance b rows cols d ->
  length b - length rows <= fuel ->
  length (matched_cells fuel (Z.of_nat (length b)) d) = length b - length rows.
Proof.
  intros Htol. revert rows cols d.
  induction fuel as [|fuel IH]; intros rows cols d Hbal Hfuel; simpl; [lia|].
  destruct (decide (length rows < length b)) as [Hlt|Hge].
  - destruct (balanced_step tolerance b rows cols d Htol Hbal Hlt)
      as (i & j & -> & Hbal').
    simpl. rewrite (IH (i :: rows) (j :: cols)); simpl; [lia | done | lia].
  - rewrite (balanced_stop tolerance b rows cols d Hbal) by lia. simpl. lia.
Qed.

Lemma matches_identical (tolerance : Q) (x : structure) :
  (0 <= tolerance)%Q ->
  length (matches tolerance x x) = length (boundaries (as_timeline x)).
Proof.
  intros Htol. unfold matches.
  rewrite (balanced_count tolerance _ _ [] []); simpl; [lia | done | | nia].
  apply balanced_initial.
Qed.

Lemma precision_identical (tolerance : Q) (x : structure) :
  (0 <= tolerance)%Q -> 1 <= length (as_timeline x) ->
  exists r, SegmentationPrecision.rate tolerance x x = Some (Ok r) /\ (r == 1)%Q.
Proof.
  intros Htol Hlen. unfold SegmentationPrecision.rate.
  rewrite get_details_eq. destruct (decide _) as [|_]; [lia|].
  rewrite get_rate_pr_detail, matches_identical by done.
  pose proof (length_boundaries (as_timeline x)) as Hb. rewrite Hb.
  replace (Z.of_nat (length (as_timeline x)) - 1)%Z
    with (Z.of_nat (length (as_timeline x) - 1)) by lia.
  destruct (Qeq_bool _ 0) eqn:E.
  - exists 1%Q. split; [done | reflexivity].
  - eexists. split; [reflexivity|]. apply Qeq_bool_neq in E.
    unfold Qdiv. by apply Qmult_inv_r.
Qed.

(** X5.  A structure compared with itself.  For a non-negative tolerance
    and a structure that has at least one segment, every boundary is
    matched: the precision and the recall of the structure against itself
    are 1, also when several of its boundaries hold the same value. *)
Theorem identical_structures_score_one (tolerance : Q) (x : structure) :
  (0 <= tolerance)%Q -> 1 <= length (as_timeline x) ->
  length (matches tolerance x x) = length (boundaries (as_timeline x))
  /\ (exists r, SegmentationPrecision.rate tolerance x x = Some (Ok r)
                /\ (r == 1)%Q)
  /\ (exists r, SegmentationRecall.rate tolerance x x = Some (Ok r)
                /\ (r == 1)%Q).
Proof.
  intros Htol Hlen. split; [by apply matches_identical|].
  split; by apply precision_identical.
Qed.

Lemma identical_structures_score_one_witness :
  (0 <= 0)%Q
  /\ 1 <= length (as_timeline Examples.hypothesis)
  /\ length (matches 0 Examples.hypothesis Examples.hypothesis)
     = length (boundaries (as_timeline Examples.hypothesis)).
Proof.
  assert (Htol : (0 <= 0)%Q) by (vm_compute; discriminate).
  assert (Hlen : 1 <= length (as_timeline Examples.hypothesis))
    by (vm_compute; lia).
  split; [exact Htol|]. split; [exact Hlen|].
  exact (proj1 (identical_structures_score_one 0 Examples.hypothesis Htol Hlen)).
Defined.

(** * Further properties of coverage and purity *)

Lemma duration_nonneg (s : Segment) : (0 <= duration s)%Q.
Proof.
  unfold duration. destruct (Qltb (seg_start s) (seg_end s)) eqn:E; [|lra].
  apply Qltb_lt in E. lra.
Qed.

Lemma cooccurrence_nonneg (a b : Annotation) :
  Forall (Forall (fun q => (0 <= q)%Q)) (cells (cooccurrence a b)).
Proof.
  unfold cooccurrence. cbn [cells]. rewrite Forall_fmap. apply Forall_forall. intros x _.
  simpl. rewrite Forall_fmap. apply Forall_forall. intros y _. simpl.
  apply duration_nonneg.
Qed.

Lemma fold_Qmax_bounds (l : list Q) (x : Q) :
  (0 <= x)%Q -> Forall (fun q => (0 <= q)%Q) l ->
  (0 <= fold_left Qmax l x <= x + Qsum l)%Q.
Proof.
  intros Hx Hl. revert x Hx. induction Hl as [|y l Hy Hl IH]; intros x Hx.
  - unfold Qsum. simpl. lra.
  - change (fold_left Qmax (y :: l) x) with (fold_left Qmax l (Qmax x y)).
    change (Qsum (y :: l)) with (y + Qsum l)%Q.
    pose proof (Q.le_max_l x y) as H1.
    assert (H2 : (Qmax x y <= x + y)%Q) by (apply Q.max_lub; lra).
    destruct (IH (Qmax x y)) as [H3 H4]; [lra|]. lra.
Qed.

Lemma row_maxima_bounds (K : list (list Q)) (maxima : list Q) :
  Forall (Forall (fun q => (0 <= q)%Q)) K ->
  row_maxima K = Ok maxima ->
  (0 <= Qsum maxima <= total K)%Q.
Proof.
  intros HK. revert maxima. induction HK as [|row K Hrow HK IH]; intros maxima Hm.
  - injection Hm as <-. unfold total, Qsum. simpl. lra.
  - simpl in Hm. unfold row_max in Hm.
    destruct row as [|x row]; [discriminate|]. cbn [rbind] in Hm.
    destruct (row_maxima K) as [ms|] eqn:E; [|discriminate]. cbn [rbind] in Hm.
    injection Hm as <-. specialize (IH ms eq_refl).
    apply Forall_cons in Hrow as [Hx Hrow].
    pose proof (fold_Qmax_bounds row x Hx Hrow) as Hb.
    rewrite sum_cons.
    change (Qsum (fold_left Qmax row x :: ms))
      with (fold_left Qmax row x + Qsum ms)%Q.
    change (Qsum (x :: row)) with (x + Qsum row)%Q. lra.
Qed.

Lemma max_axis1_bounds (K : ndarray) (maxima : list Q) :
  Forall (Forall (fun q => (0 <= q)%Q)) (cells K) ->
  max_axis1 K = Ok maxima ->
  (0 <= Qsum maxima <= sum K)%Q.
Proof.
  unfold max_axis1, sum. intros HK Hm.
  destruct (snd (shape K)); [discriminate|]. by apply row_maxima_bounds.
Qed.

Lemma row_maxima_cooccurrence (a b : Annotation) :
  b <> [] -> exists maxima, row_maxima (cells (cooccurrence a b)) = Ok maxima.
Proof.
  intros Hb. unfold cooccurrence. cbn [cells].
  induction a as [|x a IH]; [by eexists|].
  destruct IH as [ms Hms]. destruct b as [|y b]; [done|].
  rewrite fmap_cons. cbn [row_maxima]. rewrite Hms.
  rewrite fmap_cons. cbn [row_max rbind]. by eexists.
Qed.

Lemma max_axis1_cooccurrence (a b : Annotation) :
  (b = [] -> max_axis1 (cooccurrence a b) = Raise ValueError)
  /\ (b <> [] -> exists maxima, max_axis1 (cooccurrence a b) = Ok maxima).
Proof.
  split.
  - intros ->. reflexivity.
  - intros Hb. destruct (row_maxima_cooccurrence a b Hb) as [ms Hms].
    exists ms. unfold max_axis1. cbn [cooccurrence shape snd].
    destruct b as [|y b]; [done|]. exact Hms.
Qed.

Lemma process_cases (a b : Annotation) :
  (b = [] -> _process a b = Raise ValueError)
  /\ (b <> [] ->
      exists total inter,
        _process a b = Ok (Examples.cp_detail total inter)
        /\ (0 <= inter <= total)%Q).
Proof.
  destruct (max_axis1_cooccurrence a b) as [Hraise Hok]. split.
  - intros H. unfold _process. by rewrite (Hraise H).
  - intros H. destruct (Hok H) as [maxima Hm].
    exists (sum (cooccurrence a b)), (Qsum maxima). split.
    + unfold _process. rewrite Hm. reflexivity.
    + by apply max_axis1_bounds; [apply cooccurrence_nonneg|].
Qed.

Lemma process_no_rows (b : Annotation) :
  b <> [] -> _process [] b = Ok (Examples.cp_detail 0 0).
Proof. intros Hb. destruct b as [|y b]; [done|]. reflexivity. Qed.

(** X6.  The outcomes of the Co-occurrence Scorer [_process].  It raises
    [ValueError] (the maximum along an axis of length zero) exactly when
    the second partition has no interval, whether the first has intervals
    or not, and raises nothing else; otherwise it returns a Detail Record
    whose intersection duration lies between 0 and its total duration, both
    being 0 when the first partition has no interval. *)
Theorem process_outcomes (a b : Annotation) :
  (_process a b = Raise ValueError <-> b = [])
  /\ (forall e, _process a b = Raise e -> e = ValueError)
  /\ (b <> [] ->
      exists total inter,
        _process a b = Ok (Examples.cp_detail total inter)
        /\ (0 <= inter <= total)%Q)
  /\ (a = [] -> b <> [] -> _process a b = Ok (Examples.cp_detail 0 0)).
Proof.
  destruct (process_cases a b) as [Hraise Hok].
  split; [|split; [|split]].
  - split; [|exact Hraise]. intros He.
    destruct b as [|y b]; [done|].
    destruct Hok as (total & inter & Hp & _); [done|]. congruence.
  - intros e He. destruct b as [|y b].
    + rewrite Hraise in He by done. by injection He.
    + destruct Hok as (total & inter & Hp & _); [done|]. congruence.
  - exact Hok.
  - intros -> Hb. by apply process_no_rows.
Qed.

Lemma process_outcomes_witness :
  (@nil (Segment * string) = []
   /\ _process [(mkSegment 0 1, "A"%string)] [] = Raise ValueError
   /\ _process [] [] = Raise ValueError)
  /\ (Examples.two_labels <> []
      /\ (exists total inter,
            _process Examples.one_label Examples.two_labels
            = Ok (Examples.cp_detail total inter)
            /\ (0 <= inter <= total)%Q)
      /\ _process [] Examples.two_labels = Ok (Examples.cp_detail 0 0)).
Proof.
  assert (H1 : @nil (Segment * string) = []) by reflexivity.
  assert (H2 : Examples.two_labels <> []) by discriminate.
  split.
  - split; [exact H1|]. split.
    + exact (proj2 (proj1 (process_outcomes [(mkSegment 0 1, "A"%string)] [])) H1).
    + exact (proj2 (proj1 (process_outcomes [] [])) H1).
  - split; [exact H2|]. split.
    + exact (proj1 (proj2 (proj2 (process_outcomes Examples.one_label
                                    Examples.two_labels))) H2).
    + exact (proj2 (proj2 (proj2 (process_outcomes [] Examples.two_labels)))
               eq_refl H2).
Defined.

Lemma coverage_get_rate_detail (total inter : Q) :
  SegmentationCoverage._get_rate (Examples.cp_detail total inter)
  = if Qeq_bool total 0 then Raise ZeroDivisionError else Ok (inter / total)%Q.
Proof.
  unfold SegmentationCoverage._get_rate, getitem, Examples.cp_detail.
  rewrite lookup_insert_eq. cbn [rbind].
  rewrite lookup_insert_ne by done. rewrite lookup_insert_eq. reflexivity.
Qed.

Lemma process_rate_bounds (a b : Annotation) (d : Detail) (r : Q) :
  _process a b = Ok d -> SegmentationCoverage._get_rate d = Ok r ->
  (0 <= r <= 1)%Q.
Proof.
  intros Hd Hr.
  destruct (decide (b = [])) as [H|H].
  - rewrite (proj1 (process_cases a b) H) in Hd. discriminate.
  - destruct (proj2 (process_cases a b) H) as (total & inter & Hp & Hb).
    rewrite Hp in Hd. injection Hd as <-.
    rewrite coverage_get_rate_detail in Hr.
    destruct (Qeq_bool total 0) eqn:E; [discriminate|]. injection Hr as <-.
    apply Qeq_bool_neq in E.
    assert (Hpos : (0 < total)%Q).
    { destruct (Qlt_le_dec 0 total) as [|Hle]; [done|].
      exfalso. apply E. lra. }
    split.
    + apply Qle_shift_div_l; [done|]. lra.
    + apply Qle_shift_div_r; [done|]. lra.
Qed.

(** X7.  The rate of a coverage or of a purity.  Whenever the metric
    returns a rate on a pair of structures, this rate lies between 0 and
    1. *)
Theorem coverage_purity_rate_in_unit_interval
    (tolerance : Q) (reference hypothesis : structure) (r : Q) :
  (SegmentationCoverage.rate tolerance reference hypothesis = Ok r ->
   (0 <= r <= 1)%Q)
  /\ (SegmentationPurity.rate tolerance reference hypothesis = Ok r ->
      (0 <= r <= 1)%Q).
Proof.
  split.
  - unfold SegmentationCoverage.rate, SegmentationCoverage._get_details.
    intros H. inv_result. by eapply process_rate_bounds.
  - unfold SegmentationPurity.rate, SegmentationPurity._get_details.
    intros H. inv_result. by eapply process_rate_bounds.
Qed.

Lemma coverage_purity_rate_in_unit_interval_witness :
  (SegmentationCoverage.rate (1 # 2) (IsAnnotation Examples.one_label)
     (IsAnnotation Examples.two_labels) = Ok (1 # 2)%Q
   /\ (0 <= 1 # 2 <= 1)%Q)
  /\ (SegmentationPurity.rate (1 # 2) (IsAnnotation Examples.one_label)
        (IsAnnotation Examples.two_labels) = Ok (2 # 2)%Q
      /\ (0 <= 2 # 2 <= 1)%Q).
Proof.
  assert (HC : SegmentationCoverage.rate (1 # 2) (IsAnnotation Examples.one_label)
                 (IsAnnotation Examples.two_labels) = Ok (1 # 2)%Q)
    by (vm_compute; reflexivity).
  assert (HP : SegmentationPurity.rate (1 # 2) (IsAnnotation Examples.one_label)
                 (IsAnnotation Examples.two_labels) = Ok (2 # 2)%Q)
    by (vm_compute; reflexivity).
  split.
  - split; [exact HC|].
    exact (proj1 (coverage_purity_rate_in_unit_interval (1 # 2)
                    (IsAnnotation Examples.one_label)
                    (IsAnnotation Examples.two_labels) (1 # 2)) HC).
  - split; [exact HP|].
    exact (proj2 (coverage_purity_rate_in_unit_interval (1 # 2)
                    (IsAnnotation Examples.one_label)
                    (IsAnnotation Examples.two_labels) (2 # 2)) HP).
Defined.

Lemma process_not_TypeError (a b : Annotation) : _process a b <> Raise TypeError.
Proof.
  destruct (decide (b = [])) as [H|H].
  - by rewrite (proj1 (process_cases a b) H).
  - destruct (proj2 (process_cases a b) H) as (total & inter & Hp & _).
    by rewrite Hp.
Qed.

(** X8.  The type check of [_preprocess].  [_get_details] of a coverage or
    of a purity raises [TypeError] exactly when the reference is a timeline
    and not an annotation; the hypothesis may be either, and only its
    timeline is read. *)
Theorem reference_must_be_annotation
    (tolerance : Q) (reference hypothesis : structure) :
  (SegmentationCoverage._get_details tolerance reference hypothesis
   = Raise TypeError
   <-> exists t, reference = IsTimeline t)
  /\ (SegmentationPurity._get_details tolerance reference hypothesis
      = Raise TypeError
      <-> exists t, reference = IsTimeline t)
  /\ (forall h : Annotation,
        SegmentationCoverage._get_details tolerance reference (IsAnnotation h)
        = SegmentationCoverage._get_details tolerance reference
            (IsTimeline (get_timeline h))
        /\ SegmentationPurity._get_details tolerance reference (IsAnnotation h)
           = SegmentationPurity._get_details tolerance reference
               (IsTimeline (get_timeline h))).
Proof.
  unfold SegmentationCoverage._get_details, SegmentationPurity._get_details.
  split; [|split].
  - destruct reference as [a|t]; simpl.
    + split; [|intros [t Ht]; discriminate]. intros H.
      by apply process_not_TypeError in H.
    + split; [eauto | done].
  - destruct reference as [a|t]; simpl.
    + split; [|intros [t Ht]; discriminate]. intros H.
      by apply process_not_TypeError in H.
    + split; [eauto | done].
  - intros h. by destruct reference.
Qed.

Lemma reference_must_be_annotation_witness :
  (exists t, Examples.reference = IsTimeline t)
  /\ SegmentationCoverage._get_details (1 # 2) Examples.reference
       (IsAnnotation Examples.two_labels) = Raise TypeError
  /\ SegmentationPurity._get_details (1 # 2) Examples.reference
       (IsAnnotation Examples.two_labels) = Raise TypeError.
Proof.
  assert (Ht : exists t, Examples.reference = IsTimeline t)
    by (eexists; reflexivity).
  split; [exact Ht|]. split.
  - exact (proj2 (proj1 (reference_must_be_annotation (1 # 2) Examples.reference
                           (IsAnnotation Examples.two_labels))) Ht).
  - exact (proj2 (proj1 (proj2 (reference_must_be_annotation (1 # 2)
                                  Examples.reference
                                  (IsAnnotation Examples.two_labels)))) Ht).
Defined.

(** ** The gap filler only adds *)

Lemma seg_mem_fold_add (x : Segment) (l acc : Timeline) :
  seg_mem x acc \/ x ∈ l -> seg_mem x (fold_left (fun t s => add s t) l acc).
Proof.
  revert acc. induction l as [|s l IH]; intros acc [H|H]; simpl.
  - done.
  - by apply elem_of_nil in H.
  - apply IH. left. apply seg_mem_add. by right.
  - apply IH. apply elem_of_cons in H as [->|H]; [|by right].
    left. apply seg_mem_add. left. apply seg_eqb_refl.
Qed.

Lemma fold_add_ok (l acc : Timeline) :
  Forall valid l -> sorted_starts acc -> Forall valid acc ->
  sorted_starts (fold_left (fun t s => add s t) l acc)
  /\ Forall valid (fold_left (fun t s => add s t) l acc).
Proof.
  intros Hl. revert acc. induction Hl as [|s l Hs Hl IH]; intros acc Hsort Hv;
    simpl; [done|].
  apply IH; [by apply add_sorted | by apply add_Forall].
Qed.

Lemma label_coverage_valid (tolerance : Q) (reference : Annotation)
    (label : string) :
  Forall (fun item : Segment * string => valid (fst item)) reference ->
  Forall valid (coverage (fill_gaps tolerance (label_timeline reference label))).
Proof.
  intros Hv. destruct (label_timeline_ok reference label Hv) as [Hs Hval].
  destruct (fill_gaps_ok tolerance _ Hs Hval) as [Hs' Hval'].
  by apply (coverage_props _ Hs' Hval').
Qed.

Lemma filled_fold_ok (tolerance : Q) (reference : Annotation)
    (ls : list string) (acc : Timeline) :
  Forall (fun item : Segment * string => valid (fst item)) reference ->
  sorted_starts acc -> Forall valid acc ->
  let t :=
    fold_left
      (fun filled label =>
         let label_timeline := fill_gaps tolerance (label_timeline reference label) in
         fold_left (fun filled segment => add segment filled)
           (coverage label_timeline) filled)
      ls acc in
  sorted_starts t /\ Forall valid t.
Proof.
  intros Hv. revert acc. induction ls as [|l ls IH]; intros acc Hs Hval; simpl;
    [done|].
  destruct (fold_add_ok
              (coverage (fill_gaps tolerance (label_timeline reference l))) acc)
    as [Hs' Hval']; try done.
  { by apply label_coverage_valid. }
  by apply IH.
Qed.

Lemma filled_fold_mem (tolerance : Q) (reference : Annotation)
    (ls : list string) (acc : Timeline) (c : Segment) :
  seg_mem c acc
  \/ (exists l, l ∈ ls
       /\ c ∈ coverage (fill_gaps tolerance (label_timeline reference l))) ->
  seg_mem c
    (fold_left
       (fun filled label =>
          let label_timeline := fill_gaps tolerance (label_timeline reference label) in
          fold_left (fun filled segment => add segment filled)
            (coverage label_timeline) filled)
       ls acc).
Proof.
  revert acc. induction ls as [|l ls IH]; intros acc H; simpl.
  - destruct H as [H|(l & Hl & _)]; [done | by apply elem_of_nil in Hl].
  - apply IH. destruct H as [H|(l' & Hl' & Hc)].
    + left. apply seg_mem_fold_add. by left.
    + apply elem_of_cons in Hl' as [->|Hl'].
      * left. apply seg_mem_fold_add. by right.
      * right. by exists l'.
Qed.

Lemma contains_trans (a b c : Segment) :
  contains a b -> contains b c -> contains a c.
Proof. unfold contains. intros [? ?] [? ?]. split; lra. Qed.

Lemma contains_seg_eqb (c x y : Segment) :
  seg_eqb x y = true -> contains c y -> contains c x.
Proof.
  rewrite seg_eqb_iff. unfold contains. intros [? ?] [? ?]. split; lra.
Qed.

(** X9.  Gap filling only adds.  Every interval of a reference whose
    intervals have their start before their end lies inside of one segment
    of the coverage region that [_preprocess] computes, whatever the
    tolerance. *)
Theorem filled_coverage_contains_reference
    (tolerance : Q) (reference : Annotation) (s : Segment) (label : string) :
  Forall (fun item : Segment * string => valid (fst item)) reference ->
  (s, label) ∈ reference ->
  Exists (fun c => contains c s) (coverage (filled tolerance reference)).
Proof.
  intros Hv Hin.
  destruct (label_timeline_ok reference label Hv) as [Hs Hval].
  destruct (fill_gaps_ok tolerance _ Hs Hval) as [Hs' Hval'].
  assert (Hmem : seg_mem s (fill_gaps tolerance (label_timeline reference label))).
  { unfold fill_gaps. apply seg_mem_fill. left.
    unfold label_timeline, of_segments. apply seg_mem_fold_add. right.
    apply list_elem_of_fmap. exists (s, label). split; [done|].
    by apply list_elem_of_filter. }
  apply (coverage_props _ Hs' Hval') in Hmem.
  apply Exists_exists in Hmem as (c & Hc & Hcs).
  assert (Hfilled : seg_mem c (filled tolerance reference)).
  { unfold filled. apply filled_fold_mem. right. exists label. split; [|done].
    unfold labels. apply elem_of_remove_dups, list_elem_of_fmap.
    by exists (s, label). }
  destruct (filled_fold_ok tolerance reference (labels reference) [] Hv)
    as [Hsf Hvf]; [constructor | constructor |].
  apply (coverage_props _ Hsf Hvf) in Hfilled.
  eapply Exists_impl; [exact Hfilled|]. intros c' Hc'. simpl in Hc'.
  by eapply contains_trans.
Qed.

Lemma filled_coverage_contains_reference_witness :
  Forall (fun item : Segment * string => valid (fst item)) Examples.short_gap
  /\ (mkSegment (12 # 10) 2, "A"%string) ∈ Examples.short_gap
  /\ Exists (fun c => contains c (mkSegment (12 # 10) 2))
       (coverage (filled (1 # 2) Examples.short_gap)).
Proof.
  assert (Hv : Forall (fun item : Segment * string => valid (fst item))
                 Examples.short_gap).
  { repeat constructor; unfold valid, Qle; simpl; lia. }
  assert (Hin : (mkSegment (12 # 10) 2, "A"%string) ∈ Examples.short_gap)
    by (right; left).
  split; [exact Hv|]. split; [exact Hin|].
  exact (filled_coverage_contains_reference (1 # 2) Examples.short_gap
           (mkSegment (12 # 10) 2) "A"%string Hv Hin).
Defined.

Lemma fill_fold_none (tolerance : Q) (gs acc : Timeline) :
  Forall (fun g => Qltb (duration g) tolerance = false) gs ->
  fold_left
    (fun label_timeline gap =>
       if Qltb (duration gap) tolerance then add gap label_timeline
       else label_timeline)
    gs acc
  = acc.
Proof.
  intros Hg. revert acc. induction Hg as [|g gs Hgl Hg IH]; intros acc; simpl;
    [done|].
  rewrite Hgl. apply IH.
Qed.

(** X10.  A tolerance that fills nothing.  With a tolerance of 0 or less,
    no gap is shorter than the tolerance: the timeline of every label of a
    reference whose intervals have their start before their end is left as
    it is by the gap filler. *)
Theorem non_positive_tolerance_fills_nothing
    (tolerance : Q) (reference : Annotation) (label : string) :
  Forall (fun item : Segment * string => valid (fst item)) reference ->
  (tolerance <= 0)%Q ->
  fill_gaps tolerance (label_timeline reference label)
  = label_timeline reference label.
Proof.
  intros Hv Htol.
  destruct (label_timeline_ok reference label Hv) as [Hs Hval].
  unfold fill_gaps. apply fill_fold_none.
  apply Forall_forall. intros g Hg.
  pose proof (gaps_valid _ g Hs Hval Hg) as Hpos.
  apply Qltb_ge. unfold duration.
  rewrite (proj2 (Qltb_lt _ _) Hpos). lra.
Qed.

Lemma non_positive_tolerance_fills_nothing_witness :
  Forall (fun item : Segment * string => valid (fst item)) Examples.short_gap
  /\ (0 <= 0)%Q
  /\ fill_gaps 0 (label_timeline Examples.short_gap "A")
     = label_timeline Examples.short_gap "A".
Proof.
  assert (Hv : Forall (fun item : Segment * string => valid (fst item))
                 Examples.short_gap).
  { repeat constructor; unfold valid, Qle; simpl; lia. }
  assert (Htol : (0 <= 0)%Q) by (vm_compute; discriminate).
  split; [exact Hv|]. split; [exact Htol|].
  exact (non_positive_tolerance_fills_nothing 0 Examples.short_gap "A"%string
           Hv Htol).
Defined.

(** ** The partition builder *)

Lemma insert_sorted_Forall (P : Q -> Prop) (x : Q) (l : list Q) :
  P x -> Forall P l -> Forall P (insert_sorted x l).
Proof.
  intros Hx Hl. induction Hl as [|y l Hy Hl IH]; simpl.
  - by constructor.
  - destruct (Qeq_bool x y); [by constructor|].
    destruct (Qltb x y); by repeat constructor.
Qed.

Lemma insert_sorted_increasing (x : Q) (l : list Q) :
  StronglySorted Qlt l -> StronglySorted Qlt (insert_sorted x l).
Proof.
  induction l as [|y l IH]; intros Hl; simpl.
  - repeat constructor.
  - apply StronglySorted_cons in Hl as [Hy Hl].
    destruct (Qeq_bool x y) eqn:Heq; [by apply StronglySorted_cons|].
    apply Qeq_bool_neq in Heq.
    destruct (Qltb x y) eqn:Hlt.
    + apply Qltb_lt in Hlt. apply StronglySorted_cons.
      split; [|by apply StronglySorted_cons].
      constructor; [done|]. eapply Forall_impl; [exact Hy|].
      intros z Hz. simpl in Hz. lra.
    + apply Qltb_ge in Hlt. apply StronglySorted_cons. split; [|by apply IH].
      apply insert_sorted_Forall; [|done].
      destruct (Qlt_le_dec y x) as [|Hle]; [done|].
      exfalso. apply Heq. lra.
Qed.

Lemma endpoints_increasing (t : Timeline) : StronglySorted Qlt (endpoints t).
Proof.
  unfold endpoints.
  assert (H : forall acc, StronglySorted Qlt acc ->
            StronglySorted Qlt
              (fold_left
                 (fun acc s =>
                    insert_sorted (seg_end s) (insert_sorted (seg_start s) acc))
                 t acc)).
  { induction t as [|s t IH]; intros acc Hacc; simpl; [done|].
    by apply IH, insert_sorted_increasing, insert_sorted_increasing. }
  apply H. constructor.
Qed.

Lemma pairwise_increasing (l : list Q) (p : Q * Q) :
  StronglySorted Qlt l -> p ∈ pairwise l -> (fst p < snd p)%Q.
Proof.
  intros Hl Hp. unfold pairwise in Hp.
  apply list_elem_of_lookup in Hp as [i Hi]. destruct p as [a b].
  apply lookup_zip_Some in Hi as [Ha Hb]. rewrite lookup_tail in Hb. simpl.
  clear -Hl Ha Hb. revert i Ha Hb.
  induction Hl as [|x l Hl IH Hx]; intros i Ha Hb; [by rewrite lookup_nil in Ha|].
  destruct i as [|i].
  - injection Ha as <-. simpl in Hb. rewrite Forall_forall in Hx.
    apply Hx. by eapply list_elem_of_lookup_2.
  - simpl in Ha, Hb. by eapply IH.
Qed.

Lemma elem_of_crop (a : Annotation) (region : Timeline) (item : Segment * string) :
  item ∈ crop a region
  <-> exists (x : Segment * string) (c : Segment),
        x ∈ a /\ c ∈ region
        /\ nonempty (seg_inter (fst x) c) = true
        /\ item = (seg_inter (fst x) c, snd x).
Proof.
  unfold crop. rewrite list_elem_of_bind. split.
  - intros (x & Hin & Hx). apply list_elem_of_bind in Hin as (c & Hin & Hc).
    destruct (nonempty (seg_inter (fst x) c)) eqn:E;
      [|by apply elem_of_nil in Hin].
    apply list_elem_of_singleton in Hin. by exists x, c.
  - intros (x & c & Hx & Hc & Hne & ->). exists x. split; [|done].
    apply list_elem_of_bind. exists c. split; [|done]. rewrite Hne. left.
Qed.

Lemma crop_empty_region (a : Annotation) : crop a [] = [].
Proof. unfold crop. induction a as [|x a IH]; [done|]. exact IH. Qed.

Lemma anonymize_tracks_labels (a : Annotation) :
  snd <$> anonymize_tracks a = pretty <$> seq 0 (length a).
Proof.
  unfold anonymize_tracks. rewrite fmap_imap.
  rewrite (imap_ext _ (fun i _ => pretty i)) by done. apply imap_seq_0.
Qed.

Lemma elem_of_anonymize_tracks (a : Annotation) (item : Segment * string) :
  item ∈ anonymize_tracks a -> exists x, x ∈ a /\ fst item = fst x.
Proof.
  unfold anonymize_tracks. intros Hin.
  apply elem_of_lookup_imap in Hin as (i & x & -> & Hx).
  exists x. split; [by eapply list_elem_of_lookup_2 | done].
Qed.

Lemma seg_inter_contains (s c : Segment) :
  contains s (seg_inter s c) /\ contains c (seg_inter s c).
Proof.
  unfold contains, seg_inter. simpl.
  pose proof (Q.le_max_l (seg_start s) (seg_start c)).
  pose proof (Q.le_max_r (seg_start s) (seg_start c)).
  pose proof (Q.le_min_l (seg_end s) (seg_end c)).
  pose proof (Q.le_min_r (seg_end s) (seg_end c)).
  tauto.
Qed.

Lemma partition_empty_coverage (timeline : Timeline) : _partition timeline [] = [].
Proof. unfold _partition. by rewrite crop_empty_region. Qed.

(** X11.  The partition built by [_partition].  The timestamps of a
    timeline are sorted without repetition, so that consecutive timestamps
    delimit intervals of positive duration.  Every interval of the partition
    has a positive duration, lies inside of one of these intervals and
    inside of one segment of the coverage, and the intervals bear pairwise
    distinct labels.  A timeline without segments and an empty coverage
    give an empty partition. *)
Theorem partition_invariant (timeline coverage : Timeline) :
  (forall p, p ∈ pairwise (endpoints timeline) -> (fst p < snd p)%Q)
  /\ (forall item,
        item ∈ _partition timeline coverage ->
        (seg_start (fst item) < seg_end (fst item))%Q
        /\ (exists c, c ∈ coverage /\ contains c (fst item))
        /\ (exists p, p ∈ pairwise (endpoints timeline)
                      /\ contains (mkSegment (fst p) (snd p)) (fst item)))
  /\ NoDup (snd <$> _partition timeline coverage)
  /\ _partition [] coverage = []
  /\ _partition timeline [] = [].
Proof.
  split; [|split; [|split; [|split]]].
  - intros p. apply pairwise_increasing, endpoints_increasing.
  - intros item Hin. unfold _partition in Hin.
    apply elem_of_anonymize_tracks in Hin as (x & Hx & ->).
    apply elem_of_crop in Hx as (y & c & Hy & Hc & Hne & ->). simpl.
    apply list_elem_of_fmap in Hy as (p & -> & Hp). simpl in *.
    destruct (seg_inter_contains (mkSegment (fst p) (snd p)) c) as [H1 H2].
    split; [by apply Qltb_lt|]. split; [by exists c | by exists p].
  - unfold _partition. rewrite anonymize_tracks_labels.
    apply NoDup_fmap_2; [apply _ | apply NoDup_seq].
  - reflexivity.
  - apply partition_empty_coverage.
Qed.

Lemma partition_invariant_witness :
  (mkSegment 0 1, "0"%string)
    ∈ _partition (as_timeline Examples.hypothesis) [mkSegment 0 2]
  /\ (seg_start (mkSegment 0 1) < seg_end (mkSegment 0 1))%Q
  /\ (exists c, c ∈ [mkSegment 0 2] /\ contains c (mkSegment 0 1)).
Proof.
  assert (Hin : (mkSegment 0 1, "0"%string)
                  ∈ _partition (as_timeline Examples.hypothesis) [mkSegment 0 2]).
  { replace (_partition (as_timeline Examples.hypothesis) [mkSegment 0 2])
      with [(mkSegment 0 1, "0"%string); (mkSegment 1 2, "1"%string)]
      by (vm_compute; reflexivity).
    left. }
  split; [exact Hin|].
  destruct (proj1 (proj2 (partition_invariant (as_timeline Examples.hypothesis)
                            [mkSegment 0 2])) _ Hin) as (Hpos & Hc & _).
  split; [exact Hpos | exact Hc].
Defined.

(** ** The filled reference and its partition, timestamp by timestamp *)

Lemma inside_seg_eqb (s t : Segment) (p : Q) :
  seg_eqb s t = true -> inside s p -> inside t p.
Proof. rewrite seg_eqb_iff. unfold inside. intros [? ?] [? ?]. split; lra. Qed.

Lemma contains_inside (c x : Segment) (p : Q) :
  contains c x -> inside x p -> inside c p.
Proof. unfold contains, inside. intros [? ?] [? ?]. split; lra. Qed.

Lemma covers_seg_mem (t : Timeline) (p : Q) :
  covers t p <-> exists s, seg_mem s t /\ inside s p.
Proof.
  unfold covers, seg_mem. rewrite Exists_exists. split.
  - intros (s & Hs & Hp). exists s. split; [|done].
    apply Exists_exists. exists s. split; [done | apply seg_eqb_refl].
  - intros (s & Hs & Hp). apply Exists_exists in Hs as (x & Hx & Heq).
    exists x. split; [done|]. by eapply inside_seg_eqb.
Qed.

(** The merged envelope holds the same timestamps as the timeline. *)
Lemma covers_coverage (t : Timeline) (p : Q) :
  sorted_starts t -> Forall valid t -> covers (coverage t) p <-> covers t p.
Proof.
  intros Hs Hv. unfold covers. rewrite !Exists_exists. split.
  - intros (c & Hc & Hp).
    destruct (coverage_sound t c p Hc Hp) as (s & Hs' & Hps). eauto.
  - intros (s & Hin & Hp). destruct (coverage_props t Hs Hv) as (_ & _ & Hcont).
    specialize (Hcont s (elem_of_seg_mem _ _ Hin)).
    apply Exists_exists in Hcont as (c & Hc & Hcs).
    exists c. split; [done|]. by eapply contains_inside.
Qed.

Lemma seg_mem_fold_add_iff (x : Segment) (l acc : Timeline) :
  seg_mem x (fold_left (fun t s => add s t) l acc)
  <-> seg_mem x acc \/ seg_mem x l.
Proof.
  revert acc. induction l as [|s l IH]; intros acc; simpl.
  - split; [auto|]. intros [H|H]; [done|]. by apply Exists_nil in H.
  - rewrite IH, seg_mem_add. split.
    + intros [[H|H]|H]; [right; by left | by left | right; by right].
    + intros [H|H]; [left; by right|].
      apply Exists_cons in H as [H|H]; [left; by left | by right].
Qed.

Lemma seg_mem_filled_fold (tolerance : Q) (reference : Annotation)
    (ls : list string) (acc : Timeline) (c : Segment) :
  seg_mem c
    (fold_left
       (fun filled label =>
          let label_timeline := fill_gaps tolerance (label_timeline reference label) in
          fold_left (fun filled segment => add segment filled)
            (coverage label_timeline) filled)
       ls acc)
  <-> seg_mem c acc
      \/ exists l, l ∈ ls
           /\ seg_mem c (coverage (fill_gaps tolerance (label_timeline reference l))).
Proof.
  revert acc. induction ls as [|l ls IH]; intros acc; simpl.
  - split; [auto|]. intros [H|(l & Hl & _)]; [done | by apply elem_of_nil in Hl].
  - rewrite IH, seg_mem_fold_add_iff. split.
    + intros [[H|H]|(l' & Hl' & H)]; [by left | |].
      * right. exists l. split; [left | done].
      * right. exists l'. split; [by right | done].
    + intros [H|(l' & Hl' & H)]; [left; by left|].
      apply elem_of_cons in Hl' as [->|Hl']; [left; by right|].
      right. by exists l'.
Qed.

(** The segments of the filled reference are those of the merged, filled
    timelines of its labels. *)
Lemma seg_mem_filled (tolerance : Q) (reference : Annotation) (c : Segment) :
  seg_mem c (filled tolerance reference)
  <-> exists l, l ∈ labels reference
        /\ seg_mem c (coverage (fill_gaps tolerance (label_timeline reference l))).
Proof.
  unfold filled. rewrite seg_mem_filled_fold. split.
  - intros [H|H]; [by apply Exists_nil in H | done].
  - intros H. by right.
Qed.

Lemma covers_label_timeline (reference : Annotation) (label : string) (p : Q) :
  covers (label_timeline reference label) p
  <-> exists s, (s, label) ∈ reference /\ inside s p.
Proof.
  rewrite covers_seg_mem. unfold label_timeline, of_segments. split.
  - intros (s & Hs & Hp).
    apply seg_mem_fold_add_iff in Hs as [Hs|Hs]; [by apply Exists_nil in Hs|].
    apply Exists_exists in Hs as (x & Hx & Heq).
    apply list_elem_of_fmap in Hx as ([s' l'] & -> & Hin).
    apply list_elem_of_filter in Hin as [Hl Hin]. simpl in *. subst l'.
    exists s'. split; [done|]. by eapply inside_seg_eqb.
  - intros (s & Hin & Hp). exists s. split; [|done].
    apply seg_mem_fold_add. right. apply list_elem_of_fmap.
    exists (s, label). split; [done|]. by apply list_elem_of_filter.
Qed.

Lemma covers_fill_gaps (tolerance : Q) (t : Timeline) (p : Q) :
  covers (fill_gaps tolerance t) p
  <-> covers t p
      \/ exists g, g ∈ gaps t /\ (duration g < tolerance)%Q /\ inside g p.
Proof.
  rewrite !covers_seg_mem. unfold fill_gaps. split.
  - intros (s & Hs & Hp).
    apply seg_mem_fill in Hs as [Hs|(g & Hg & Hshort & Heq)].
    + left. eauto.
    + right. exists g. split; [done|]. split; [by apply Qltb_lt|].
      by eapply inside_seg_eqb.
  - intros [(s & Hs & Hp)|(g & Hg & Hshort & Hp)].
    + exists s. split; [|done]. apply seg_mem_fill. by left.
    + exists g. split; [|done]. apply seg_mem_fill. right.
      exists g. split; [done|]. split; [by apply Qltb_lt | apply seg_eqb_refl].
Qed.

Lemma covers_label (tolerance : Q) (reference : Annotation) (label : string)
    (p : Q) :
  Forall (fun item : Segment * string => valid (fst item)) reference ->
  covers (coverage (fill_gaps tolerance (label_timeline reference label))) p
  <-> label_region tolerance reference label p.
Proof.
  intros Hv. destruct (label_timeline_ok reference label Hv) as [Hs Hval].
  destruct (fill_gaps_ok tolerance _ Hs Hval) as [Hs' Hval'].
  rewrite (covers_coverage _ p Hs' Hval'), covers_fill_gaps,
    covers_label_timeline.
  reflexivity.
Qed.

Lemma label_timeline_labels (reference : Annotation) (label : string) :
  label_timeline reference label <> [] -> label ∈ labels reference.
Proof.
  intros Hne. destruct (label_timeline reference label) as [|s t] eqn:E; [done|].
  assert (H : seg_mem s (label_timeline reference label)).
  { rewrite E. apply elem_of_seg_mem. left. }
  unfold label_timeline, of_segments in H.
  apply seg_mem_fold_add_iff in H as [H|H]; [by apply Exists_nil in H|].
  apply Exists_exists in H as (x & Hx & _).
  apply list_elem_of_fmap in Hx as ([s' l'] & _ & Hin).
  apply list_elem_of_filter in Hin as [Hl Hin]. simpl in Hl. subst l'.
  unfold labels. apply elem_of_remove_dups, list_elem_of_fmap.
  by exists (s', label).
Qed.

Lemma label_region_labels (tolerance : Q) (reference : Annotation)
    (label : string) (p : Q) :
  label_region tolerance reference label p -> label ∈ labels reference.
Proof.
  intros [(s & Hin & _)|(g & Hg & _)].
  - unfold labels. apply elem_of_remove_dups, list_elem_of_fmap.
    by exists (s, label).
  - apply label_timeline_labels. intros E. rewrite E in Hg.
    by apply elem_of_nil in Hg.
Qed.

Lemma filled_ok (tolerance : Q) (reference : Annotation) :
  Forall (fun item : Segment * string => valid (fst item)) reference ->
  sorted_starts (filled tolerance reference)
  /\ Forall valid (filled tolerance reference).
Proof.
  intros Hv.
  apply (filled_fold_ok tolerance reference (labels reference) [] Hv);
    constructor.
Qed.

(** The coverage region of [_preprocess] is the union of what the labels
    contribute. *)
Lemma covers_filled_region (tolerance : Q) (reference : Annotation) (p : Q) :
  Forall (fun item : Segment * string => valid (fst item)) reference ->
  covers (coverage (filled tolerance reference)) p
  <-> exists l, label_region tolerance reference l p.
Proof.
  intros Hv. destruct (filled_ok tolerance reference Hv) as [Hsf Hvf].
  rewrite (covers_coverage _ p Hsf Hvf), covers_seg_mem. split.
  - intros (c & Hc & Hp). apply seg_mem_filled in Hc as (l & Hl & Hc).
    exists l. apply covers_label; [done|]. apply covers_seg_mem. eauto.
  - intros (l & Hr). pose proof (label_region_labels _ _ _ _ Hr) as Hl.
    apply covers_label in Hr; [|done].
    apply covers_seg_mem in Hr as (c & Hc & Hp).
    exists c. split; [|done]. apply seg_mem_filled. eauto.
Qed.

(** A timestamp strictly inside of a gap of a timeline lies in no segment
    of the timeline and in no other gap. *)
Lemma gap_interior (t : Timeline) (g : Segment) (p : Q) :
  sorted_starts t -> Forall valid t -> g ∈ gaps t ->
  (seg_start g < p < seg_end g)%Q ->
  ~ covers t p /\ forall g', g' ∈ gaps t -> inside g' p -> g' = g.
Proof.
  intros Hsort Hv Hg [Hp1 Hp2].
  apply gaps_lookup in Hg as (i & c1 & c2 & H1 & H2 & ->). simpl in Hp1, Hp2.
  destruct (coverage_props t Hsort Hv) as (Hval & Hsep & Hcont). split.
  - intros Hc. apply (covers_coverage t p Hsort Hv) in Hc.
    apply Exists_exists in Hc as (e & He & Hpe).
    apply list_elem_of_lookup in He as [a Ha].
    by apply (between_envelopes _ i a c1 c2 e p Hsep Hval H1 H2 Ha Hp1 Hp2).
  - intros g' Hg' [Hq1 Hq2].
    apply gaps_lookup in Hg' as (i' & c1' & c2' & H1' & H2' & ->).
    simpl in Hq1, Hq2.
    destruct (decide (i' = i)) as [->|Hne].
    { assert (c1' = c1) as -> by congruence.
      by assert (c2' = c2) as -> by congruence. }
    exfalso. rewrite Forall_forall in Hval.
    assert (Hv1 : valid c1) by (apply Hval; by eapply list_elem_of_lookup_2).
    assert (Hv2 : valid c2) by (apply Hval; by eapply list_elem_of_lookup_2).
    assert (Hv1' : valid c1') by (apply Hval; by eapply list_elem_of_lookup_2).
    assert (Hv2' : valid c2') by (apply Hval; by eapply list_elem_of_lookup_2).
    unfold valid in *.
    destruct (decide (i' < i)) as [Hlt|Hge].
    + destruct (decide (S i' = i)) as [Heq|Hne'].
      * assert (c2' = c1) as -> by congruence. lra.
      * assert (Hlt' : S i' < i) by lia.
        pose proof (separated_lookup _ (S i') i c2' c1 Hsep Hlt' H2' H1). lra.
    + destruct (decide (i' = S i)) as [->|Hne'].
      * assert (c1' = c2) as -> by congruence. lra.
      * assert (Hlt' : S i < i') by lia.
        pose proof (separated_lookup _ (S i) i' c2 c1' Hsep Hlt' H2 H1'). lra.
Qed.

(** Inside of a gap of the timeline of a label, the label contributes
    exactly when the gap is shorter than the tolerance. *)
Lemma label_region_gap (tolerance : Q) (reference : Annotation) (label : string)
    (g : Segment) (p : Q) :
  Forall (fun item : Segment * string => valid (fst item)) reference ->
  g ∈ gaps (label_timeline reference label) ->
  (seg_start g < p < seg_end g)%Q ->
  label_region tolerance reference label p <-> (duration g < tolerance)%Q.
Proof.
  intros Hv Hg Hp. destruct (label_timeline_ok reference label Hv) as [Hs Hval].
  destruct (gap_interior _ g p Hs Hval Hg Hp) as [Hout Hsame]. split.
  - intros [Hitem|(g' & Hg' & Hshort & Hin)].
    + exfalso. apply Hout. by apply covers_label_timeline.
    + by rewrite <- (Hsame g' Hg' Hin).
  - intros Hshort. right. exists g. split; [done|]. split; [done|].
    unfold inside. lra.
Qed.

(** *** The partition tiles its coverage *)

Lemma Exists_Qeq_proper (x y : Q) (l : list Q) :
  (x == y)%Q -> Exists (Qeq x) l -> Exists (Qeq y) l.
Proof.
  intros Hxy H. eapply Exists_impl; [exact H|]. intros z Hz. simpl in Hz.
  by rewrite <- Hxy.
Qed.

Lemma insert_sorted_mem (a x : Q) (l : list Q) :
  Exists (Qeq a) (insert_sorted x l) <-> (a == x)%Q \/ Exists (Qeq a) l.
Proof.
  induction l as [|y l IH]; simpl.
  - rewrite Exists_cons, Exists_nil. tauto.
  - destruct (Qeq_bool x y) eqn:E.
    + apply Qeq_bool_iff in E. rewrite Exists_cons. split; [auto|].
      intros [H|H]; [|done]. left. by rewrite H.
    + destruct (Qltb x y).
      * rewrite !Exists_cons. tauto.
      * rewrite !Exists_cons, IH. tauto.
Qed.

Lemma endpoints_fold_mem (t : Timeline) (acc : list Q) (a : Q) :
  Exists (Qeq a) acc
  \/ (exists s, s ∈ t /\ ((a == seg_start s)%Q \/ (a == seg_end s)%Q)) ->
  Exists (Qeq a)
    (fold_left
       (fun acc s => insert_sorted (seg_end s) (insert_sorted (seg_start s) acc))
       t acc).
Proof.
  revert acc. induction t as [|s t IH]; intros acc H; simpl.
  - destruct H as [H|(s & Hs & _)]; [done | by apply elem_of_nil in Hs].
  - apply IH. destruct H as [H|(s' & Hs' & H)].
    + left. rewrite !insert_sorted_mem. auto.
    + apply elem_of_cons in Hs' as [->|Hs'].
      * left. rewrite !insert_sorted_mem. tauto.
      * right. by exists s'.
Qed.

Lemma endpoints_mem (t : Timeline) :
  Forall
    (fun s => Exists (Qeq (seg_start s)) (endpoints t)
              /\ Exists (Qeq (seg_end s)) (endpoints t)) t.
Proof.
  apply Forall_forall. intros s Hs. unfold endpoints.
  split; apply endpoints_fold_mem; right; exists s; (split; [done|]);
    [left | right]; reflexivity.
Qed.

Lemma merge_from_ends (P : Q -> Prop) (l : Timeline) (cur c : Segment) :
  (forall x y, (x == y)%Q -> P x -> P y) ->
  P (seg_start cur) -> P (seg_end cur) ->
  Forall (fun s => P (seg_start s) /\ P (seg_end s)) l ->
  c ∈ merge_from cur l -> P (seg_start c) /\ P (seg_end c).
Proof.
  intros HP. revert cur. induction l as [|s l IH]; intros cur H1 H2 Hl Hc;
    simpl in Hc.
  - by apply list_elem_of_singleton in Hc as ->.
  - apply Forall_cons in Hl as [[Hs1 Hs2] Hl].
    destruct (Qltb (seg_end cur) (seg_start s)).
    + apply elem_of_cons in Hc as [->|Hc]; [done|]. by apply (IH s).
    + apply (IH (mkSegment (seg_start cur) (Qmax (seg_end cur) (seg_end s))));
        try done. simpl.
      destruct (Q.max_spec (seg_end cur) (seg_end s)) as [[_ Hm]|[_ Hm]];
        symmetry in Hm; eauto.
Qed.

(** The ends of the segments of a merged envelope are timestamps of the
    timeline. *)
Lemma coverage_ends (t : Timeline) (c : Segment) :
  c ∈ coverage t ->
  Exists (Qeq (seg_start c)) (endpoints t)
  /\ Exists (Qeq (seg_end c)) (endpoints t).
Proof.
  intros Hc. pose proof (endpoints_mem t) as Hm.
  destruct t as [|s t]; [by apply elem_of_nil in Hc|]. simpl in Hc.
  apply Forall_cons in Hm as [[Hs1 Hs2] Hm].
  apply (merge_from_ends (fun a => Exists (Qeq a) (endpoints (s :: t))) t s c);
    try done.
  intros x y Hxy. by apply Exists_Qeq_proper.
Qed.

(** Consecutive timestamps tile the span between two of them. *)
Lemma tiling (B : list Q) (a b p : Q) :
  StronglySorted Qlt B -> Exists (Qeq a) B -> Exists (Qeq b) B ->
  (a < b)%Q -> (a <= p <= b)%Q ->
  exists x y, (x, y) ∈ pairwise B /\ (a <= x)%Q /\ (x <= p <= y)%Q /\ (y <= b)%Q.
Proof.
  intros HB. revert a. induction HB as [|x B HB IH Hx]; intros a Ha Hb Hab Hp.
  - by apply Exists_nil in Ha.
  - rewrite Forall_forall in Hx.
    assert (Hb' : Exists (Qeq b) B).
    { apply Exists_cons in Hb as [Hb|Hb]; [|done]. exfalso.
      apply Exists_cons in Ha as [Ha|Ha]; [lra|].
      apply Exists_exists in Ha as (z & Hz & Haz). apply Hx in Hz. lra. }
    apply Exists_cons in Ha as [Ha|Ha].
    + destruct B as [|y B']; [by apply Exists_nil in Hb'|].
      assert (Hxy : (x < y)%Q) by (apply Hx; left).
      assert (Hyb : (y <= b)%Q).
      { apply StronglySorted_cons in HB as [Hy _]. rewrite Forall_forall in Hy.
        apply Exists_cons in Hb' as [Hb'|Hb']; [lra|].
        apply Exists_exists in Hb' as (z & Hz & Hbz). apply Hy in Hz. lra. }
      destruct (Qlt_le_dec y p) as [Hyp|Hpy].
      * destruct (IH y) as (x' & y' & Hin & H1 & H2 & H3);
          [left; reflexivity | done | lra | lra |].
        exists x', y'. split; [right; exact Hin|]. repeat split; lra.
      * exists x, y. split; [left|]. repeat split; lra.
    + destruct (IH a Ha Hb' Hab Hp) as (x' & y' & Hin & H).
      exists x', y'. split; [|done].
      destruct B as [|y B']; [by apply elem_of_nil in Hin | by right].
Qed.

Lemma fst_anonymize_tracks (a : Annotation) :
  fst <$> anonymize_tracks a = fst <$> a.
Proof.
  unfold anonymize_tracks. rewrite fmap_imap.
  rewrite (imap_ext _ (fun _ => fst)) by done. apply imap_const.
Qed.

(** Every timestamp of a segment of the region that has a positive
    duration and whose ends are timestamps of the timeline lies in an
    interval of the partition. *)
Lemma partition_covers (timeline region : Timeline) (c : Segment) (p : Q) :
  c ∈ region ->
  Exists (Qeq (seg_start c)) (endpoints timeline) ->
  Exists (Qeq (seg_end c)) (endpoints timeline) ->
  (seg_start c < seg_end c)%Q -> inside c p ->
  covers (fst <$> _partition timeline region) p.
Proof.
  intros Hc Hs He Hpos Hp.
  destruct (tiling (endpoints timeline) (seg_start c) (seg_end c) p)
    as (x & y & Hin & H1 & [H2 H3] & H4); try done.
  { apply endpoints_increasing. }
  pose proof (pairwise_increasing _ _ (endpoints_increasing timeline) Hin) as Hxy.
  simpl in Hxy.
  unfold _partition, covers. rewrite fst_anonymize_tracks.
  apply Exists_exists. exists (seg_inter (mkSegment x y) c). split.
  - apply list_elem_of_fmap. exists (seg_inter (mkSegment x y) c, "_"%string).
    split; [done|]. apply elem_of_crop.
    exists (mkSegment x y, "_"%string), c. split.
    { apply list_elem_of_fmap. by exists (x, y). }
    split; [done|]. split; [|done].
    apply Qltb_lt. simpl. apply Q.max_lub_lt; apply Q.min_glb_lt; lra.
  - unfold inside. simpl. split; [apply Q.max_lub | apply Q.min_glb]; lra.
Qed.

(** Every interval of the partition lies in a segment of the region. *)
Lemma partition_sound (timeline region : Timeline) (p : Q) :
  covers (fst <$> _partition timeline region) p -> covers region p.
Proof.
  unfold _partition, covers. rewrite fst_anonymize_tracks, !Exists_exists.
  intros (s & Hs & Hp). apply list_elem_of_fmap in Hs as (item & -> & Hin).
  apply elem_of_crop in Hin as (x & c & _ & Hc & _ & ->). simpl in Hp.
  exists c. split; [done|].
  destruct (seg_inter_contains (fst x) c) as [_ Hcc]. by eapply contains_inside.
Qed.

(** A timestamp of a filled timeline of a label lies in an interval of the
    partition of the reference, provided that the segment that holds it
    has a positive duration. *)
Lemma reference_partition_covers (tolerance : Q) (reference : Annotation)
    (label : string) (x : Segment) (p : Q) :
  Forall (fun item : Segment * string => valid (fst item)) reference ->
  label ∈ labels reference ->
  seg_mem x (fill_gaps tolerance (label_timeline reference label)) ->
  (seg_start x < seg_end x)%Q -> inside x p ->
  Exists (fun c => contains c x) (filled tolerance reference)
  /\ Exists (fun c => contains c x) (coverage (filled tolerance reference))
  /\ covers
       (fst <$> _partition (filled tolerance reference)
                  (coverage (filled tolerance reference))) p.
Proof.
  intros Hv Hl Hx Hpos Hp.
  destruct (label_timeline_ok reference label Hv) as [Hs Hval].
  destruct (fill_gaps_ok tolerance _ Hs Hval) as [Hs' Hval'].
  destruct (filled_ok tolerance reference Hv) as [Hsf Hvf].
  apply (coverage_props _ Hs' Hval') in Hx.
  apply Exists_exists in Hx as (c & Hc & Hcx).
  assert (Hf : seg_mem c (filled tolerance reference)).
  { apply seg_mem_filled. exists label. split; [done|]. by apply elem_of_seg_mem. }
  assert (H1 : Exists (fun c => contains c x) (filled tolerance reference)).
  { apply Exists_exists in Hf as (c' & Hc' & Heq). apply Exists_exists.
    exists c'. split; [done|]. apply seg_eqb_iff in Heq as [? ?].
    unfold contains in *. lra. }
  apply (coverage_props _ Hsf Hvf) in Hf.
  assert (H2 : Exists (fun c => contains c x)
                 (coverage (filled tolerance reference))).
  { eapply Exists_impl; [exact Hf|]. intros c' Hc'. simpl in Hc'.
    by eapply contains_trans. }
  split; [done|]. split; [done|].
  apply Exists_exists in H2 as (e & He & Hex).
  destruct (coverage_ends _ e He) as [He1 He2].
  apply (partition_covers _ _ e p He He1 He2).
  - unfold contains in Hex. lra.
  - by eapply contains_inside.
Qed.

(** C10.  The Gap Filler of [_preprocess].  For a reference whose intervals
    have their start before their end, and a gap of the timeline of a label:
    - the inner loop adds the gap to that timeline exactly when its duration
      is strictly less than the tolerance, and the coverage of the filled
      timeline spans it exactly in that case;
    - a gap shorter than the tolerance is spanned by one segment of the
      filled reference and of its coverage, and at a timestamp strictly
      inside of the gap the coverage region holds the timestamp exactly when
      the gap is shorter than the tolerance or another label contributes
      there;
    - the reference partition returned by [_preprocess] holds every
      timestamp of a gap shorter than the tolerance; it holds a timestamp
      strictly inside of a gap that is not shorter only where another label
      contributes, hence nowhere when the reference bears one label; the
      hypothesis partition stays within the coverage region.
    With the tolerance [0.5], the intervals [0,1] and [1.2,2] of one label
    are filled into the single interval [0,2], which is what is partitioned;
    the intervals [0,1] and [1.5,2], whose gap lasts exactly [0.5], are left
    apart, and so are [0,1] and [1.9,3] when an interval of another label
    cuts their gap into two gaps of duration [0.4]. *)
Theorem gap_filler_threshold :
  (forall (tolerance : Q) (reference : Annotation) (label : string) (gap : Segment),
      Forall (fun item : Segment * string => valid (fst item)) reference ->
      gap ∈ gaps (label_timeline reference label) ->
      (seg_mem gap (fill_gaps tolerance (label_timeline reference label))
       <-> (duration gap < tolerance)%Q)
      /\ (Exists (fun c => contains c gap)
            (coverage (fill_gaps tolerance (label_timeline reference label)))
          <-> (duration gap < tolerance)%Q)
      /\ ((duration gap < tolerance)%Q ->
          Exists (fun c => contains c gap) (filled tolerance reference)
          /\ Exists (fun c => contains c gap)
               (coverage (filled tolerance reference)))
      /\ (forall p,
            (seg_start gap < p < seg_end gap)%Q ->
            covers (coverage (filled tolerance reference)) p
            <-> (duration gap < tolerance)%Q
                \/ exists other,
                     other <> label
                     /\ label_region tolerance reference other p)
      /\ forall hypothesis : structure,
          exists rp hp,
            _preprocess tolerance (IsAnnotation reference) hypothesis
            = Ok (rp, hp)
            /\ ((duration gap < tolerance)%Q ->
                forall p, inside gap p -> covers (fst <$> rp) p)
            /\ (forall p,
                  (seg_start gap < p < seg_end gap)%Q ->
                  covers (fst <$> rp) p ->
                  (duration gap < tolerance)%Q
                  \/ exists other,
                       other <> label
                       /\ label_region tolerance reference other p)
            /\ (Forall (fun item : Segment * string => snd item = label)
                  reference ->
                forall p,
                  (seg_start gap < p < seg_end gap)%Q ->
                  covers (fst <$> rp) p <-> (duration gap < tolerance)%Q)
            /\ (forall p,
                  covers (fst <$> hp) p ->
                  covers (coverage (filled tolerance reference)) p))
  /\ gaps (label_timeline Examples.short_gap "A") = [mkSegment 1 (12 # 10)]
  /\ filled (1 # 2) Examples.short_gap = [mkSegment 0 2]
  /\ _preprocess (1 # 2) (IsAnnotation Examples.short_gap)
       (IsAnnotation Examples.short_gap)
     = Ok ([(mkSegment 0 2, "0"%string)],
           [(mkSegment 0 1, "0"%string); (mkSegment 1 (12 # 10), "1"%string);
            (mkSegment (12 # 10) 2, "2"%string)])
  /\ gaps (label_timeline Examples.half_gap "A") = [mkSegment 1 (3 # 2)]
  /\ filled (1 # 2) Examples.half_gap = [mkSegment 0 1; mkSegment (3 # 2) 2]
  /\ _preprocess (1 # 2) (IsAnnotation Examples.half_gap)
       (IsTimeline [mkSegment 0 2])
     = Ok ([(mkSegment 0 1, "0"%string); (mkSegment (3 # 2) 2, "1"%string)],
           [(mkSegment 0 1, "0"%string); (mkSegment (3 # 2) 2, "1"%string)])
  /\ gaps (label_timeline Examples.interleaved "A") = [mkSegment 1 (19 # 10)]
  /\ filled (1 # 2) Examples.interleaved
     = [mkSegment 0 1; mkSegment (14 # 10) (15 # 10); mkSegment (19 # 10) 3]
  /\ _preprocess (1 # 2) (IsAnnotation Examples.interleaved)
       (IsTimeline [mkSegment 0 3])
     = Ok ([(mkSegment 0 1, "0"%string);
            (mkSegment (14 # 10) (15 # 10), "1"%string);
            (mkSegment (19 # 10) 3, "2"%string)],
           [(mkSegment 0 1, "0"%string);
            (mkSegment (14 # 10) (15 # 10), "1"%string);
            (mkSegment (19 # 10) 3, "2"%string)]).
Proof.
  split; [|repeat split; vm_compute; reflexivity].
  intros tolerance reference label gap Hv Hg.
  destruct (label_timeline_ok reference label Hv) as [Hsort Hval].
  pose proof (gaps_valid _ gap Hsort Hval Hg) as Hpos.
  assert (Hlabel : label ∈ labels reference).
  { apply label_timeline_labels. intros E. rewrite E in Hg.
    by apply elem_of_nil in Hg. }
  assert (Hmem : seg_mem gap (fill_gaps tolerance (label_timeline reference label))
                 <-> (duration gap < tolerance)%Q).
  { rewrite <- Qltb_lt. unfold fill_gaps. rewrite seg_mem_fill. split.
    - intros [Hin|(g' & Hg' & Hshort & Heq)].
      + by apply gap_not_member in Hin.
      + rewrite <- Hshort. apply Qltb_proper; [|reflexivity].
        by apply duration_proper.
    - intros Hshort. right. exists gap. split; [done|]. split; [done|].
      apply seg_eqb_refl. }
  assert (Hregion : forall p,
            (seg_start gap < p < seg_end gap)%Q ->
            (exists l, label_region tolerance reference l p)
            <-> (duration gap < tolerance)%Q
                \/ exists other,
                     other <> label
                     /\ label_region tolerance reference other p).
  { intros p Hp. split.
    - intros (l & Hl). destruct (decide (l = label)) as [->|Hne].
      + left. by apply (label_region_gap tolerance reference label gap p).
      + right. by exists l.
    - intros [Hshort|(other & _ & Hl)]; [|by exists other].
      exists label. by apply (label_region_gap tolerance reference label gap p). }
  split; [exact Hmem|]. split; [|split; [|split]].
  - split.
    + intros Hex. rewrite <- Qltb_lt.
      destruct (Qltb (duration gap) tolerance) eqn:E; [done|].
      by apply long_gap_uncovered in Hex.
    + intros Hshort. apply Hmem in Hshort.
      destruct (fill_gaps_ok tolerance _ Hsort Hval) as [Hsort' Hval'].
      by apply (coverage_props _ Hsort' Hval').
  - intros Hshort. apply Hmem in Hshort.
    destruct (reference_partition_covers tolerance reference label gap
                (seg_start gap) Hv Hlabel Hshort Hpos) as (H1 & H2 & _);
      [unfold inside; lra | done].
  - intros p Hp. rewrite covers_filled_region by done. by apply Hregion.
  - intros hypothesis. eexists _, _. split; [reflexivity|].
    split; [|split; [|split]].
    + intros Hshort p Hp. apply Hmem in Hshort.
      by apply (reference_partition_covers tolerance reference label gap p).
    + intros p Hp Hc. apply partition_sound in Hc.
      apply covers_filled_region in Hc; [|done]. by apply Hregion.
    + intros Hone p Hp. split.
      * intros Hc. apply partition_sound in Hc.
        apply covers_filled_region in Hc; [|done].
        apply Hregion in Hc as [Hshort|(other & Hne & Hl)]; [done | | done].
        exfalso. apply Hne. apply label_region_labels in Hl.
        unfold labels in Hl. rewrite elem_of_remove_dups in Hl.
        apply list_elem_of_fmap in Hl as (item & -> & Hin).
        rewrite Forall_forall in Hone. by apply Hone.
      * intros Hshort. apply Hmem in Hshort.
        apply (reference_partition_covers tolerance reference label gap p);
          try done. unfold inside. lra.
    + intros p Hc. by apply partition_sound in Hc.
Qed.

Lemma gap_filler_threshold_witness :
  Forall (fun item : Segment * string => valid (fst item)) Examples.short_gap
  /\ mkSegment 1 (12 # 10) ∈ gaps (label_timeline Examples.short_gap "A")
  /\ (duration (mkSegment 1 (12 # 10)) < 1 # 2)%Q
  /\ seg_mem (mkSegment 1 (12 # 10))
       (fill_gaps (1 # 2) (label_timeline Examples.short_gap "A"))
  /\ Exists (fun c => contains c (mkSegment 1 (12 # 10)))
       (coverage (filled (1 # 2) Examples.short_gap))
  /\ exists rp hp,
       _preprocess (1 # 2) (IsAnnotation Examples.short_gap)
         (IsAnnotation Examples.short_gap)
       = Ok (rp, hp)
       /\ covers (fst <$> rp) (11 # 10).
Proof.
  assert (Hv : Forall (fun item : Segment * string => valid (fst item))
                 Examples.short_gap).
  { repeat constructor; unfold valid, Qle; simpl; lia. }
  assert (Hg : mkSegment 1 (12 # 10) ∈ gaps (label_timeline Examples.short_gap "A")).
  { replace (gaps (label_timeline Examples.short_gap "A"))
      with [mkSegment 1 (12 # 10)] by (vm_compute; reflexivity).
    left. }
  assert (Hshort : (duration (mkSegment 1 (12 # 10)) < 1 # 2)%Q)
    by (vm_compute; reflexivity).
  assert (Hp : inside (mkSegment 1 (12 # 10)) (11 # 10)).
  { unfold inside, Qle. simpl. lia. }
  destruct (proj1 gap_filler_threshold (1 # 2)%Q Examples.short_gap "A"%string
              (mkSegment 1 (12 # 10)) Hv Hg) as (H1 & _ & H3 & _ & H5).
  split; [exact Hv|]. split; [exact Hg|]. split; [exact Hshort|].
  split; [exact (proj2 H1 Hshort)|]. split; [exact (proj2 (H3 Hshort))|].
  destruct (H5 (IsAnnotation Examples.short_gap)) as (rp & hp & Hpre & Hin & _).
  exists rp, hp. split; [exact Hpre|]. exact (Hin Hshort (11 # 10)%Q Hp).
Defined.

(** ** Structures without segments *)

Lemma preprocess_empty_reference (tolerance : Q) (hypothesis : structure) :
  _preprocess tolerance (IsAnnotation []) hypothesis = Ok ([], []).
Proof.
  unfold _preprocess.
  change (filled tolerance []) with (@nil Segment).
  change (coverage []) with (@nil Segment).
  by rewrite !partition_empty_coverage.
Qed.

Lemma cp_detail_zero_rate :
  SegmentationCoverage._get_rate (Examples.cp_detail 0 0) = Raise ZeroDivisionError.
Proof. by rewrite coverage_get_rate_detail. Qed.

Lemma process_no_columns (a : Annotation) : _process a [] = Raise ValueError.
Proof. by apply process_cases. Qed.

(** A reference with an interval of positive duration has a partition with
    an interval. *)
Lemma reference_partition_nonempty (tolerance : Q) (reference : Annotation)
    (s : Segment) (label : string) :
  Forall (fun item : Segment * string => valid (fst item)) reference ->
  (s, label) ∈ reference -> (seg_start s < seg_end s)%Q ->
  _partition (filled tolerance reference) (coverage (filled tolerance reference))
  <> [].
Proof.
  intros Hv Hin Hpos.
  assert (Hl : label ∈ labels reference).
  { unfold labels. apply elem_of_remove_dups, list_elem_of_fmap.
    by exists (s, label). }
  assert (Hmem : seg_mem s (fill_gaps tolerance (label_timeline reference label))).
  { unfold fill_gaps. apply seg_mem_fill. left.
    unfold label_timeline, of_segments. apply seg_mem_fold_add. right.
    apply list_elem_of_fmap. exists (s, label). split; [done|].
    by apply list_elem_of_filter. }
  destruct (reference_partition_covers tolerance reference label s (seg_start s)
              Hv Hl Hmem Hpos) as (_ & _ & Hc); [unfold inside; lra|].
  intros E. rewrite E in Hc. by apply Exists_nil in Hc.
Qed.

(** X12.  Structures without segments.  With a reference annotation that
    has no interval, both partitions are empty and the coverage and the
    purity raise [ValueError] (the row maxima of an array of shape (0, 0)),
    for every hypothesis and tolerance.  With a hypothesis that has no
    segment, the coverage raises [ValueError] for every reference; the
    purity returns a Detail Record whose two durations are 0 and its rate
    raises [ZeroDivisionError] as soon as the partition of the reference
    has an interval, and raises [ValueError] otherwise.  The partition of
    a reference has an interval as soon as the reference has an interval of
    positive duration. *)
Theorem structures_without_segments (tolerance : Q) :
  (forall hypothesis : structure,
      SegmentationCoverage._get_details tolerance (IsAnnotation []) hypothesis
      = Raise ValueError
      /\ SegmentationPurity._get_details tolerance (IsAnnotation []) hypothesis
         = Raise ValueError
      /\ SegmentationCoverage.rate tolerance (IsAnnotation []) hypothesis
         = Raise ValueError
      /\ SegmentationPurity.rate tolerance (IsAnnotation []) hypothesis
         = Raise ValueError)
  /\ (forall (reference : Annotation) (hypothesis : structure),
        hypothesis = IsTimeline [] \/ hypothesis = IsAnnotation [] ->
        SegmentationCoverage._get_details tolerance (IsAnnotation reference)
          hypothesis
        = Raise ValueError
        /\ SegmentationCoverage.rate tolerance (IsAnnotation reference) hypothesis
           = Raise ValueError
        /\ (_partition (filled tolerance reference)
              (coverage (filled tolerance reference)) <> [] ->
            SegmentationPurity._get_details tolerance (IsAnnotation reference)
              hypothesis
            = Ok (Examples.cp_detail 0 0)
            /\ SegmentationPurity.rate tolerance (IsAnnotation reference)
                 hypothesis
               = Raise ZeroDivisionError)
        /\ (_partition (filled tolerance reference)
              (coverage (filled tolerance reference)) = [] ->
            SegmentationPurity._get_details tolerance (IsAnnotation reference)
              hypothesis
            = Raise ValueError
            /\ SegmentationPurity.rate tolerance (IsAnnotation reference)
                 hypothesis
               = Raise ValueError)
        /\ (Forall (fun item : Segment * string => valid (fst item)) reference ->
            (exists s label,
                (s, label) ∈ reference /\ (seg_start s < seg_end s)%Q) ->
            _partition (filled tolerance reference)
              (coverage (filled tolerance reference)) <> [])).
Proof.
  split.
  - intros hypothesis.
    unfold SegmentationCoverage.rate, SegmentationPurity.rate,
      SegmentationCoverage._get_details, SegmentationPurity._get_details.
    rewrite preprocess_empty_reference. cbn [rbind fst snd].
    by rewrite process_no_columns.
  - intros reference hypothesis Hh.
    assert (Hp : _preprocess tolerance (IsAnnotation reference) hypothesis
                 = Ok (_partition (filled tolerance reference)
                         (coverage (filled tolerance reference)), [])).
    { by destruct Hh as [-> | ->]. }
    unfold SegmentationCoverage.rate, SegmentationPurity.rate,
      SegmentationCoverage._get_details, SegmentationPurity._get_details.
    rewrite Hp. cbn [rbind fst snd]. rewrite process_no_columns.
    split; [done|]. split; [done|]. split; [|split].
    + intros Hne. rewrite process_no_rows by done. cbn [rbind].
      by rewrite cp_detail_zero_rate.
    + intros ->. by rewrite process_no_columns.
    + intros Hv (s & label & Hin & Hpos).
      by apply (reference_partition_nonempty tolerance reference s label).
Qed.

Lemma structures_without_segments_witness :
  (IsTimeline [] = IsTimeline [] \/ IsTimeline [] = IsAnnotation [])
  /\ Forall (fun item : Segment * string => valid (fst item)) Examples.short_gap
  /\ (exists s label,
        (s, label) ∈ Examples.short_gap /\ (seg_start s < seg_end s)%Q)
  /\ _partition (filled (1 # 2) Examples.short_gap)
       (coverage (filled (1 # 2) Examples.short_gap)) <> []
  /\ SegmentationCoverage.rate (1 # 2) (IsAnnotation Examples.short_gap)
       (IsTimeline [])
     = Raise ValueError
  /\ SegmentationPurity.rate (1 # 2) (IsAnnotation Examples.short_gap)
       (IsTimeline [])
     = Raise ZeroDivisionError.
Proof.
  assert (Hh : IsTimeline [] = IsTimeline [] \/ IsTimeline [] = IsAnnotation [])
    by (left; reflexivity).
  assert (Hv : Forall (fun item : Segment * string => valid (fst item))
                 Examples.short_gap).
  { repeat constructor; unfold valid, Qle; simpl; lia. }
  assert (Hex : exists s label,
             (s, label) ∈ Examples.short_gap /\ (seg_start s < seg_end s)%Q).
  { exists (mkSegment 0 1), "A"%string. split; [left | reflexivity]. }
  destruct (proj2 (structures_without_segments (1 # 2)) Examples.short_gap
              (IsTimeline []) Hh) as (_ & HC & HP & _ & Hne).
  split; [exact Hh|]. split; [exact Hv|]. split; [exact Hex|].
  split; [exact (Hne Hv Hex)|]. split; [exact HC|].
  exact (proj2 (HP (Hne Hv Hex))).
Defined.

(** ** Detail Records *)

Lemma dom_pr_detail (c b : Q) :
  dom (<[PR_MATCHES := c]>
         (<[PR_BOUNDARIES := b]>
            (init_details SegmentationPrecision.metric_components)))
  = list_to_set SegmentationPrecision.metric_components.
Proof.
  rewrite !dom_insert_L. unfold init_details. rewrite dom_list_to_map_L.
  simpl. set_solver.
Qed.

Lemma dom_cp_detail (total inter : Q) :
  dom (Examples.cp_detail total inter)
  = list_to_set SegmentationCoverage.metric_components.
Proof.
  unfold Examples.cp_detail.
  rewrite !dom_insert_L. unfold init_details. rewrite dom_list_to_map_L.
  simpl. set_solver.
Qed.

Lemma process_dom (a b : Annotation) (d : Detail) :
  _process a b = Ok d ->
  dom d = list_to_set SegmentationCoverage.metric_components.
Proof.
  intros Hd. destruct (decide (b = [])) as [H|H].
  - unfold _process in Hd.
    rewrite (proj1 (max_axis1_cooccurrence a b) H) in Hd. discriminate.
  - destruct (proj2 (max_axis1_cooccurrence a b) H) as [maxima Hm].
    unfold _process in Hd. rewrite Hm in Hd. injection Hd as <-.
    apply (dom_cp_detail (sum (cooccurrence a b)) (Qsum maxima)).
Qed.

(** X13.  The keys of a Detail Record.  Whenever [_get_details] of one of
    the four metrics returns a Detail Record, its keys are exactly the
    components that [metric_components] lists for that metric, so that
    [_get_rate] finds the two values it reads. *)
Theorem details_hold_the_metric_components
    (tolerance : Q) (reference hypothesis : structure) (d : Detail) :
  (SegmentationPrecision._get_details tolerance reference hypothesis = Some (Ok d) ->
   dom d = list_to_set SegmentationPrecision.metric_components)
  /\ (SegmentationRecall._get_details tolerance reference hypothesis = Some (Ok d) ->
      dom d = list_to_set SegmentationPrecision.metric_components)
  /\ (SegmentationCoverage._get_details tolerance reference hypothesis = Ok d ->
      dom d = list_to_set SegmentationCoverage.metric_components
      /\ SegmentationCoverage._get_rate d <> Raise KeyError)
  /\ (SegmentationPurity._get_details tolerance reference hypothesis = Ok d ->
      dom d = list_to_set SegmentationCoverage.metric_components
      /\ SegmentationCoverage._get_rate d <> Raise KeyError).
Proof.
  assert (Hkey : forall d' : Detail,
    dom d' = list_to_set SegmentationCoverage.metric_components ->
    SegmentationCoverage._get_rate d' <> Raise KeyError).
  { intros d' Hdom. unfold SegmentationCoverage._get_rate, getitem.
    assert (H1 : is_Some (d' !! PTY_CVG_INTER)).
    { apply elem_of_dom. rewrite Hdom. simpl. set_solver. }
    assert (H2 : is_Some (d' !! PTY_CVG_TOTAL)).
    { apply elem_of_dom. rewrite Hdom. simpl. set_solver. }
    destruct H1 as [x ->], H2 as [y ->]. cbn [rbind].
    destruct (Qeq_bool y 0); discriminate. }
  split; [|split; [|split]].
  - intros Hd. apply get_details_Ok in Hd as ->. apply dom_pr_detail.
  - unfold SegmentationRecall._get_details. intros Hd.
    apply get_details_Ok in Hd as ->. apply dom_pr_detail.
  - unfold SegmentationCoverage._get_details. intros Hd. inv_result.
    apply process_dom in Hd. split; [done | by apply Hkey].
  - unfold SegmentationPurity._get_details. intros Hd. inv_result.
    apply process_dom in Hd. split; [done | by apply Hkey].
Qed.

Lemma details_hold_the_metric_components_witness :
  (SegmentationPrecision._get_details 0 Examples.reference Examples.hypothesis
   = Some (Ok (Examples.pr_detail 2 3))
   /\ dom (Examples.pr_detail 2 3)
      = list_to_set SegmentationPrecision.metric_components)
  /\ (SegmentationCoverage._get_details (1 # 2) (IsAnnotation Examples.one_label)
        (IsAnnotation Examples.two_labels) = Ok (Examples.cp_detail 2 1)
      /\ dom (Examples.cp_detail 2 1)
         = list_to_set SegmentationCoverage.metric_components).
Proof.
  assert (Hp : SegmentationPrecision._get_details 0 Examples.reference
                 Examples.hypothesis = Some (Ok (Examples.pr_detail 2 3)))
    by (vm_compute; reflexivity).
  assert (Hc : SegmentationCoverage._get_details (1 # 2)
                 (IsAnnotation Examples.one_label)
                 (IsAnnotation Examples.two_labels) = Ok (Examples.cp_detail 2 1))
    by (vm_compute; reflexivity).
  split.
  - split; [exact Hp|].
    exact (proj1 (details_hold_the_metric_components 0 Examples.reference
                    Examples.hypothesis (Examples.pr_detail 2 3)) Hp).
  - split; [exact Hc|].
    exact (proj1 (proj1 (proj2 (proj2 (details_hold_the_metric_components (1 # 2)
                    (IsAnnotation Examples.one_label)
                    (IsAnnotation Examples.two_labels) (Examples.cp_detail 2 1))))
                    Hc)).
Defined.

(** X14.  Gap filling grows with the tolerance.  For tolerances
    [t1 <= t2], every segment of the timeline of a label filled with [t1]
    is a segment of that timeline filled with [t2]; the segments of the
    timeline itself are always kept. *)
Theorem fill_gaps_monotone (t1 t2 : Q) (label_timeline : Timeline) (x : Segment) :
  (t1 <= t2)%Q ->
  (seg_mem x label_timeline -> seg_mem x (fill_gaps t1 label_timeline))
  /\ (seg_mem x (fill_gaps t1 label_timeline) ->
      seg_mem x (fill_gaps t2 label_timeline)).
Proof.
  intros Ht. unfold fill_gaps. rewrite !seg_mem_fill. split; [auto|].
  intros [H|(g & Hg & Hshort & Heq)]; [auto|].
  right. exists g. split; [done|]. split; [|done].
  apply Qltb_lt in Hshort. apply Qltb_lt. lra.
Qed.

Lemma fill_gaps_monotone_witness :
  (1 # 2 <= 1)%Q
  /\ seg_mem (mkSegment 1 (12 # 10))
       (fill_gaps (1 # 2) (label_timeline Examples.short_gap "A"))
  /\ seg_mem (mkSegment 1 (12 # 10))
       (fill_gaps 1 (label_timeline Examples.short_gap "A")).
Proof.
  assert (Ht : (1 # 2 <= 1)%Q) by (vm_compute; discriminate).
  assert (Hm : seg_mem (mkSegment 1 (12 # 10))
                 (fill_gaps (1 # 2) (label_timeline Examples.short_gap "A"))).
  { replace (fill_gaps (1 # 2) (label_timeline Examples.short_gap "A"))
      with [mkSegment 0 1; mkSegment 1 (12 # 10); mkSegment (12 # 10) 2]
      by (vm_compute; reflexivity).
    right. left. reflexivity. }
  split; [exact Ht|]. split; [exact Hm|].
  exact (proj2 (fill_gaps_monotone (1 # 2) 1
                  (label_timeline Examples.short_gap "A")
                  (mkSegment 1 (12 # 10)) Ht) Hm).
Defined.
